(** * Picklist generation: the packer and the reporter

    A shallow embedding of [generate_picklists.py] (the greedy packer) and of
    [evaluation.py] (the quality report), and the properties of the
    specification proved over it.

    The packer and the reporter are written once over an interface of float
    operations ([FloatOps]); its instance is IEEE 754 binary64 (Rocq's
    primitive floats, what CPython computes with).  A property that only
    depends on the control flow is proved for every instance of the
    interface; a property of the arithmetic is proved of binary64, from the
    specification of the primitive operations: each is the exact result
    rounded to the nearest float, ties to even. *)

From Stdlib Require Import ZArith Rbase Rfunctions Lra String List Lia Sorted Permutation.
From Stdlib Require Import Floats.
From stdpp Require Import base list gmap strings pretty sorting.

Local Open Scope string_scope.
Local Open Scope list_scope.
Local Open Scope Z_scope.

(** ** Float arithmetic *)

(** The operations the two programs use on floats.  [f_of_int n] is
    [float(n)] (the conversion Python applies to the integer operand of a
    mixed operation), [f_dec m e] the decimal literal [m]e[e] (so [1e-6] is
    [f_dec 1 (-6)] and [200.0] is [f_dec 200 0]), [f_to_int x] is [int(x)]:
    truncation toward zero, [None] where Python raises ([OverflowError] on an
    infinity, [ValueError] on a NaN). *)
Class FloatOps (F : Type) := {
  f_of_int : Z -> F;
  f_dec : Z -> Z -> F;
  fadd : F -> F -> F;
  fsub : F -> F -> F;
  fmul : F -> F -> F;
  fdiv : F -> F -> F;
  fleb : F -> F -> bool;
  fltb : F -> F -> bool;
  f_to_int : F -> option Z
}.

Module Binary64.

(** [float(n)], correctly rounded (round to nearest, ties to even). *)
Definition of_Z (n : Z) : float :=
  SF2Prim (binary_normalize prec emax n 0 false).

(** A decimal literal: exact integers for a non-negative exponent, else the
    correctly rounded quotient of two integers (both are exact floats for
    every literal of the two programs). *)
Definition dec (m e : Z) : float :=
  if 0 <=? e then of_Z (m * 10 ^ e)
  else PrimFloat.div (of_Z m) (of_Z (10 ^ (- e))).

(** [int(x)] on a float. *)
Definition to_Z (x : float) : option Z :=
  match Prim2SF x with
  | S754_zero _ => Some 0
  | S754_finite s m e =>
      let a := if 0 <=? e then Z.pos m * 2 ^ e else Z.pos m / 2 ^ (- e) in
      Some (if s then - a else a)
  | S754_infinity _ => None
  | S754_nan => None
  end.

#[global] Instance ops : FloatOps float := {
  f_of_int := of_Z;
  f_dec := dec;
  fadd := PrimFloat.add;
  fsub := PrimFloat.sub;
  fmul := PrimFloat.mul;
  fdiv := PrimFloat.div;
  fleb := PrimFloat.leb;
  fltb := PrimFloat.ltb;
  f_to_int := to_Z
}.

End Binary64.

(** *** Values and rounding

    What the specification of the primitive operations ([SpecFloat]) means
    in real numbers.  Only floats that are not negative are covered: the
    weights, counts and percentages of the two programs. *)

(** [2 ^ e], for an exponent of any sign. *)
Definition bpow (e : Z) : R := powerRZ 2 e.

Section RoundingDefs.
Variables prec emax : Z.

(** A mantissa and an exponent in the form the format stores: the mantissa
    under [2 ^ prec], and of full width unless the exponent is the least. *)
Definition canonic (m e : Z) : Prop :=
  0 <= m < 2 ^ prec /\ SpecFloat.emin prec emax <= e /\
  (SpecFloat.emin prec emax < e -> 2 ^ (prec - 1) <= m).

(** The location [l] says where [w] lies between [m] and [m + 1]. *)
Definition located (m : Z) (l : location) (w : R) : Prop :=
  match l with
  | loc_Exact => w = IZR m
  | loc_Inexact Lt => (IZR m < w < IZR m + / 2)%R
  | loc_Inexact Eq => w = (IZR m + / 2)%R
  | loc_Inexact Gt => (IZR m + / 2 < w < IZR m + 1)%R
  end.

(** [m] is an integer nearest to [w], the even one of the two at a tie. *)
Definition nearest_even (w : R) (m : Z) : Prop :=
  (IZR m - / 2 <= w <= IZR m + / 2)%R /\
  ((w = IZR m - / 2 \/ w = IZR m + / 2)%R -> Z.even m = true).

(** [v] rounds to [m * 2 ^ e]: [e] is the exponent of the format for [v],
    and [m] is nearest to [v / 2 ^ e] ([m] may reach [2 ^ prec]). *)
Definition rounds_to (v : R) (m e : Z) : Prop :=
  exists (m0 : Z) (w : R),
    v = (w * bpow e)%R /\ canonic m0 e /\ (IZR m0 <= w < IZR m0 + 1)%R /\
    (m = m0 \/ m = m0 + 1) /\ nearest_even w m.

(** The float that stores a rounded [m * 2 ^ e]: a zero, the number, or
    [+inf] when the exponent is over the range. *)
Definition packs (m e : Z) (r : spec_float) : Prop :=
  match r with
  | S754_zero _ => m = 0
  | S754_finite false p ef =>
      ef <= emax - prec /\
      ((Z.pos p = m /\ ef = e /\ m < 2 ^ prec) \/
       (m = 2 ^ prec /\ Z.pos p = 2 ^ (prec - 1) /\ ef = e + 1))
  | S754_infinity false =>
      0 < m /\ emax - prec < (if m <? 2 ^ prec then e else e + 1)
  | _ => False
  end.

(** [r] is the exact value [v], not negative, rounded to nearest, ties to
    even. *)
Definition rounded (v : R) (r : spec_float) : Prop :=
  exists m e, rounds_to v m e /\ packs m e r.

(** The number a rounding packs: the mantissa back under [2 ^ prec]. *)
Definition normal_m (m : Z) : Z := if m <? 2 ^ prec then m else 2 ^ (prec - 1).
Definition normal_e (m e : Z) : Z := if m <? 2 ^ prec then e else e + 1.

(** A float of the format that is finite and not negative. *)
Definition nnfin (x : spec_float) : Prop :=
  match x with
  | S754_zero _ => True
  | S754_finite false m e => bounded prec emax m e = true
  | _ => False
  end.

End RoundingDefs.

(** The real number a float stands for (0 for infinities and NaN). *)
Definition SF2R (x : spec_float) : R :=
  match x with
  | S754_finite s m e => ((if s then - IZR (Z.pos m) else IZR (Z.pos m)) * bpow e)%R
  | _ => 0%R
  end.

(** The value of a float, for the floats that have one. *)
Definition B2R (x : float) : R := SF2R (Prim2SF x).

(** A binary64 float that is finite and not negative. *)
Definition fin64 (x : float) : Prop := nnfin prec emax (Prim2SF x).

(** [x] is the exact value [v] rounded to binary64. *)
Definition rnd64 (v : R) (x : float) : Prop := rounded prec emax v (Prim2SF x).

(** Not negative and not a NaN: a zero, a positive number or [+inf]. *)
Definition nn64 (x : float) : Prop :=
  match Prim2SF x with
  | S754_zero _ | S754_finite false _ _ | S754_infinity false => True
  | _ => False
  end.

(** A float between 0 and 1. *)
Definition in_unit (x : float) : Prop := fin64 x /\ (B2R x <= 1)%R.


(** ** The packer: generate_picklists.py *)

Definition PICKLIST_UNIT_CAP : Z := 2000.
Definition OUTPUT_DIR : string := "/kaggle/working/picklists".

(** What the run can raise: the [assert] of the fill loop, and [int()] on a
    quotient that is infinite or not a number. *)
Inductive exn := AssertionError | ConversionError.

(** How a run ends.  [OutOfFuel] stands for a loop that is still running
    when the fuel of the model is spent; every result carries the state
    reached. *)
Inductive outcome (S : Type) :=
| Done (s : S)
| Raised (e : exn) (s : S)
| OutOfFuel (s : S).
Arguments Done {S} s.
Arguments Raised {S} e s.
Arguments OutOfFuel {S} s.

Definition final {S : Type} (o : outcome S) : S :=
  match o with Done s | Raised _ s | OutOfFuel s => s end.

Definition finished {S : Type} (o : outcome S) : bool :=
  match o with OutOfFuel _ => false | _ => true end.


Section Packer.
Context {F : Type} `{FloatOps F}.

Definition PICKLIST_WEIGHT_CAP : F := f_dec 200 0.
Definition FRAGILE_WEIGHT_CAP : F := f_dec 50 0.

(** A record of the normalized frame ([group.to_dict("records")]). *)
Record Row := {
  _order : string;
  _store : string;
  _sku : string;
  _qty : Z;
  _zone : string;
  _bin : string;
  _binrank : string;
  _priority : Z;
  _weight : F;
  _fragile : bool;
  _cutoff : Z
}.

(** A line of a picklist file (the dict appended to [items]). *)
Record PickLine := {
  sku : string;
  order_id : string;
  store : string;
  bin : string;
  bin_rank : string;
  qty : Z;
  unit_weight : F;
  fragile : bool
}.

(** A row of Summary.csv. *)
Record SummaryRow := {
  picklist_file : string;
  zone : string;
  picklist_no : Z;
  picklist_type : string;
  total_units : Z;
  total_weight : F;
  distinct_orders : Z;
  distinct_bins : Z
}.

(** The variables the closures share: the open bin of [process_zone]
    ([cur_units] to [pl_no]), the accumulators of [generate_picklists]
    ([summary], [total_picklists]), the files written under [OUTPUT_DIR] in
    the order of the writes, and the number of calls made to
    [datetime.now()]. *)
Record State := {
  cur_units : Z;
  cur_weight : F;
  items : list PickLine;
  orders : gset string;
  bins : gset string;
  pl_no : Z;
  summary : list SummaryRow;
  total_picklists : Z;
  written : list (string * list PickLine);
  clock : nat
}.

Definition cap_weight_of (fragile : bool) : F :=
  if fragile then FRAGILE_WEIGHT_CAP else PICKLIST_WEIGHT_CAP.

Definition type_of (fragile : bool) : string :=
  if fragile then "fragile" else "normal".

Section Zone.
(** [now n] is the date [datetime.now().date()] prints at its [n]-th call. *)
Variable now : nat -> string.
Variables (zone_ : string) (fragile_ : bool).

Definition file_name (date : string) (n : Z) : string :=
  date +:+ "_ZONE_" +:+ zone_ +:+ "_PL" +:+ pretty n +:+ ".csv".

Definition flush (s : State) : State :=
  match items s with
  | [] => s
  | _ :: _ =>
      let pl_no' := pl_no s + 1 in
      let fname := file_name (now (clock s)) pl_no' in
      {| cur_units := 0;
         cur_weight := f_dec 0 0;
         items := [];
         orders := ∅;
         bins := ∅;
         pl_no := pl_no';
         summary := summary s ++
           [{| picklist_file := fname;
               zone := zone_;
               picklist_no := pl_no';
               picklist_type := type_of fragile_;
               total_units := cur_units s;
               total_weight := cur_weight s;
               distinct_orders := Z.of_nat (size (orders s));
               distinct_bins := Z.of_nat (size (bins s)) |}];
         total_picklists := total_picklists s + 1;
         written := written s ++ [(OUTPUT_DIR +:+ "/" +:+ fname, items s)];
         clock := S (clock s) |}
  end.

(** The body of the fill loop from [items.append] to [remaining -= take],
    on the state. *)
Definition add_line (row : Row) (take : Z) (s : State) : State :=
  {| cur_units := cur_units s + take;
     cur_weight := fadd (cur_weight s) (fmul (f_of_int take) (_weight row));
     items := items s ++
       [{| sku := _sku row;
           order_id := _order row;
           store := _store row;
           bin := _bin row;
           bin_rank := _binrank row;
           qty := take;
           unit_weight := _weight row;
           fragile := _fragile row |}];
     orders := orders s ∪ {[ _order row ]};
     bins := bins s ∪ {[ _bin row ]};
     pl_no := pl_no s;
     summary := summary s;
     total_picklists := total_picklists s;
     written := written s;
     clock := clock s |}.

Definition cap_units : Z := PICKLIST_UNIT_CAP.
Definition cap_weight : F := cap_weight_of fragile_.

(** [max_by_weight]; [None] when [int()] raises. *)
Definition max_by_weight (row : Row) (remaining : Z) (s : State) : option Z :=
  if fltb (f_of_int 0) (_weight row)
  then f_to_int (fdiv (fsub cap_weight (cur_weight s)) (_weight row))
  else Some remaining.

(** [while remaining > 0: ...] for one row; one unit of fuel per iteration. *)
Fixpoint fill (fuel : nat) (row : Row) (remaining : Z) (s : State) : outcome State :=
  if remaining <=? 0 then Done s else
  match fuel with
  | O => OutOfFuel s
  | S fuel' =>
      let available_units := cap_units - cur_units s in
      let available_weight := fsub cap_weight (cur_weight s) in
      if (available_units <=? 0) || fleb available_weight (f_of_int 0)
      then fill fuel' row remaining (flush s)
      else
        match max_by_weight row remaining s with
        | None => Raised ConversionError s
        | Some mbw =>
            let take := Z.min (Z.min remaining available_units) mbw in
            if take <=? 0 then fill fuel' row remaining (flush s)
            else
              let s' := add_line row take s in
              if fleb (cur_weight s') (fadd cap_weight (f_dec 1 (-6)))
              then fill fuel' row (remaining - take) s'
              else Raised AssertionError s'
        end
  end.

(** [for row in group.to_dict("records"): ...] *)
Fixpoint fill_rows (fuel : nat) (group : list Row) (s : State) : outcome State :=
  match group with
  | [] => Done s
  | row :: rest =>
      match fill fuel row (_qty row) s with
      | Done s' => fill_rows fuel rest s'
      | o => o
      end
  end.

(** The locals of [process_zone] at its entry. *)
Definition enter (s : State) : State :=
  {| cur_units := 0;
     cur_weight := f_dec 0 0;
     items := [];
     orders := ∅;
     bins := ∅;
     pl_no := 0;
     summary := summary s;
     total_picklists := total_picklists s;
     written := written s;
     clock := clock s |}.

Definition process_zone (fuel : nat) (group : list Row) (s : State) : outcome State :=
  match fill_rows fuel group (enter s) with
  | Done s' => Done (flush s')
  | o => o
  end.

End Zone.

(** *** Sorting and grouping the frame *)

(** The composite key of [sort_values(by=["_cutoff", "_priority", "_order"])],
    compared lexicographically; [_order] holds strings. *)
Definition key_compare (a b : Row) : comparison :=
  match _cutoff a ?= _cutoff b with
  | Eq =>
      match _priority a ?= _priority b with
      | Eq => String.compare (_order a) (_order b)
      | c => c
      end
  | c => c
  end.

Definition key_leb (a b : Row) : bool :=
  match key_compare a b with Gt => false | _ => true end.

Definition key_eqb (a b : Row) : bool :=
  match key_compare a b with Eq => true | _ => false end.

(** [DataFrame.sort_values] on several columns is pandas' lexsort: a stable
    sort on the composite key.  It is modelled by a stable insertion sort:
    a row goes in front of the first row whose key is not smaller. *)
Fixpoint insert_row (r : Row) (l : list Row) : list Row :=
  match l with
  | [] => [r]
  | x :: t => if key_leb r x then r :: l else x :: insert_row r t
  end.

Definition sort_values (df : list Row) : list Row := foldr insert_row [] df.

(** The keys of [groupby("_zone")]: the zones that occur, in ascending
    order, each once. *)
Fixpoint insert_key (z : string) (l : list string) : list string :=
  match l with
  | [] => [z]
  | x :: t =>
      match String.compare z x with
      | Lt => z :: l
      | Eq => l
      | Gt => x :: insert_key z t
      end
  end.

Definition zone_keys (df : list Row) : list string :=
  foldr insert_key [] (_zone <$> df).

(** [df.groupby("_zone")]: for each key the rows of that zone, in the
    order of the frame. *)
Definition groupby_zone (df : list Row) : list (string * list Row) :=
  (fun z => (z, filter (fun r => _zone r = z) df)) <$> zone_keys df.

(** [for zone, g in ...groupby("_zone"): process_zone(g, zone, fragile)] *)
Fixpoint for_zones (now : nat -> string) (fragile_ : bool) (fuel : nat)
    (groups : list (string * list Row)) (s : State) : outcome State :=
  match groups with
  | [] => Done s
  | (z, g) :: rest =>
      match process_zone now z fragile_ fuel g s with
      | Done s' => for_zones now fragile_ fuel rest s'
      | o => o
      end
  end.

(** The state in which [generate_picklists] starts: [summary = []],
    [total_picklists = 0], nothing written. *)
Definition initial : State :=
  {| cur_units := 0;
     cur_weight := f_dec 0 0;
     items := [];
     orders := ∅;
     bins := ∅;
     pl_no := 0;
     summary := [];
     total_picklists := 0;
     written := [];
     clock := O |}.

(** [generate_picklists(df)].  On [Done s], [summary s] is what goes to
    Summary.csv and [total_picklists s] what is printed. *)
Definition generate_picklists (now : nat -> string) (fuel : nat)
    (df : list Row) : outcome State :=
  let df := sort_values df in
  let fragile_df := filter (fun r => _fragile r = true) df in
  let normal_df := filter (fun r => _fragile r = false) df in
  match for_zones now false fuel (groupby_zone normal_df) initial with
  | Done s => for_zones now true fuel (groupby_zone fragile_df) s
  | o => o
  end.

End Packer.
Arguments Row F : clear implicits.
Arguments PickLine F : clear implicits.
Arguments SummaryRow F : clear implicits.
Arguments State F : clear implicits.

(** *** Resolving the columns of the input *)

Section Columns.
(** [str.lower], a function of the Python library. *)
Variable lower : string -> string.

(** [{c.lower(): c for c in df.columns}]: the columns by their lower-case
    names; of two columns with one lower-case name the later one stays. *)
Definition cols_lower (columns : list string) : gmap string string :=
  foldl (fun m c => <[lower c := c]> m) ∅ columns.

(** [find_col(cols_lower, candidates)] *)
Fixpoint find_col (cols_lower : gmap string string) (candidates : list string)
    : option string :=
  match candidates with
  | [] => None
  | c :: rest =>
      match cols_lower !! lower c with
      | Some col => Some col
      | None => find_col cols_lower rest
      end
  end.

(** The columns [read_and_normalize] looks for. *)
Record Columns := {
  col_order : option string;
  col_store : option string;
  col_sku : option string;
  col_qty : option string;
  col_zone : option string;
  col_bin : option string;
  col_binrank : option string;
  col_priority : option string;
  col_weight : option string;
  col_fragile : option string;
  col_cutoff : option string
}.

(** The eleven lookups at the head of [read_and_normalize]. *)
Definition resolve_columns (columns : list string) : Columns :=
  let m := cols_lower columns in
  {| col_order := find_col m ["order_id"; "order"];
     col_store := find_col m ["store_id"; "store"; "pod"];
     col_sku := find_col m ["sku"; "product"];
     col_qty := find_col m ["order_qty"; "qty"; "quantity"];
     col_zone := find_col m ["zone"];
     col_bin := find_col m ["bin"; "location"];
     col_binrank := find_col m ["bin_rank"; "rank"];
     col_priority := find_col m ["priority"; "pod_priority"];
     col_weight := find_col m ["weight"; "weight_in_grams"];
     col_fragile := find_col m ["fragile"; "is_fragile"];
     col_cutoff := find_col m ["cutoff"; "order_date"] |}.

Definition resolved (c : Columns) : list (option string) :=
  [ col_order c; col_store c; col_sku c; col_qty c; col_zone c; col_bin c;
    col_binrank c; col_priority c; col_weight c; col_fragile c; col_cutoff c ].

End Columns.

(** ** The reporter: evaluation.py *)

Section Reporter.
Context {F : Type} `{FloatOps F}.

(** A float that is a sum of the values of [l]: the values added in some
    order and with some bracketing, from [0.0] or from the first value.
    Pandas leaves the order to numpy (pairwise, in blocks) or to bottleneck
    (from left to right), whichever is installed. *)
Inductive sums : list F -> F -> Prop :=
| sums_nil : sums [] (f_dec 0 0)
| sums_one x : sums [x] x
| sums_app l1 l2 a b : sums l1 a -> sums l2 b -> sums (l1 ++ l2) (fadd a b)
| sums_perm l l' a : Permutation l l' -> sums l a -> sums l' a.

(** [Series.sum()], whatever the order of its additions. *)
Variable fsum : list F -> F.

(** The sum from left to right, starting from [0.0]. *)
Definition sum_left (l : list F) : F := foldl fadd (f_dec 0 0) l.

(** [Series.mean()] of a float column without missing values: the sum over
    the count. *)
Definition mean (l : list F) : F :=
  fdiv (fsum l) (f_of_int (Z.of_nat (length l))).

(** [np.clip(x, lo, hi)] *)
Definition clip (x lo hi : F) : F :=
  if fltb x lo then lo else if fltb hi x then hi else x.

(** Step 0: weights that look like grams are converted to kilograms. *)
Definition sanity_check (df : list (SummaryRow F)) : list (SummaryRow F) :=
  if fltb (f_of_int 1000) (mean (total_weight <$> df))
  then (fun r =>
          {| picklist_file := picklist_file r; zone := zone r;
             picklist_no := picklist_no r; picklist_type := picklist_type r;
             total_units := total_units r;
             total_weight := fdiv (total_weight r) (f_dec 1000 0);
             distinct_orders := distinct_orders r;
             distinct_bins := distinct_bins r |}) <$> df
  else df.

Definition weight_cap (row : SummaryRow F) : F :=
  if String.eqb (picklist_type row) "fragile"
  then FRAGILE_WEIGHT_CAP else PICKLIST_WEIGHT_CAP.

Definition unit_violation (row : SummaryRow F) : bool :=
  PICKLIST_UNIT_CAP <? total_units row.

Definition weight_violation (row : SummaryRow F) : bool :=
  fltb (weight_cap row) (total_weight row).

Definition total_violations (df : list (SummaryRow F)) : Z :=
  Z.of_nat (length (List.filter (fun r => unit_violation r || weight_violation r) df)).

Definition violation_rate (df : list (SummaryRow F)) : F :=
  let total_pl := Z.of_nat (length df) in
  if 0 <? total_pl
  then fmul (fdiv (f_of_int (total_violations df)) (f_of_int total_pl)) (f_of_int 100)
  else f_dec 0 0.

Definition effective_weight (row : SummaryRow F) : F :=
  if fleb (total_weight row) (weight_cap row) then total_weight row else weight_cap row.

Definition unit_util_pct (row : SummaryRow F) : F :=
  fmul (fdiv (f_of_int (total_units row)) (f_of_int PICKLIST_UNIT_CAP)) (f_of_int 100).

Definition weight_util_pct (row : SummaryRow F) : F :=
  fmul (fdiv (effective_weight row) (weight_cap row)) (f_of_int 100).

Definition avg_orders (df : list (SummaryRow F)) : F :=
  mean ((fun r => f_of_int (distinct_orders r)) <$> df).

(** Step 8: one picklist per order as the baseline. *)
Definition baseline_picklists (df : list (SummaryRow F)) : Z :=
  foldr (fun r acc => distinct_orders r + acc) 0 df.

Definition reduction_pct (df : list (SummaryRow F)) : F :=
  let total_pl := Z.of_nat (length df) in
  let baseline := baseline_picklists df in
  if 0 <? baseline
  then fmul (fdiv (f_of_int (baseline - total_pl)) (f_of_int baseline)) (f_of_int 100)
  else f_dec 0 0.

(** Step 9: violations of one cap only. *)
Definition unit_dominated (df : list (SummaryRow F)) : Z :=
  Z.of_nat (length (List.filter (fun r => unit_violation r && negb (weight_violation r)) df)).

Definition weight_dominated (df : list (SummaryRow F)) : Z :=
  Z.of_nat (length (List.filter (fun r => weight_violation r && negb (unit_violation r)) df)).

(** The dict [evaluate_picklists] returns. *)
Record Metrics := {
  m_total_picklists : Z;
  avg_unit_util : F;
  avg_weight_util : F;
  m_violation_rate : F;
  picklist_reduction_pct : F;
  PQS : F
}.

(** Step 10, the composite score, from the four quantities it reads. *)
Definition quality_score (avg_unit_util avg_weight_util avg_orders violation_rate : F) : F :=
  let unit_eff := clip (fdiv avg_unit_util (f_dec 100 0)) (f_dec 0 0) (f_dec 1 0) in
  let weight_eff := clip (fdiv avg_weight_util (f_dec 100 0)) (f_dec 0 0) (f_dec 1 0) in
  let order_eff := clip (fdiv avg_orders (f_dec 20 0)) (f_dec 0 0) (f_dec 1 0) in
  let correctness := fsub (f_dec 1 0) (fdiv violation_rate (f_dec 100 0)) in
  fadd (fadd (fadd (fmul (f_dec 4 (-1)) unit_eff)
                   (fmul (f_dec 3 (-1)) weight_eff))
             (fmul (f_dec 2 (-1)) order_eff))
       (fmul (f_dec 1 (-1)) correctness).

(** [evaluate_picklists] on the frame read from Summary.csv. *)
Definition evaluate_picklists (summary_csv : list (SummaryRow F)) : Metrics :=
  let df := sanity_check summary_csv in
  let rate := violation_rate df in
  let uu := mean (unit_util_pct <$> df) in
  let wu := mean (weight_util_pct <$> df) in
  {| m_total_picklists := Z.of_nat (length df);
     avg_unit_util := uu;
     avg_weight_util := wu;
     m_violation_rate := rate;
     picklist_reduction_pct := reduction_pct df;
     PQS := quality_score uu wu (avg_orders df) rate |}.

End Reporter.
Arguments Metrics F : clear implicits.

(** ** What the properties speak about *)

Section Observations.
Context {F : Type} `{FloatOps F}.

(** Units of a picklist: the sum of [qty] over its lines. *)
Definition sum_qty (lines : list (PickLine F)) : Z :=
  foldr (fun p acc => qty p + acc) 0 lines.

(** Weight of a picklist: [qty * unit_weight] summed in the order of the
    lines, from [0.0], in the float arithmetic of the program. *)
Definition sum_weight (lines : list (PickLine F)) : F :=
  foldl (fun acc p => fadd acc (fmul (f_of_int (qty p)) (unit_weight p)))
        (f_dec 0 0) lines.

(** Number of distinct values of a column. *)
Definition distinct (l : list string) : nat := length (remove_dups l).

(** Every line packed so far: those of the files written, then those of
    the open bin. *)
Definition all_lines (s : State F) : list (PickLine F) :=
  concat (snd <$> written s) ++ items s.

(** A line carries the fields of the row it was taken from. *)
Definition derived_from (row : Row F) (p : PickLine F) : Prop :=
  sku p = _sku row /\ order_id p = _order row /\ store p = _store row /\
  bin p = _bin row /\ bin_rank p = _binrank row /\
  unit_weight p = _weight row /\ fragile p = _fragile row.

(** The capacity bounds of a summary row; the weight cap is that of the
    row's type, the comparison is Python's [<=] on floats. *)
Definition within_caps (r : SummaryRow F) : Prop :=
  total_units r <= PICKLIST_UNIT_CAP /\
  fleb (total_weight r) (fadd (weight_cap r) (f_dec 1 (-6))) = true.

(** A summary row agrees with the lines of its picklist. *)
Definition consistent (r : SummaryRow F) (lines : list (PickLine F)) : Prop :=
  total_units r = sum_qty lines /\
  total_weight r = sum_weight lines /\
  distinct_orders r = Z.of_nat (distinct (order_id <$> lines)) /\
  distinct_bins r = Z.of_nat (distinct (bin <$> lines)).

Definition positive_lines (lines : list (PickLine F)) : Prop :=
  Forall (fun p => 0 < qty p) lines.

(** A summary row and the file written with it. *)
Definition emitted_ok (r : SummaryRow F) (f : string * list (PickLine F)) : Prop :=
  f.1 = OUTPUT_DIR +:+ "/" +:+ picklist_file r /\
  within_caps r /\ consistent r f.2 /\ f.2 <> [] /\ positive_lines f.2.

(** What a stretch of the run from [s0] to [s] has emitted: rows appended
    to the summary and files written, pairwise. *)
Definition emitted_since (s0 s : State F)
    (rows : list (SummaryRow F)) (files : list (string * list (PickLine F))) : Prop :=
  summary s = summary s0 ++ rows /\ written s = written s0 ++ files.

(** Everything emitted from [s0] to [s] is in order. *)
Definition run_ok (s0 s : State F) : Prop :=
  exists rows files, emitted_since s0 s rows files /\ Forall2 emitted_ok rows files.

(** The open bin agrees with its lines and is within the caps. *)
Definition open_bin_ok (fragile_ : bool) (s : State F) : Prop :=
  cur_units s = sum_qty (items s) /\
  cur_weight s = sum_weight (items s) /\
  orders s = list_to_set (order_id <$> items s) /\
  bins s = list_to_set (bin <$> items s) /\
  cur_units s <= PICKLIST_UNIT_CAP /\
  positive_lines (items s) /\
  (items s = [] \/
   fleb (cur_weight s) (fadd (cap_weight_of fragile_) (f_dec 1 (-6))) = true).

(** One iteration of the loop flushes and retries: the guard on the space
    left holds, or nothing of the row fits ([take <= 0]). *)
Definition retries (fragile_ : bool) (row : Row F) (remaining : Z) (s : State F) : Prop :=
  (cap_units - cur_units s <=? 0) ||
    fleb (fsub (cap_weight fragile_) (cur_weight s)) (f_of_int 0) = true \/
  exists mbw, max_by_weight fragile_ row remaining s = Some mbw /\
              Z.min (Z.min remaining (cap_units - cur_units s)) mbw <= 0.

(** An empty open bin is a fresh one. *)
Definition fresh_if_empty (s : State F) : Prop :=
  items s = [] -> cur_units s = 0 /\ cur_weight s = f_dec 0 0.

(** A unit of the row fits in an empty bin of its group: if it has a
    positive weight, it weighs no more than the weight cap (comparisons as
    the program makes them). *)
Definition fits_alone (fragile_ : bool) (row : Row F) : Prop :=
  fltb (f_of_int 0) (_weight row) = true ->
  fleb (_weight row) (cap_weight_of fragile_) = true.

(** A row the packer can pack: nothing to pack, or a unit fits alone. *)
Definition packable (fragile_ : bool) (row : Row F) : Prop :=
  0 < _qty row -> fits_alone fragile_ row.

(** Iterations that are enough for the fill loop of every row of a frame:
    two per unit (a flush, then a take) and one more, for the largest
    row. *)
Definition enough_fuel (fuel : nat) (row : Row F) : Prop :=
  (2 * Z.to_nat (_qty row) + 1 <= fuel)%nat.

Definition fuel_for (df : list (Row F)) : nat :=
  foldr (fun r n => Nat.max (2 * Z.to_nat (_qty r) + 1) n) O df.

(** What the termination argument asks of the arithmetic: a fresh bin has
    room ([cap - 0.0 > 0]), and at least one unit that fits alone fits
    in it ([int((cap - 0.0) / w) >= 1], unless [int] raises). *)
Definition fresh_bin_laws : Prop :=
  forall fragile_ : bool,
    fleb (fsub (cap_weight_of fragile_) (f_dec 0 0)) (f_of_int 0) = false /\
    forall w : F,
      fltb (f_of_int 0) w = true -> fleb w (cap_weight_of fragile_) = true ->
      match f_to_int (fdiv (fsub (cap_weight_of fragile_) (f_dec 0 0)) w) with
      | Some k => 1 <= k
      | None => True
      end.

(** The summary row and the file a flush of a bin that holds lines emits. *)
Definition flushed_row (now : nat -> string) (zone_ : string) (fragile_ : bool)
    (s : State F) : SummaryRow F :=
  {| picklist_file := file_name zone_ (now (clock s)) (pl_no s + 1);
     zone := zone_;
     picklist_no := pl_no s + 1;
     picklist_type := type_of fragile_;
     total_units := cur_units s;
     total_weight := cur_weight s;
     distinct_orders := Z.of_nat (size (orders s));
     distinct_bins := Z.of_nat (size (bins s)) |}.

Definition flushed_file (now : nat -> string) (zone_ : string)
    (s : State F) : string * list (PickLine F) :=
  (OUTPUT_DIR +:+ "/" +:+ file_name zone_ (now (clock s)) (pl_no s + 1), items s).

(** Rows numbered 1, 2, ... that carry the zone and the type of a call of
    [process_zone]. *)
Definition numbered (zone_ : string) (fragile_ : bool) (rows : list (SummaryRow F)) : Prop :=
  picklist_no <$> rows = seqZ 1 (Z.of_nat (length rows)) /\
  Forall (fun r => zone r = zone_ /\ picklist_type r = type_of fragile_) rows.

(** Every line comes from a row of the group. *)
Definition lines_from (group : list (Row F)) (lines : list (PickLine F)) : Prop :=
  Forall (fun p => exists row, row ∈ group /\ derived_from row p) lines.

(** Every pair of a row and a file emitted from [s0] to [s] is in [Q]. *)
Definition emitted_with (Q : SummaryRow F -> string * list (PickLine F) -> Prop)
    (s0 s : State F) : Prop :=
  exists rows files, emitted_since s0 s rows files /\ Forall2 Q rows files.

(** No cross-contamination: every line of the picklist comes from a row of
    the frame that has the zone and the fragility class of the picklist. *)
Definition uncontaminated (df : list (Row F))
    (r : SummaryRow F) (f : string * list (PickLine F)) : Prop :=
  Forall (fun p => exists row,
            row ∈ df /\ derived_from row p /\
            _zone row = zone r /\ type_of (_fragile row) = picklist_type r) f.2.

(** The file name of every row is made of the date read at its flush, its
    zone and its number; the type of the picklist is not in it.  [k0] is
    the number of dates read before the first of the rows. *)
Definition named_by (now : nat -> string) (k0 : nat) (rows : list (SummaryRow F)) : Prop :=
  picklist_file <$> rows =
  imap (fun k r => file_name (zone r) (now (k0 + k)%nat) (picklist_no r)) rows.

(** The units a frame asks for: a row of quantity [<= 0] asks for none. *)
Definition units_asked (df : list (Row F)) : Z :=
  foldr (fun r acc => Z.max 0 (_qty r) + acc) 0 df.

Definition units_emitted (rows : list (SummaryRow F)) : Z :=
  foldr (fun r acc => total_units r + acc) 0 rows.

(** The lines of a row, in line order: they carry its fields and add up to
    its quantity. *)
Definition pieces_of (row : Row F) (ps : list (PickLine F)) : Prop :=
  Forall (derived_from row) ps /\ sum_qty ps = Z.max 0 (_qty row).

(** The rows of positive quantity. *)
Definition to_pack (group : list (Row F)) : list (Row F) :=
  filter (fun r => 0 < _qty r) group.

(** The summary is ordered: the normal picklists, then the fragile ones,
    each block by zone in ascending order. *)
Definition by_type_then_zone (rows : list (SummaryRow F)) : Prop :=
  exists normal fragile,
    rows = normal ++ fragile /\
    Forall (fun r => picklist_type r = "normal") normal /\
    Forall (fun r => picklist_type r = "fragile") fragile /\
    StronglySorted String.le (zone <$> normal) /\
    StronglySorted String.le (zone <$> fragile).

(** The run so far, without the dates: file names and the [picklist_file]
    column blanked. *)
Definition undated_row (r : SummaryRow F) : SummaryRow F :=
  {| picklist_file := ""; zone := zone r; picklist_no := picklist_no r;
     picklist_type := picklist_type r; total_units := total_units r;
     total_weight := total_weight r; distinct_orders := distinct_orders r;
     distinct_bins := distinct_bins r |}.

Definition undated (s : State F) : State F :=
  {| cur_units := cur_units s; cur_weight := cur_weight s; items := items s;
     orders := orders s; bins := bins s; pl_no := pl_no s;
     summary := undated_row <$> summary s;
     total_picklists := total_picklists s;
     written := (fun f => ("", f.2)) <$> written s;
     clock := clock s |}.

Definition map_outcome {S T : Type} (f : S -> T) (o : outcome S) : outcome T :=
  match o with
  | Done s => Done (f s)
  | Raised e s => Raised e (f s)
  | OutOfFuel s => OutOfFuel (f s)
  end.

(** A picklist that, by the tests of the fill loop, takes no unit of unit
    weight [w]: it has reached the unit cap, or the weight it has left is
    not positive ([cap - total_weight <= 0]), or less than one unit fits in
    the weight left ([int((cap - total_weight) / w) <= 0]). *)
Definition sealed_for (r : SummaryRow F) (w : F) : Prop :=
  PICKLIST_UNIT_CAP <= total_units r \/
  fleb (fsub (weight_cap r) (total_weight r)) (f_of_int 0) = true \/
  (fltb (f_of_int 0) w = true /\
   exists k, f_to_int (fdiv (fsub (weight_cap r) (total_weight r)) w) = Some k /\
             k <= 0).

(** The picklist is sealed for the first of the lines that come next. *)
Definition tight (r : SummaryRow F) (next : list (PickLine F)) : Prop :=
  match next with
  | [] => True
  | p :: _ => sealed_for r (unit_weight p)
  end.

(** Every picklist is sealed for the first line of the picklist written
    after it. *)
Definition greedy (rows : list (SummaryRow F))
    (files : list (string * list (PickLine F))) : Prop :=
  forall i r f, rows !! i = Some r -> files !! S i = Some f -> tight r f.2.

(** The same up to the open bin. *)
Definition chain_ok (rows : list (SummaryRow F))
    (files : list (string * list (PickLine F))) (s : State F) : Prop :=
  length rows = length files /\ greedy rows files /\
  forall r, last rows = Some r -> tight r (items s).

(** While a row of weight [w] is in the loop, an empty bin follows a
    picklist sealed for [w]. *)
Definition pending (w : F) (rows : list (SummaryRow F)) (s : State F) : Prop :=
  items s = [] -> forall r, last rows = Some r -> sealed_for r w.

End Observations.


(** ** Sample inputs *)

Section Samples.
Context {F : Type} `{FloatOps F}.

(** A row of order [o], quantity [q], zone [z], unit weight [w] kg. *)
Definition sample_row (o : string) (q : Z) (z : string) (w : F) (fr : bool) : Row F :=
  {| _order := o; _store := "S1"; _sku := "SKU1"; _qty := q; _zone := z;
     _bin := "B1"; _binrank := "1"; _priority := 1; _weight := w;
     _fragile := fr; _cutoff := 0 |}.

(** One fragile unit of 60 kg: heavier than the fragile cap of 50 kg. *)
Definition heavy_fragile : Row F := sample_row "O1" 1 "A" (f_dec 60 0) true.

(** One normal unit of 250 kg: heavier than the normal cap of 200 kg. *)
Definition heavy_normal : Row F := sample_row "O1" 1 "A" (f_dec 250 0) false.

(** 2500 units of 0.1 kg: more than the unit cap. *)
Definition bulk_line : Row F := sample_row "O1" 2500 "A" (f_dec 1 (-1)) false.

(** The same, then two single units: more than one picklist. *)
Definition bulk_order : list (Row F) :=
  [ bulk_line;
    sample_row "O2" 1 "A" (f_dec 1 (-1)) false;
    sample_row "O3" 1 "A" (f_dec 1 (-1)) false ].

(** A normal and a fragile row of one zone. *)
Definition mixed_zone : list (Row F) :=
  [ sample_row "O1" 3 "A" (f_dec 1 (-1)) false;
    sample_row "O2" 2 "A" (f_dec 1 (-1)) true ].

Definition empty_line : Row F := sample_row "O4" 0 "A" (f_dec 1 (-1)) false.

(** A line of negative quantity, in another zone. *)
Definition returned_line : Row F := sample_row "O5" (-2) "B" (f_dec 1 (-1)) false.

(** Two zones, both types, and lines of quantity zero and below. *)
Definition mixed_frame : list (Row F) := mixed_zone ++ [returned_line; empty_line].

(** A summary of two picklists, one of them over the unit cap. *)
Definition sample_summary : list (SummaryRow F) :=
  [ {| picklist_file := "d_ZONE_A_PL1.csv"; zone := "A"; picklist_no := 1;
       picklist_type := "normal"; total_units := 2000; total_weight := f_dec 200 0;
       distinct_orders := 1; distinct_bins := 1 |};
    {| picklist_file := "d_ZONE_A_PL1.csv"; zone := "A"; picklist_no := 1;
       picklist_type := "fragile"; total_units := 2400; total_weight := f_dec 12 0;
       distinct_orders := 30; distinct_bins := 4 |} ].

End Samples.

(** Two clocks: a run on one day, a run on the next. *)
Definition first_day (n : nat) : string := "2024-01-01".
Definition next_day (n : nat) : string := "2024-01-02".

(** ** The order of the frame *)

Section SortFacts.
Context {F : Type} `{FloatOps F}.
Implicit Types (a b c r : Row F) (df l : list (Row F)).

Lemma string_compare_refl (x : string) : String.compare x x = Eq.
Proof.
  induction x as [|c x IH]; simpl; [reflexivity|].
  unfold Ascii.compare. rewrite N.compare_refl. exact IH.
Qed.

(** The composite order, spelled out. *)
Lemma key_leb_spec a b :
  key_leb a b = true <->
  (_cutoff a < _cutoff b \/
   (_cutoff a = _cutoff b /\
    (_priority a < _priority b \/
     (_priority a = _priority b /\ String.le (_order a) (_order b))))).
Proof.
  unfold key_leb, key_compare, String.le, String.leb.
  destruct (Z.compare_spec (_cutoff a) (_cutoff b));
    destruct (Z.compare_spec (_priority a) (_priority b));
    destruct (String.compare (_order a) (_order b)); simpl;
    split; intros Hx; try reflexivity; try discriminate; try lia; try tauto;
    intuition (try lia; try discriminate; try contradiction).
Qed.

Lemma key_compare_eq a b :
  key_compare a b = Eq <->
  _cutoff a = _cutoff b /\ _priority a = _priority b /\ _order a = _order b.
Proof.
  unfold key_compare.
  destruct (Z.compare_spec (_cutoff a) (_cutoff b));
    destruct (Z.compare_spec (_priority a) (_priority b));
    split; intros Hx; try discriminate;
    try (apply String.compare_eq_iff in Hx; tauto);
    destruct Hx as (? & ? & Ho); try lia.
  rewrite Ho. apply string_compare_refl.
Qed.

Lemma key_leb_refl a : key_leb a a = true.
Proof.
  apply key_leb_spec. right. split; [reflexivity|]. right. split; reflexivity.
Qed.

Lemma key_leb_total a b : key_leb a b = false -> key_leb b a = true.
Proof.
  intros Hab. apply key_leb_spec.
  assert (Hn : ~ key_leb a b = true) by (rewrite Hab; discriminate).
  rewrite key_leb_spec in Hn.
  destruct (total String.le (_order a) (_order b)) as [Ho|Ho].
  - destruct (Z.lt_trichotomy (_cutoff a) (_cutoff b)) as [?|[?|?]];
      destruct (Z.lt_trichotomy (_priority a) (_priority b)) as [?|[?|?]];
      try tauto; try lia; intuition (try lia).
  - destruct (Z.lt_trichotomy (_cutoff a) (_cutoff b)) as [?|[?|?]];
      destruct (Z.lt_trichotomy (_priority a) (_priority b)) as [?|[?|?]];
      try tauto; try lia; intuition (try lia).
Qed.

Lemma key_leb_trans a b c :
  key_leb a b = true -> key_leb b c = true -> key_leb a c = true.
Proof.
  rewrite !key_leb_spec. intros Hab Hbc.
  assert (Ht : String.le (_order a) (_order b) -> String.le (_order b) (_order c) ->
               String.le (_order a) (_order c)) by (intros; etrans; eassumption).
  intuition (try lia).
Qed.

Lemma key_eqb_leb k r x :
  key_eqb k r = true -> key_eqb k x = true -> key_leb r x = true.
Proof.
  unfold key_eqb. intros Hr Hx.
  destruct (key_compare k r) eqn:Ekr; try discriminate.
  destruct (key_compare k x) eqn:Ekx; try discriminate.
  apply key_compare_eq in Ekr, Ekx.
  apply key_leb_spec. right. split; [lia|]. right. split; [lia|].
  destruct Ekr as (_ & _ & <-), Ekx as (_ & _ & <-). reflexivity.
Qed.

Lemma insert_row_perm r l : insert_row r l ≡ₚ r :: l.
Proof.
  induction l as [|x t IH]; simpl; [reflexivity|].
  destruct (key_leb r x); [reflexivity|].
  rewrite IH. apply perm_swap.
Qed.

Lemma sort_values_perm df : sort_values df ≡ₚ df.
Proof.
  induction df as [|r df IH]; simpl; [reflexivity|].
  rewrite insert_row_perm, IH. reflexivity.
Qed.

Lemma insert_row_sorted r l :
  StronglySorted (fun a b => key_leb a b = true) l ->
  StronglySorted (fun a b => key_leb a b = true) (insert_row r l).
Proof.
  induction 1 as [|x t Hs IH Hx]; simpl.
  - constructor; constructor.
  - destruct (key_leb r x) eqn:Hrx.
    + constructor; [constructor; assumption|].
      constructor; [exact Hrx|].
      eapply Forall_impl; [exact Hx|].
      intros y Hxy. simpl in Hxy. eapply key_leb_trans; eassumption.
    + constructor; [exact IH|].
      rewrite insert_row_perm. constructor; [|exact Hx].
      apply key_leb_total. exact Hrx.
Qed.

Lemma sort_values_sorted df :
  StronglySorted (fun a b => key_leb a b = true) (sort_values df).
Proof.
  induction df as [|r df IH]; simpl; [constructor|].
  apply insert_row_sorted. exact IH.
Qed.

(** Inserting a row does not move it past a row of equal key. *)
Lemma filter_insert_row k r l :
  filter (fun x => key_eqb k x) (insert_row r l) =
  filter (fun x => key_eqb k x) (r :: l).
Proof.
  induction l as [|x t IH]; simpl; [reflexivity|].
  destruct (key_leb r x) eqn:Hrx; [reflexivity|].
  rewrite (filter_cons _ x), IH, !filter_cons.
  destruct (decide (key_eqb k r)) as [Hr|Hr];
    destruct (decide (key_eqb k x)) as [Hx|Hx]; try reflexivity.
  apply Is_true_true in Hr, Hx.
  rewrite (key_eqb_leb k r x Hr Hx) in Hrx. discriminate.
Qed.

Lemma sort_values_stable k df :
  filter (fun x => key_eqb k x) (sort_values df) = filter (fun x => key_eqb k x) df.
Proof.
  induction df as [|r df IH]; simpl; [reflexivity|].
  rewrite filter_insert_row, !filter_cons, IH. reflexivity.
Qed.

Lemma sort_values_sorted_id l :
  StronglySorted (fun a b => key_leb a b = true) l -> sort_values l = l.
Proof.
  induction 1 as [|x t Hs IH Hx]; simpl; [reflexivity|].
  rewrite IH. destruct Hx as [|y t' Hxy _]; simpl; [reflexivity|].
  rewrite Hxy. reflexivity.
Qed.

Lemma groupby_zone_members fragile_ (df : list (Row F)) :
  Forall (fun zg : string * list (Row F) =>
            Forall (fun row => row ∈ df /\ _zone row = zg.1 /\ _fragile row = fragile_) zg.2)
         (groupby_zone (filter (fun r => _fragile r = fragile_) (sort_values df))).
Proof.
  unfold groupby_zone. apply Forall_fmap, Forall_forall. intros z _. simpl.
  apply Forall_forall. intros r Hr.
  apply list_elem_of_filter in Hr as [Hz Hr].
  apply list_elem_of_filter in Hr as [Hfr Hr].
  rewrite sort_values_perm in Hr. auto.
Qed.

End SortFacts.

Section SortProperties.
Context {F : Type} `{FloatOps F}.

(** C5 (ordering).  [sort_values] returns the rows of the frame (a
    permutation of them) in ascending order of the composite key (cutoff,
    then priority, then order id), and it is stable: for every key, the rows
    of that key come in the sorted frame in the order they have in the
    input.  [generate_picklists] partitions and packs the sorted frame:
    sorting the frame beforehand changes nothing. *)
Theorem sort_values_stable_sort (df : list (Row F)) :
  StronglySorted (fun a b => key_leb a b = true) (sort_values df) /\
  sort_values df ≡ₚ df /\
  (forall k : Row F,
     filter (fun x => key_eqb k x) (sort_values df) = filter (fun x => key_eqb k x) df) /\
  (forall now fuel,
     generate_picklists now fuel (sort_values df) = generate_picklists now fuel df).
Proof.
  split; [apply sort_values_sorted|].
  split; [apply sort_values_perm|].
  split; [intros k; apply sort_values_stable|].
  intros now fuel. unfold generate_picklists.
  rewrite (sort_values_sorted_id (sort_values df)) by apply sort_values_sorted.
  reflexivity.
Qed.

End SortProperties.

(** ** Facts about the packer, for every float arithmetic *)

Section PackerFacts.
Context {F : Type} `{FloatOps F}.
Implicit Types (s : State F) (row : Row F) (lines : list (PickLine F)).

Lemma sum_qty_snoc lines p : sum_qty (lines ++ [p]) = sum_qty lines + qty p.
Proof.
  induction lines as [|q lines IH]; simpl.
  - lia.
  - rewrite IH. lia.
Qed.

Lemma sum_qty_app lines1 lines2 :
  sum_qty (lines1 ++ lines2) = sum_qty lines1 + sum_qty lines2.
Proof.
  induction lines1 as [|q lines1 IH]; simpl; [reflexivity|].
  rewrite IH. lia.
Qed.

Lemma sum_weight_snoc lines p :
  sum_weight (lines ++ [p]) =
  fadd (sum_weight lines) (fmul (f_of_int (qty p)) (unit_weight p)).
Proof. unfold sum_weight. rewrite foldl_app. reflexivity. Qed.

Lemma size_distinct (l : list string) :
  size (list_to_set l : gset string) = distinct l.
Proof.
  unfold distinct.
  rewrite <- (size_list_to_set (C := gset string) (remove_dups l))
    by apply NoDup_remove_dups.
  f_equal. apply set_eq. intros x.
  rewrite !elem_of_list_to_set, elem_of_remove_dups. reflexivity.
Qed.

Lemma weight_cap_type fragile_ (r : SummaryRow F) :
  picklist_type r = type_of fragile_ -> weight_cap r = cap_weight_of fragile_.
Proof.
  unfold weight_cap. intros ->. destruct fragile_; reflexivity.
Qed.

Lemma run_ok_refl s : run_ok s s.
Proof.
  exists [], []. split; [|constructor].
  split; symmetry; apply app_nil_r.
Qed.

Lemma run_ok_trans s0 s1 s2 : run_ok s0 s1 -> run_ok s1 s2 -> run_ok s0 s2.
Proof.
  intros (r1 & f1 & [Hs1 Hw1] & H1) (r2 & f2 & [Hs2 Hw2] & H2).
  exists (r1 ++ r2), (f1 ++ f2). split.
  - split.
    + rewrite Hs2, Hs1. symmetry. apply app_assoc.
    + rewrite Hw2, Hw1. symmetry. apply app_assoc.
  - apply Forall2_app; assumption.
Qed.

(** Same summary and same files: nothing was emitted. *)
Lemma run_ok_same s s' :
  summary s' = summary s -> written s' = written s -> run_ok s s'.
Proof.
  intros Hs Hw. exists [], []. split; [|constructor].
  split; rewrite app_nil_r; assumption.
Qed.

Section ZoneFacts.
Variable now : nat -> string.
Variables (zone_ : string) (fragile_ : bool).

Lemma flush_empty_bin s : items s = [] -> flush now zone_ fragile_ s = s.
Proof. unfold flush. intros ->. reflexivity. Qed.

Lemma flush_open_bin_ok s : open_bin_ok fragile_ s -> open_bin_ok fragile_ (flush now zone_ fragile_ s).
Proof.
  intros Hs. unfold flush. destruct (items s) eqn:Hi; [assumption|].
  unfold open_bin_ok; simpl. repeat split; try reflexivity.
  - unfold PICKLIST_UNIT_CAP. lia.
  - constructor.
  - left; reflexivity.
Qed.

Lemma flush_run_ok s : open_bin_ok fragile_ s -> run_ok s (flush now zone_ fragile_ s).
Proof.
  intros (Hu & Hw & Ho & Hb & Hcap & Hpos & Hwt).
  unfold flush. destruct (items s) as [|p l] eqn:Hi; [apply run_ok_refl|].
  eexists [_], [_]. split; [split; reflexivity|].
  constructor; [|constructor].
  unfold emitted_ok, within_caps, consistent; simpl.
  rewrite (weight_cap_type fragile_) by reflexivity.
  destruct Hwt as [Hnil|Hwt]; [discriminate|].
  rewrite Ho, Hb, !size_distinct.
  repeat split; try assumption; discriminate.
Qed.

Lemma add_line_open_bin_ok row take s :
  open_bin_ok fragile_ s ->
  0 < take -> take <= PICKLIST_UNIT_CAP - cur_units s ->
  fleb (cur_weight (add_line row take s))
       (fadd (cap_weight_of fragile_) (f_dec 1 (-6))) = true ->
  open_bin_ok fragile_ (add_line row take s).
Proof.
  intros (Hu & Hw & Ho & Hb & Hcap & Hpos & _) Ht Hle Hassert.
  unfold open_bin_ok; simpl.
  rewrite sum_qty_snoc, sum_weight_snoc, !fmap_app; simpl.
  rewrite !list_to_set_snoc_L.
  repeat split.
  - lia.
  - rewrite Hw. reflexivity.
  - rewrite Ho. reflexivity.
  - rewrite Hb. reflexivity.
  - lia.
  - apply Forall_app. split; [assumption|]. constructor; [exact Ht|constructor].
  - right. exact Hassert.
Qed.

(** The fill loop keeps what was emitted in order, and leaves the open bin
    in order whenever it does not stop on the [assert]. *)
Lemma fill_ok fuel row : forall remaining s,
  open_bin_ok fragile_ s ->
  let o := fill now zone_ fragile_ fuel row remaining s in
  run_ok s (final o) /\
  match o with Raised AssertionError _ => True | _ => open_bin_ok fragile_ (final o) end.
Proof.
  induction fuel as [|fuel IH]; intros remaining s Hs; simpl.
  - destruct (remaining <=? 0); simpl; split; auto using run_ok_refl.
  - destruct (remaining <=? 0); simpl; [split; auto using run_ok_refl|].
    assert (Hflush : let o := fill now zone_ fragile_ fuel row remaining (flush now zone_ fragile_ s) in
              run_ok s (final o) /\
              match o with Raised AssertionError _ => True | _ => open_bin_ok fragile_ (final o) end).
    { destruct (IH remaining _ (flush_open_bin_ok s Hs)) as [H1 H2].
      split; [|exact H2].
      eapply run_ok_trans; [apply flush_run_ok; exact Hs|exact H1]. }
    destruct (_ || _); [exact Hflush|].
    destruct (max_by_weight _ row remaining s) as [mbw|]; simpl;
      [|split; auto using run_ok_refl].
    destruct (Z.leb_spec (Z.min (Z.min remaining (cap_units - cur_units s)) mbw) 0)
      as [Hle|Hlt]; [exact Hflush|].
    destruct (fleb _ _) eqn:Hassert; simpl.
    + assert (Hok : open_bin_ok fragile_
                (add_line row (Z.min (Z.min remaining (cap_units - cur_units s)) mbw) s)).
      { apply add_line_open_bin_ok; try assumption. unfold cap_units. lia. }
      destruct (IH (remaining - Z.min (Z.min remaining (cap_units - cur_units s)) mbw) _ Hok)
        as [H1 H2].
      split; [|exact H2].
      eapply run_ok_trans; [|exact H1]. apply run_ok_same; reflexivity.
    + split; [|exact I]. apply run_ok_same; reflexivity.
Qed.

Lemma fill_rows_ok fuel : forall group s,
  open_bin_ok fragile_ s ->
  let o := fill_rows now zone_ fragile_ fuel group s in
  run_ok s (final o) /\
  match o with Raised AssertionError _ => True | _ => open_bin_ok fragile_ (final o) end.
Proof.
  induction group as [|row rest IH]; intros s Hs; simpl.
  - split; auto using run_ok_refl.
  - destruct (fill_ok fuel row (_qty row) s Hs) as [H1 H2].
    destruct (fill now zone_ fragile_ fuel row (_qty row) s) as [s'|e s'|s'];
      simpl in *; try (split; assumption).
    destruct (IH s' H2) as [H3 H4]. split; [|exact H4].
    eapply run_ok_trans; eassumption.
Qed.

Lemma enter_open_bin_ok s : open_bin_ok fragile_ (enter s).
Proof.
  unfold open_bin_ok; simpl. repeat split; try reflexivity.
  - unfold PICKLIST_UNIT_CAP. lia.
  - constructor.
  - left; reflexivity.
Qed.

Lemma process_zone_ok fuel group s :
  run_ok s (final (process_zone now zone_ fragile_ fuel group s)).
Proof.
  unfold process_zone.
  destruct (fill_rows_ok fuel group (enter s) (enter_open_bin_ok s)) as [H1 H2].
  assert (H0 : run_ok s (enter s)) by (apply run_ok_same; reflexivity).
  destruct (fill_rows now zone_ fragile_ fuel group (enter s)) as [s'|e s'|s'];
    simpl in *; try (eapply run_ok_trans; eassumption).
  eapply run_ok_trans; [exact H0|].
  eapply run_ok_trans; [exact H1|]. apply flush_run_ok. exact H2.
Qed.

End ZoneFacts.

Lemma for_zones_ok now fragile_ fuel : forall groups s,
  run_ok s (final (for_zones now fragile_ fuel groups s)).
Proof.
  induction groups as [|[z g] rest IH]; intros s; simpl.
  - apply run_ok_refl.
  - pose proof (process_zone_ok now z fragile_ fuel g s) as H1.
    destruct (process_zone now z fragile_ fuel g s) as [s'|e s'|s']; simpl in *;
      try exact H1.
    eapply run_ok_trans; [exact H1|apply IH].
Qed.

Lemma generate_picklists_ok now fuel (df : list (Row F)) :
  run_ok initial (final (generate_picklists now fuel df)).
Proof.
  unfold generate_picklists.
  set (normal := groupby_zone (filter (fun r => _fragile r = false) (sort_values df))).
  set (fragile := groupby_zone (filter (fun r => _fragile r = true) (sort_values df))).
  pose proof (for_zones_ok now false fuel normal initial) as H1.
  destruct (for_zones now false fuel normal initial) as [s'|e s'|s']; simpl in *;
    try exact H1.
  eapply run_ok_trans; [exact H1|apply for_zones_ok].
Qed.

Lemma emitted_rows_within_caps (rows : list (SummaryRow F)) files :
  Forall2 emitted_ok rows files -> Forall within_caps rows.
Proof. induction 1 as [|r f rows files (_ & Hc & _) _ IH]; constructor; assumption. Qed.

Lemma emitted_files_positive (rows : list (SummaryRow F)) files :
  Forall2 emitted_ok rows files ->
  Forall (fun f => f.2 <> [] /\ positive_lines f.2) files.
Proof.
  induction 1 as [|r f rows files (_ & _ & _ & Hne & Hpos) _ IH]; constructor;
    [split|]; assumption.
Qed.

Lemma emitted_rows_consistent (rows : list (SummaryRow F)) files :
  Forall2 emitted_ok rows files ->
  Forall2 (fun r f => f.1 = OUTPUT_DIR +:+ "/" +:+ picklist_file r /\ consistent r f.2)
          rows files.
Proof.
  induction 1 as [|r f rows files (Hn & _ & Hc & _) _ IH]; constructor;
    [split|]; assumption.
Qed.

End PackerFacts.

(** ** An invariant rule for [process_zone] *)

Section ZoneRule.
Context {F : Type} `{FloatOps F}.
Implicit Types (s : State F) (row : Row F).
Variable now : nat -> string.
Variables (zone_ : string) (fragile_ : bool).
Variable group : list (Row F).

(** A relation between the state and what was emitted so far, kept by a
    flush of a bin that holds lines and by a take from a row of the
    group. *)
Variable Inv : State F -> list (SummaryRow F) -> list (string * list (PickLine F)) -> Prop.
Hypothesis Inv_flush : forall s rows files,
  Inv s rows files -> items s <> [] ->
  Inv (flush now zone_ fragile_ s)
      (rows ++ [flushed_row now zone_ fragile_ s]) (files ++ [flushed_file now zone_ s]).
Hypothesis Inv_add : forall s rows files row take,
  Inv s rows files -> row ∈ group -> 0 < take ->
  Inv (add_line row take s) rows files.

Local Abbreviation reached s0 s :=
  (exists rows files, emitted_since s0 s rows files /\ Inv s rows files).

Lemma flush_rule s0 s : reached s0 s -> reached s0 (flush now zone_ fragile_ s).
Proof.
  intros (rows & files & [Hs Hw] & HI).
  destruct (items s) as [|p l] eqn:Hi.
  - rewrite (flush_empty_bin now zone_ fragile_ s Hi). exists rows, files. repeat split; assumption.
  - exists (rows ++ [flushed_row now zone_ fragile_ s]), (files ++ [flushed_file now zone_ s]).
    split.
    + unfold flush. rewrite Hi. split; simpl.
      * rewrite Hs, <- app_assoc. reflexivity.
      * rewrite Hw, <- app_assoc, <- Hi. reflexivity.
    + apply Inv_flush; [exact HI|]. rewrite Hi. discriminate.
Qed.

Lemma fill_rule s0 fuel row : row ∈ group -> forall remaining s,
  reached s0 s -> reached s0 (final (fill now zone_ fragile_ fuel row remaining s)).
Proof.
  intros Hrow. induction fuel as [|fuel IH]; intros remaining s Hs; simpl.
  - destruct (remaining <=? 0); exact Hs.
  - destruct (remaining <=? 0); [exact Hs|].
    destruct (_ || _); [apply IH, flush_rule, Hs|].
    destruct (max_by_weight _ row remaining s) as [mbw|]; [|exact Hs].
    destruct (Z.leb_spec (Z.min (Z.min remaining (cap_units - cur_units s)) mbw) 0)
      as [Hle|Hlt]; [apply IH, flush_rule, Hs|].
    assert (Hadd : reached s0 (add_line row
                     (Z.min (Z.min remaining (cap_units - cur_units s)) mbw) s)).
    { destruct Hs as (rows & files & Hsince & HI). exists rows, files.
      split; [exact Hsince|]. apply Inv_add; assumption. }
    destruct (fleb _ _); [apply IH; exact Hadd|exact Hadd].
Qed.

Lemma fill_rows_rule s0 fuel : forall rows s,
  rows ⊆ group -> reached s0 s ->
  reached s0 (final (fill_rows now zone_ fragile_ fuel rows s)).
Proof.
  induction rows as [|row rest IH]; intros s Hsub Hs; simpl; [exact Hs|].
  assert (Hrow : row ∈ group) by (apply Hsub; left).
  pose proof (fill_rule s0 fuel row Hrow (_qty row) s Hs) as Hf.
  destruct (fill now zone_ fragile_ fuel row (_qty row) s); simpl in *; try exact Hf.
  apply IH; [|exact Hf]. intros r Hr. apply Hsub. right. exact Hr.
Qed.

Lemma process_zone_rule fuel s :
  Inv (enter s) [] [] ->
  reached s (final (process_zone now zone_ fragile_ fuel group s)).
Proof.
  intros H0. unfold process_zone.
  assert (Hstart : reached (enter s) (enter s)).
  { exists [], []. split; [|exact H0]. split; symmetry; apply app_nil_r. }
  pose proof (fill_rows_rule (enter s) fuel group (enter s) (reflexivity _) Hstart) as Hf.
  destruct (fill_rows now zone_ fragile_ fuel group (enter s)); simpl in *; try exact Hf.
  apply (flush_rule (enter s)). exact Hf.
Qed.

End ZoneRule.

Section ZoneRuleUses.
Context {F : Type} `{FloatOps F}.
Implicit Types (s : State F) (row : Row F).

Lemma numbered_snoc zone_ fragile_ (rows : list (SummaryRow F)) r :
  numbered zone_ fragile_ rows ->
  picklist_no r = Z.of_nat (length rows) + 1 ->
  zone r = zone_ -> picklist_type r = type_of fragile_ ->
  numbered zone_ fragile_ (rows ++ [r]).
Proof.
  intros [Hno Hall] Hr Hz Ht. split.
  - rewrite fmap_app, length_app, Hno. simpl.
    replace (length rows + 1)%nat with (S (length rows)) by lia.
    rewrite seqZ_S. f_equal. f_equal. rewrite Hr. lia.
  - apply Forall_app. split; [exact Hall|]. constructor; [split; assumption|constructor].
Qed.

(** Numbering: the rows a call of [process_zone] appends are numbered
    1, 2, ... in the order of the flushes, and each adds one to
    [total_picklists]. *)
Lemma process_zone_numbered now zone_ fragile_ fuel group s :
  exists rows files,
    emitted_since s (final (process_zone now zone_ fragile_ fuel group s)) rows files /\
    numbered zone_ fragile_ rows /\
    total_picklists (final (process_zone now zone_ fragile_ fuel group s)) =
      total_picklists s + Z.of_nat (length rows).
Proof.
  destruct (process_zone_rule now zone_ fragile_ group
    (fun s' rows _ =>
       pl_no s' = Z.of_nat (length rows) /\ numbered zone_ fragile_ rows /\
       total_picklists s' = total_picklists s + Z.of_nat (length rows)))
    with (fuel := fuel) (s := s) as (rows & files & Hsince & _ & Hnum & Htot).
  - intros s' rows files (Hpl & Hnum & Htot) Hne. unfold flush.
    destruct (items s') as [|p l]; [contradiction|]. simpl.
    rewrite length_app. simpl. split; [lia|split; [|lia]].
    apply numbered_snoc; simpl; try reflexivity; [exact Hnum|lia].
  - intros s' rows files row take HI _ _. exact HI.
  - simpl. split; [reflexivity|split; [|lia]]. split; [reflexivity|constructor].
  - exists rows, files. split; [exact Hsince|]. split; [exact Hnum|exact Htot].
Qed.

Lemma emitted_with_refl Q s : emitted_with Q s s.
Proof.
  exists [], []. split; [|constructor]. split; symmetry; apply app_nil_r.
Qed.

Lemma emitted_with_trans Q s0 s1 s2 :
  emitted_with Q s0 s1 -> emitted_with Q s1 s2 -> emitted_with Q s0 s2.
Proof.
  intros (r1 & f1 & [Hs1 Hw1] & H1) (r2 & f2 & [Hs2 Hw2] & H2).
  exists (r1 ++ r2), (f1 ++ f2). split.
  - split.
    + rewrite Hs2, Hs1. symmetry. apply app_assoc.
    + rewrite Hw2, Hw1. symmetry. apply app_assoc.
  - apply Forall2_app; assumption.
Qed.

(** Provenance: every line of a file a call of [process_zone] writes is
    taken from a row of the group, and the row written with the file
    carries the zone and the type of the call. *)
Lemma process_zone_lines_from now zone_ fragile_ fuel group s :
  emitted_with
    (fun r f => zone r = zone_ /\ picklist_type r = type_of fragile_ /\
                lines_from group f.2)
    s (final (process_zone now zone_ fragile_ fuel group s)).
Proof.
  destruct (process_zone_rule now zone_ fragile_ group
    (fun s' rows files =>
       lines_from group (items s') /\
       Forall2 (fun r f => zone r = zone_ /\ picklist_type r = type_of fragile_ /\
                           lines_from group f.2) rows files))
    with (fuel := fuel) (s := s) as (rows & files & Hsince & _ & Hfiles).
  - intros s' rows files [Hopen Hfiles] Hne. split.
    + unfold flush. destruct (items s'); [contradiction|]. constructor.
    + apply Forall2_app; [exact Hfiles|].
      constructor; [|constructor]. simpl. auto.
  - intros s' rows files row take [Hopen Hfiles] Hrow _. split; [|exact Hfiles].
    simpl. apply Forall_app. split; [exact Hopen|].
    constructor; [|constructor]. exists row. split; [exact Hrow|]. repeat split.
  - split; constructor.
  - exists rows, files. split; assumption.
Qed.

Lemma for_zones_uncontaminated now fragile_ fuel (df : list (Row F)) : forall groups s,
  Forall (fun zg : string * list (Row F) =>
            Forall (fun row => row ∈ df /\ _zone row = zg.1 /\ _fragile row = fragile_) zg.2)
         groups ->
  emitted_with (uncontaminated df) s (final (for_zones now fragile_ fuel groups s)).
Proof.
  induction groups as [|[z g] rest IH]; intros s Hg; simpl; [apply emitted_with_refl|].
  inversion Hg as [|? ? Hzg Hrest]; subst. simpl in Hzg.
  assert (H1 : emitted_with (uncontaminated df) s
                 (final (process_zone now z fragile_ fuel g s))).
  { destruct (process_zone_lines_from now z fragile_ fuel g s) as (rows & files & Hsince & Hall).
    exists rows, files. split; [exact Hsince|].
    eapply Forall2_impl; [exact Hall|].
    intros r f (Hz & Ht & Hlines). unfold uncontaminated.
    eapply Forall_impl; [exact Hlines|].
    intros p (row & Hrow & Hder). exists row.
    rewrite Forall_forall in Hzg. destruct (Hzg row Hrow) as (Hdf & Hzone & Hfr).
    rewrite Hz, Ht, Hfr. auto. }
  destruct (process_zone now z fragile_ fuel g s); simpl in *; try exact H1.
  eapply emitted_with_trans; [exact H1|]. apply IH. exact Hrest.
Qed.

Lemma for_zones_count now fragile_ fuel : forall (groups : list (string * list (Row F))) s,
  total_picklists s = Z.of_nat (length (summary s)) ->
  total_picklists (final (for_zones now fragile_ fuel groups s)) =
  Z.of_nat (length (summary (final (for_zones now fragile_ fuel groups s)))).
Proof.
  induction groups as [|[z g] rest IH]; intros s Hs; simpl; [exact Hs|].
  destruct (process_zone_numbered now z fragile_ fuel g s)
    as (rows & files & [Hsum _] & _ & Htot).
  assert (H1 : total_picklists (final (process_zone now z fragile_ fuel g s)) =
               Z.of_nat (length (summary (final (process_zone now z fragile_ fuel g s))))).
  { rewrite Htot, Hsum, length_app, Hs. lia. }
  destruct (process_zone now z fragile_ fuel g s); simpl in *; try exact H1.
  apply IH. exact H1.
Qed.

End ZoneRuleUses.

(** ** Properties of the packer, for every float arithmetic *)

Section PackerProperties.
Context {F : Type} `{FloatOps F}.
Implicit Types (s : State F) (row : Row F) (df group : list (Row F)).

(** C1 (capacity invariant).  Every summary row [process_zone] appends, and
    so every row of the summary [generate_picklists] builds, has
    [total_units <= 2000] and [total_weight <= cap + 1e-6] in the float
    comparison of the program, where [cap] is the weight cap of the row's
    type (50.0 for "fragile", 200.0 otherwise).  It holds however the run
    ends: the rows are in order also when the run stops on an exception or
    is still looping. *)
Theorem capacity_invariant :
  (forall now zone_ fragile_ fuel group s,
     exists rows,
       summary (final (process_zone now zone_ fragile_ fuel group s)) = summary s ++ rows /\
       Forall within_caps rows) /\
  (forall now fuel df,
     Forall within_caps (summary (final (generate_picklists now fuel df)))).
Proof.
  split.
  - intros now zone_ fragile_ fuel group s.
    destruct (process_zone_ok now zone_ fragile_ fuel group s)
      as (rows & files & [Hs _] & Hok).
    exists rows. split; [exact Hs|].
    eapply emitted_rows_within_caps; exact Hok.
  - intros now fuel df.
    destruct (generate_picklists_ok now fuel df) as (rows & files & [Hs _] & Hok).
    rewrite Hs. simpl. eapply emitted_rows_within_caps; exact Hok.
Qed.

(** C7 (non-emptiness).  [flush] appends a summary row and writes a file
    exactly when the open bin holds a line; and every picklist file
    [process_zone] writes, so every file of a run of [generate_picklists],
    holds at least one line, all its lines have a positive [qty], and the
    summary has one row per file. *)
Theorem picklists_non_empty :
  (forall now zone_ fragile_ s,
     let emitted := match items s with [] => O | _ :: _ => 1%nat end in
     length (summary (flush now zone_ fragile_ s)) = (length (summary s) + emitted)%nat /\
     length (written (flush now zone_ fragile_ s)) = (length (written s) + emitted)%nat) /\
  (forall now zone_ fragile_ fuel group s,
     exists rows files,
       emitted_since s (final (process_zone now zone_ fragile_ fuel group s)) rows files /\
       length rows = length files /\
       Forall (fun f => f.2 <> [] /\ positive_lines f.2) files) /\
  (forall now fuel df,
     let s := final (generate_picklists now fuel df) in
     length (summary s) = length (written s) /\
     Forall (fun f => f.2 <> [] /\ positive_lines f.2) (written s)).
Proof.
  split; [|split].
  - intros now zone_ fragile_ s. unfold flush.
    destruct (items s); simpl; rewrite ?length_app; simpl; lia.
  - intros now zone_ fragile_ fuel group s.
    destruct (process_zone_ok now zone_ fragile_ fuel group s)
      as (rows & files & Hsince & Hok).
    exists rows, files. split; [exact Hsince|]. split.
    + eapply Forall2_length; exact Hok.
    + eapply emitted_files_positive; exact Hok.
  - intros now fuel df s. subst s.
    destruct (generate_picklists_ok now fuel df) as (rows & files & [Hs Hw] & Hok).
    rewrite Hs, Hw. simpl. split.
    + eapply Forall2_length; exact Hok.
    + eapply emitted_files_positive; exact Hok.
Qed.

(** C10 (summary/picklist consistency).  The rows [process_zone] appends
    and the files it writes go in pairs, the file under the name the row
    records; in each pair [total_units] is the sum of [qty] over the lines
    of the file, [total_weight] the sum of [qty * unit_weight] over them
    (added in the order of the lines, in the arithmetic of the program),
    [distinct_orders] the number of distinct [order_id] and [distinct_bins]
    the number of distinct [bin] among them.  The same holds of the whole
    summary of [generate_picklists]. *)
Theorem summary_consistent :
  (forall now zone_ fragile_ fuel group s,
     exists rows files,
       emitted_since s (final (process_zone now zone_ fragile_ fuel group s)) rows files /\
       Forall2 (fun r f => f.1 = OUTPUT_DIR +:+ "/" +:+ picklist_file r /\ consistent r f.2)
               rows files) /\
  (forall now fuel df,
     let s := final (generate_picklists now fuel df) in
     Forall2 (fun r f => f.1 = OUTPUT_DIR +:+ "/" +:+ picklist_file r /\ consistent r f.2)
             (summary s) (written s)).
Proof.
  split.
  - intros now zone_ fragile_ fuel group s.
    destruct (process_zone_ok now zone_ fragile_ fuel group s)
      as (rows & files & Hsince & Hok).
    exists rows, files. split; [exact Hsince|].
    apply emitted_rows_consistent; exact Hok.
  - intros now fuel df s. subst s.
    destruct (generate_picklists_ok now fuel df) as (rows & files & [Hs Hw] & Hok).
    rewrite Hs, Hw. simpl. apply emitted_rows_consistent; exact Hok.
Qed.

(** Sequence numbering.  The rows a call of [process_zone] appends carry
    the zone and the type of the call and are numbered 1, 2, ... in the
    order of the flushes; [total_picklists] counts them, so at the end of
    [generate_picklists] it is the number of rows of the summary. *)
Theorem sequence_numbering :
  (forall now zone_ fragile_ fuel group s,
     exists rows files,
       emitted_since s (final (process_zone now zone_ fragile_ fuel group s)) rows files /\
       numbered zone_ fragile_ rows) /\
  (forall now fuel df,
     let s := final (generate_picklists now fuel df) in
     total_picklists s = Z.of_nat (length (summary s))).
Proof.
  split.
  - intros now zone_ fragile_ fuel group s.
    destruct (process_zone_numbered now zone_ fragile_ fuel group s)
      as (rows & files & Hsince & Hnum & _).
    exists rows, files. split; assumption.
  - intros now fuel df s. subst s. unfold generate_picklists.
    set (normal := groupby_zone (filter (fun r => _fragile r = false) (sort_values df))).
    set (fragile := groupby_zone (filter (fun r => _fragile r = true) (sort_values df))).
    pose proof (for_zones_count now false fuel normal initial eq_refl) as H1.
    destruct (for_zones now false fuel normal initial); simpl in *; try exact H1.
    apply for_zones_count. exact H1.
Qed.

(** No cross-contamination.  Every line of every picklist file of a run
    of [generate_picklists] is taken from a row of the frame whose zone is
    the zone of the picklist's summary row and whose fragility class is its
    type. *)
Theorem no_cross_contamination now fuel df :
  let s := final (generate_picklists now fuel df) in
  Forall2 (uncontaminated df) (summary s) (written s).
Proof.
  intros s. subst s.
  assert (H0 : emitted_with (uncontaminated df) initial
                 (final (generate_picklists now fuel df))).
  { unfold generate_picklists.
    pose proof (for_zones_uncontaminated now false fuel df _ initial
                  (groupby_zone_members false df)) as H1.
    destruct (for_zones now false fuel _ initial) as [s1|e s1|s1]; simpl in *;
      try exact H1.
    eapply emitted_with_trans; [exact H1|].
    apply for_zones_uncontaminated. apply groupby_zone_members. }
  destruct H0 as (rows & files & [Hs Hw] & Hall).
  rewrite Hs, Hw. exact Hall.
Qed.

End PackerProperties.


(** ** One row through the fill loop *)

Section FillFacts.
Context {F : Type} `{FloatOps F}.
Implicit Types (s : State F) (row : Row F).
Variable now : nat -> string.
Variables (zone_ : string) (fragile_ : bool).

Lemma all_lines_flush s : all_lines (flush now zone_ fragile_ s) = all_lines s.
Proof.
  unfold flush, all_lines. destruct (items s) as [|p l] eqn:Hi; [rewrite Hi; reflexivity|].
  simpl. rewrite fmap_app, concat_app. simpl. rewrite !app_nil_r. reflexivity.
Qed.

Lemma all_lines_add_line row take s :
  exists p, all_lines (add_line row take s) = all_lines s ++ [p] /\
            qty p = take /\ derived_from row p.
Proof.
  eexists. split; [unfold all_lines; simpl; apply app_assoc|].
  split; [reflexivity|]. repeat split.
Qed.

(** Whatever the loop takes from a row adds up to what the row asked for. *)
Lemma fill_conserves fuel row : forall remaining s s',
  fill now zone_ fragile_ fuel row remaining s = Done s' ->
  exists new, all_lines s' = all_lines s ++ new /\
              Forall (derived_from row) new /\
              sum_qty new = Z.max 0 remaining.
Proof.
  induction fuel as [|fuel IH]; intros remaining s s'; simpl.
  - destruct (Z.leb_spec remaining 0); [|discriminate].
    intros [= <-]. exists []. rewrite app_nil_r. repeat split; [constructor|simpl; lia].
  - destruct (Z.leb_spec remaining 0) as [Hle|Hpos].
    { intros [= <-]. exists []. rewrite app_nil_r.
      repeat split; [constructor|simpl; lia]. }
    assert (Hflush : fill now zone_ fragile_ fuel row remaining (flush now zone_ fragile_ s) = Done s' ->
              exists new, all_lines s' = all_lines s ++ new /\
                          Forall (derived_from row) new /\
                          sum_qty new = Z.max 0 remaining).
    { intros Hf. destruct (IH _ _ _ Hf) as (new & Hl & Hd & Hq).
      exists new. rewrite all_lines_flush in Hl. auto. }
    destruct (_ || _); [exact Hflush|].
    destruct (max_by_weight _ row remaining s) as [mbw|]; [|discriminate].
    set (take := Z.min (Z.min remaining (cap_units - cur_units s)) mbw).
    destruct (Z.leb_spec take 0) as [Hle|Hlt]; [exact Hflush|].
    destruct (fleb _ _); [|discriminate].
    intros Hf. destruct (IH _ _ _ Hf) as (new & Hl & Hd & Hq).
    destruct (all_lines_add_line row take s) as (p & Hp & Hqty & Hder).
    exists (p :: new). split; [|split].
    + rewrite Hl, Hp, <- app_assoc. reflexivity.
    + constructor; assumption.
    + simpl. rewrite Hq, Hqty. subst take. lia.
Qed.

End FillFacts.

Section FillProperties.
Context {F : Type} `{FloatOps F}.
Implicit Types (s : State F) (row : Row F).

(** C4 (conservation).  When the fill loop of a row of quantity [>= 0]
    ends normally, the lines packed afterwards are the lines packed before
    followed by the lines taken from that row (each carries the row's
    fields), and the [qty] of these add up to the row's quantity. *)
Theorem conservation now zone_ fragile_ fuel row s s' :
  0 <= _qty row ->
  fill now zone_ fragile_ fuel row (_qty row) s = Done s' ->
  exists new, all_lines s' = all_lines s ++ new /\
              Forall (derived_from row) new /\
              sum_qty new = _qty row.
Proof.
  intros Hq Hf.
  destruct (fill_conserves now zone_ fragile_ fuel row _ _ _ Hf) as (new & Hl & Hd & Hs).
  exists new. repeat split; try assumption. lia.
Qed.

(** C9 (zero quantity).  A row of quantity 0 leaves the state as it is:
    the loop body does not run, so the open bin ([cur_units], [cur_weight],
    [items], [orders], [bins]), the summary and the files are unchanged, no
    flush happens, and the rows after it are packed as if it were not
    there. *)
Theorem zero_quantity_noop now zone_ fragile_ fuel row s :
  _qty row = 0 ->
  fill now zone_ fragile_ fuel row (_qty row) s = Done s /\
  forall rest, fill_rows now zone_ fragile_ fuel (row :: rest) s =
               fill_rows now zone_ fragile_ fuel rest s.
Proof.
  intros Hq.
  assert (Hfill : fill now zone_ fragile_ fuel row (_qty row) s = Done s).
  { rewrite Hq. destruct fuel; reflexivity. }
  split; [exact Hfill|].
  intros rest. simpl. rewrite Hfill. reflexivity.
Qed.

End FillProperties.

(** ** The dates in the file names *)

Section ClockFacts.
Context {F : Type} `{FloatOps F}.
Implicit Types (s : State F) (row : Row F).
Variables now1 now2 : nat -> string.

Lemma undated_flush zone_ fragile_ s1 s2 :
  undated s1 = undated s2 ->
  undated (flush now1 zone_ fragile_ s1) = undated (flush now2 zone_ fragile_ s2).
Proof.
  destruct s1 as [u1 w1 it1 o1 b1 n1 sm1 t1 wr1 c1], s2 as [u2 w2 it2 o2 b2 n2 sm2 t2 wr2 c2].
  unfold undated, flush; simpl. intros [= -> -> -> -> -> -> Hs -> Hw ->].
  destruct it2; simpl.
  - rewrite Hs, Hw. reflexivity.
  - rewrite !fmap_app, Hs, Hw. reflexivity.
Qed.

Lemma undated_add_line row take s1 s2 :
  undated s1 = undated s2 ->
  undated (add_line row take s1) = undated (add_line row take s2).
Proof.
  destruct s1, s2. unfold undated, add_line; simpl.
  intros [= -> -> -> -> -> -> -> -> -> ->]. reflexivity.
Qed.

Lemma undated_open_bin s1 s2 :
  undated s1 = undated s2 ->
  cur_units s1 = cur_units s2 /\ cur_weight s1 = cur_weight s2.
Proof.
  destruct s1, s2. unfold undated; simpl. intros [= -> -> _ _ _ _ _ _ _ _]. auto.
Qed.

Lemma undated_fill zone_ fragile_ fuel row : forall remaining s1 s2,
  undated s1 = undated s2 ->
  map_outcome undated (fill now1 zone_ fragile_ fuel row remaining s1) =
  map_outcome undated (fill now2 zone_ fragile_ fuel row remaining s2).
Proof.
  induction fuel as [|fuel IH]; intros remaining s1 s2 Hs; simpl.
  - destruct (remaining <=? 0); simpl; rewrite Hs; reflexivity.
  - destruct (remaining <=? 0); simpl; [rewrite Hs; reflexivity|].
    destruct (undated_open_bin s1 s2 Hs) as [Hu Hw].
    unfold max_by_weight. rewrite Hu, Hw.
    destruct (_ || _); [apply IH, undated_flush, Hs|].
    destruct (if fltb _ _ then _ else _) as [mbw|]; simpl; [|rewrite Hs; reflexivity].
    destruct (_ <=? 0); [apply IH, undated_flush, Hs|].
    destruct (fleb _ _); simpl.
    + apply IH, undated_add_line, Hs.
    + rewrite (undated_add_line row _ s1 s2 Hs). reflexivity.
Qed.

Lemma undated_fill_rows zone_ fragile_ fuel : forall group s1 s2,
  undated s1 = undated s2 ->
  map_outcome undated (fill_rows now1 zone_ fragile_ fuel group s1) =
  map_outcome undated (fill_rows now2 zone_ fragile_ fuel group s2).
Proof.
  induction group as [|row rest IH]; intros s1 s2 Hs; simpl.
  - rewrite Hs. reflexivity.
  - pose proof (undated_fill zone_ fragile_ fuel row (_qty row) s1 s2 Hs) as Hf.
    destruct (fill now1 zone_ fragile_ fuel row (_qty row) s1);
      destruct (fill now2 zone_ fragile_ fuel row (_qty row) s2);
      simpl in Hf; try discriminate; try exact Hf.
    apply IH. congruence.
Qed.

Lemma undated_enter s1 s2 :
  undated s1 = undated s2 -> undated (enter s1) = undated (enter s2).
Proof.
  destruct s1, s2. unfold undated, enter; simpl.
  intros [= _ _ _ _ _ _ -> -> -> ->]. reflexivity.
Qed.

Lemma undated_process_zone zone_ fragile_ fuel group s1 s2 :
  undated s1 = undated s2 ->
  map_outcome undated (process_zone now1 zone_ fragile_ fuel group s1) =
  map_outcome undated (process_zone now2 zone_ fragile_ fuel group s2).
Proof.
  intros Hs. unfold process_zone.
  pose proof (undated_fill_rows zone_ fragile_ fuel group _ _ (undated_enter s1 s2 Hs)) as Hf.
  destruct (fill_rows now1 zone_ fragile_ fuel group (enter s1));
    destruct (fill_rows now2 zone_ fragile_ fuel group (enter s2));
    simpl in Hf; try discriminate; try exact Hf.
  simpl. f_equal. apply undated_flush. congruence.
Qed.

Lemma undated_for_zones fragile_ fuel : forall groups s1 s2,
  undated s1 = undated s2 ->
  map_outcome undated (for_zones now1 fragile_ fuel groups s1) =
  map_outcome undated (for_zones now2 fragile_ fuel groups s2).
Proof.
  induction groups as [|[z g] rest IH]; intros s1 s2 Hs; simpl.
  - rewrite Hs. reflexivity.
  - pose proof (undated_process_zone z fragile_ fuel g s1 s2 Hs) as Hf.
    destruct (process_zone now1 z fragile_ fuel g s1);
      destruct (process_zone now2 z fragile_ fuel g s2);
      simpl in Hf; try discriminate; try exact Hf.
    apply IH. congruence.
Qed.

End ClockFacts.

Section ClockProperties.
Context {F : Type} `{FloatOps F}.

(** C6 (determinism), as amended.  Two runs on the same frame end the same
    way (normally, on the same exception, or still looping) with the same
    picklist contents, sequence numbers and summary rows, whatever dates the
    two runs read from the clock, once the file names and the
    [picklist_file] column are left out: the date of the run enters the
    output there and nowhere else. *)
Theorem determinism_up_to_dates (now1 now2 : nat -> string) fuel (df : list (Row F)) :
  map_outcome undated (generate_picklists now1 fuel df) =
  map_outcome undated (generate_picklists now2 fuel df).
Proof.
  unfold generate_picklists.
  set (normal := groupby_zone (filter (fun r => _fragile r = false) (sort_values df))).
  set (fragile := groupby_zone (filter (fun r => _fragile r = true) (sort_values df))).
  pose proof (undated_for_zones now1 now2 false fuel normal initial initial eq_refl) as Hf.
  destruct (for_zones now1 false fuel normal initial);
    destruct (for_zones now2 false fuel normal initial);
    simpl in Hf; try discriminate; try exact Hf.
  apply undated_for_zones. congruence.
Qed.

End ClockProperties.

(** ** An item heavier than the weight cap *)

Section StuckFacts.
Context {F : Type} `{FloatOps F}.
Implicit Types (s : State F) (row : Row F).
Variable now : nat -> string.
Variables (zone_ : string) (fragile_ : bool).

(** With an empty open bin the flush changes nothing, so an iteration
    that retries is repeated for ever. *)
Lemma fill_stuck row remaining s :
  0 < remaining -> items s = [] -> retries fragile_ row remaining s ->
  forall fuel, fill now zone_ fragile_ fuel row remaining s = OutOfFuel s.
Proof.
  intros Hpos Hnil Hretry fuel.
  induction fuel as [|fuel IH]; simpl.
  - destruct (Z.leb_spec remaining 0); [lia|reflexivity].
  - destruct (Z.leb_spec remaining 0); [lia|].
    rewrite (flush_empty_bin now zone_ fragile_ s Hnil).
    destruct Hretry as [Hguard|(mbw & Hmbw & Hmin)].
    + rewrite Hguard. exact IH.
    + destruct (_ || _); [exact IH|].
      rewrite Hmbw.
      destruct (Z.leb_spec (Z.min (Z.min remaining (cap_units - cur_units s)) mbw) 0);
        [exact IH|lia].
Qed.

End StuckFacts.

(** ** Termination of the fill loop *)

Section TerminationFacts.
Context {F : Type} `{FloatOps F}.
Implicit Types (s : State F) (row : Row F).
Hypothesis laws : fresh_bin_laws.
Variable now : nat -> string.
Variables (zone_ : string) (fragile_ : bool).

Lemma fresh_if_empty_flush s :
  fresh_if_empty s -> fresh_if_empty (flush now zone_ fragile_ s).
Proof.
  unfold flush. destruct (items s); [auto|].
  intros _ _. simpl. auto.
Qed.

Lemma fresh_if_empty_add_line row take s : fresh_if_empty (add_line row take s).
Proof.
  unfold fresh_if_empty, add_line; simpl. intros Hnil.
  apply app_eq_nil in Hnil. destruct Hnil; discriminate.
Qed.

Lemma items_flush s : items (flush now zone_ fragile_ s) = [].
Proof. unfold flush. destruct (items s) eqn:Hi; [exact Hi|reflexivity]. Qed.

(** In a fresh bin an iteration does not retry on a row that fits alone. *)
Lemma fresh_bin_takes row remaining s :
  0 < remaining -> items s = [] -> fresh_if_empty s -> fits_alone fragile_ row ->
  ~ retries fragile_ row remaining s.
Proof.
  intros Hpos Hnil Hfresh Hpack. destruct (Hfresh Hnil) as [Hu Hw].
  destruct (laws fragile_) as [Hroom Hfits].
  unfold retries, max_by_weight, cap_weight, cap_units. rewrite Hu, Hw, Hroom.
  intros [Hguard|(mbw & Hmbw & Hmin)].
  - unfold PICKLIST_UNIT_CAP in Hguard. simpl in Hguard. discriminate.
  - destruct (fltb (f_of_int 0) (_weight row)) eqn:Hlt.
    + specialize (Hfits (_weight row) Hlt (Hpack Hlt)).
      rewrite Hmbw in Hfits. unfold PICKLIST_UNIT_CAP in Hmin. lia.
    + injection Hmbw as <-. unfold PICKLIST_UNIT_CAP in Hmin. lia.
Qed.

(** The loop of a row that fits alone ends within two iterations per unit. *)
Lemma fill_finishes row : fits_alone fragile_ row -> forall fuel remaining s,
  fresh_if_empty s ->
  (2 * Z.to_nat remaining + match items s with [] => 0 | _ :: _ => 1 end <= fuel)%nat ->
  let o := fill now zone_ fragile_ fuel row remaining s in
  finished o = true /\ fresh_if_empty (final o).
Proof.
  intros Hpack. induction fuel as [|fuel IH]; intros remaining s Hfresh Hfuel; simpl.
  - destruct (Z.leb_spec remaining 0); simpl; [auto|lia].
  - destruct (Z.leb_spec remaining 0) as [Hle|Hpos]; simpl; [auto|].
    assert (Hflush :
      retries fragile_ row remaining s ->
      let o := fill now zone_ fragile_ fuel row remaining (flush now zone_ fragile_ s) in
      finished o = true /\ fresh_if_empty (final o)).
    { intros Hretry. apply IH; [apply fresh_if_empty_flush; exact Hfresh|].
      rewrite items_flush.
      destruct (items s) eqn:Hi; [|lia].
      exfalso. eapply fresh_bin_takes; eauto. }
    destruct (_ || _) eqn:Hguard; [apply Hflush; left; exact Hguard|].
    destruct (max_by_weight fragile_ row remaining s) as [mbw|] eqn:Hmbw; simpl; [|auto].
    destruct (Z.leb_spec (Z.min (Z.min remaining (cap_units - cur_units s)) mbw) 0)
      as [Hle|Hlt]; [apply Hflush; right; exists mbw; split; [exact Hmbw|exact Hle]|].
    match goal with
    | |- context [if fleb ?a ?b then fill _ _ _ _ _ _ _ else _] => destruct (fleb a b)
    end; simpl; [|split; [reflexivity|apply fresh_if_empty_add_line]].
    apply IH; [apply fresh_if_empty_add_line|].
    simpl. destruct (items s ++ _) eqn:Hi; [apply app_eq_nil in Hi; destruct Hi; discriminate|].
    lia.
Qed.

Lemma fill_rows_finishes fuel : forall group s,
  Forall (packable fragile_) group -> Forall (enough_fuel fuel) group ->
  fresh_if_empty s ->
  finished (fill_rows now zone_ fragile_ fuel group s) = true.
Proof.
  induction group as [|row rest IH]; intros s Hpack Hfuel Hfresh; simpl; [reflexivity|].
  inversion Hpack as [|? ? Hp Hps]; inversion Hfuel as [|? ? Hf Hfs]; subst.
  destruct (Z.leb_spec (_qty row) 0) as [Hle|Hpos].
  - assert (Hdone : fill now zone_ fragile_ fuel row (_qty row) s = Done s).
    { destruct fuel; simpl; destruct (Z.leb_spec (_qty row) 0); try reflexivity; lia. }
    rewrite Hdone. apply IH; assumption.
  - destruct (fill_finishes row (Hp Hpos) fuel (_qty row) s Hfresh) as [Hfin Hfr].
    { unfold enough_fuel in Hf. destruct (items s); lia. }
    destruct (fill now zone_ fragile_ fuel row (_qty row) s); simpl in *; try assumption.
    apply IH; assumption.
Qed.

Lemma process_zone_finishes fuel group s :
  Forall (packable fragile_) group -> Forall (enough_fuel fuel) group ->
  finished (process_zone now zone_ fragile_ fuel group s) = true.
Proof.
  intros Hpack Hfuel. unfold process_zone.
  assert (Hfresh : fresh_if_empty (enter s)) by (intros _; split; reflexivity).
  pose proof (fill_rows_finishes fuel group (enter s) Hpack Hfuel Hfresh) as Hfin.
  destruct (fill_rows now zone_ fragile_ fuel group (enter s)); simpl in *; auto.
Qed.

End TerminationFacts.

Section TerminationLifted.
Context {F : Type} `{FloatOps F}.
Implicit Types (s : State F) (row : Row F) (df : list (Row F)).
Hypothesis laws : fresh_bin_laws.

Lemma for_zones_finishes now fragile_ fuel : forall groups s,
  Forall (fun zg : string * list (Row F) =>
            Forall (packable fragile_) zg.2 /\ Forall (enough_fuel fuel) zg.2) groups ->
  finished (for_zones now fragile_ fuel groups s) = true.
Proof.
  induction groups as [|[z g] rest IH]; intros s Hg; simpl; [reflexivity|].
  inversion Hg as [|? ? [Hp Hf] Hrest]; subst. simpl in Hp, Hf.
  pose proof (process_zone_finishes laws now z fragile_ fuel g s Hp Hf) as Hfin.
  destruct (process_zone now z fragile_ fuel g s); simpl in *; try assumption.
  apply IH. exact Hrest.
Qed.

(** The rows of a group are rows of the frame, of the fragility of the
    stream the group belongs to. *)
Lemma groupby_zone_rows fragile_ df (P : Row F -> Prop) :
  Forall P df ->
  Forall (fun zg : string * list (Row F) => Forall P zg.2)
         (groupby_zone (filter (fun r => _fragile r = fragile_) (sort_values df))).
Proof.
  intros HP. unfold groupby_zone. apply Forall_fmap, Forall_forall. intros z _. simpl.
  apply Forall_forall. intros r Hr.
  apply list_elem_of_filter in Hr as [_ Hr].
  apply list_elem_of_filter in Hr as [_ Hr].
  rewrite sort_values_perm in Hr.
  rewrite Forall_forall in HP. apply HP. exact Hr.
Qed.

Lemma groupby_zone_fragility fragile_ df :
  Forall (fun zg : string * list (Row F) => Forall (fun r => _fragile r = fragile_) zg.2)
         (groupby_zone (filter (fun r => _fragile r = fragile_) (sort_values df))).
Proof.
  unfold groupby_zone. apply Forall_fmap, Forall_forall. intros z _. simpl.
  apply Forall_forall. intros r Hr.
  apply list_elem_of_filter in Hr as [_ Hr].
  apply list_elem_of_filter in Hr as [Hr _]. exact Hr.
Qed.

Lemma fuel_for_enough fuel df :
  (fuel_for df <= fuel)%nat -> Forall (enough_fuel fuel) df.
Proof.
  induction df as [|r df IH]; simpl; intros Hf; constructor.
  - unfold enough_fuel. lia.
  - apply IH. lia.
Qed.

Lemma generate_picklists_finishes now fuel df :
  Forall (fun r => packable (_fragile r) r) df -> (fuel_for df <= fuel)%nat ->
  finished (generate_picklists now fuel df) = true.
Proof.
  intros Hpack Hfuel%fuel_for_enough. unfold generate_picklists.
  assert (Hgroups : forall fragile_,
    Forall (fun zg : string * list (Row F) =>
              Forall (packable fragile_) zg.2 /\ Forall (enough_fuel fuel) zg.2)
           (groupby_zone (filter (fun r => _fragile r = fragile_) (sort_values df)))).
  { intros fragile_.
    pose proof (groupby_zone_rows fragile_ df _ Hpack) as H1.
    pose proof (groupby_zone_rows fragile_ df _ Hfuel) as H2.
    pose proof (groupby_zone_fragility fragile_ df) as H3.
    rewrite Forall_forall in H1, H2, H3. apply Forall_forall. intros zg Hzg.
    split; [|apply H2; exact Hzg].
    specialize (H1 zg Hzg). specialize (H3 zg Hzg).
    rewrite Forall_forall in H1, H3. apply Forall_forall. intros r Hr.
    rewrite <- (H3 r Hr). apply H1. exact Hr. }
  pose proof (for_zones_finishes now false fuel _ initial (Hgroups false)) as Hfin.
  destruct (for_zones now false fuel _ initial); simpl in *; try assumption.
  apply for_zones_finishes. apply Hgroups.
Qed.

End TerminationLifted.

(** ** Runs in binary64 *)

Section Binary64Runs.
Implicit Types (s : State float).

(** C2 (unpackable item).  The packer has no "unpackable item" error.  On
    one fragile unit of 60 kg (the fragile cap is 50 kg) [process_zone]
    neither raises nor returns: with any amount of fuel the fill loop is
    still at its first row, the bin empty and the summary as it was. *)
Theorem unpackable_item_loops (now : nat -> string) (zone_ : string) (fuel : nat) s :
  process_zone now zone_ true fuel [heavy_fragile] s = OutOfFuel (enter s).
Proof.
  unfold process_zone. simpl.
  rewrite fill_stuck; [reflexivity|reflexivity|reflexivity|].
  right. exists 0. split; [|vm_compute; discriminate].
  vm_compute. reflexivity.
Qed.

(** C3 (termination).  [generate_picklists] does not end on every frame:
    on the frame of one normal unit of 250 kg (the normal cap is 200 kg)
    it neither completes nor fails, with any amount of fuel. *)
Theorem generate_picklists_hangs (now : nat -> string) (fuel : nat) :
  generate_picklists now fuel [heavy_normal] = OutOfFuel initial.
Proof.
  unfold generate_picklists.
  change (groupby_zone (filter (fun r : Row float => _fragile r = false) (sort_values [heavy_normal])))
    with [("A", [heavy_normal (F := float)])].
  unfold for_zones, process_zone. simpl.
  rewrite fill_stuck; [reflexivity|reflexivity|reflexivity|].
  right. exists 0. split; [|vm_compute; discriminate].
  vm_compute. reflexivity.
Qed.

(** The bulk line goes through the fill loop in three iterations, and the
    2000 + 500 units taken add up to its 2500. *)
Lemma conservation_bulk_line :
  exists new,
    all_lines (final (fill first_day "A" false 5 bulk_line 2500 (initial (F := float)))) =
    all_lines initial ++ new /\
    Forall (derived_from bulk_line) new /\
    sum_qty new = _qty (bulk_line (F := float)).
Proof.
  refine (conservation (F := float) first_day "A" false 5 bulk_line initial _ _ _).
  - simpl. lia.
  - vm_compute. reflexivity.
Defined.

(** A line of quantity 0 in front of the bulk order changes nothing. *)
Lemma zero_quantity_empty_line :
  fill first_day "A" false 5 empty_line (_qty empty_line) (initial (F := float)) = Done initial /\
  forall rest : list (Row float),
    fill_rows first_day "A" false 5 (empty_line :: rest) initial =
    fill_rows first_day "A" false 5 rest initial.
Proof.
  apply (zero_quantity_noop (F := float) first_day "A" false 5 empty_line initial).
  reflexivity.
Defined.

(** C6, as stated, fails: the same frame packed on two days gives two
    different summaries, their [picklist_file] columns differ. *)
Lemma dated_file_names :
  generate_picklists first_day 10 (bulk_order (F := float)) <>
  generate_picklists next_day 10 bulk_order.
Proof.
  intros Heq.
  apply (f_equal (fun o => picklist_file <$> summary (final o))) in Heq.
  vm_compute in Heq. discriminate Heq.
Qed.

(** The literals of the two programs are the floats Rocq reads from the
    same decimal numerals, and [int()] truncates toward zero. *)
#[local] Set Warnings "-inexact-float".
Example binary64_literals :
  Binary64.dec 1 (-6) = 1e-6%float /\ Binary64.dec 4 (-1) = 0.4%float /\
  Binary64.dec 3 (-1) = 0.3%float /\ Binary64.dec 2 (-1) = 0.2%float /\
  Binary64.dec 1 (-1) = 0.1%float /\ Binary64.dec 200 0 = 200%float /\
  Binary64.dec 50 0 = 50%float /\ Binary64.dec 0 0 = 0%float.
Proof. vm_compute. repeat split; reflexivity. Qed.

Example binary64_int :
  Binary64.to_Z (PrimFloat.div 50 60) = Some 0 /\
  Binary64.to_Z (PrimFloat.div 200 0.3) = Some 666 /\
  Binary64.to_Z (-2.5)%float = Some (-2) /\
  Binary64.to_Z (PrimFloat.div 1 0) = None.
Proof. vm_compute. repeat split; reflexivity. Qed.
#[local] Set Warnings "inexact-float".

(** The example of the specification: the bulk order makes two picklists,
    of 2000 and of 500 + 1 + 1 units. *)
Example bulk_order_packed :
  (fun r => (picklist_no r, total_units r)) <$>
    summary (final (generate_picklists first_day 10 (bulk_order (F := float)))) =
  [(1, 2000); (2, 502)].
Proof. vm_compute. reflexivity. Qed.

(** An empty frame: no picklist, an empty summary, no error. *)
Example empty_frame (now : nat -> string) (fuel : nat) :
  generate_picklists now fuel ([] : list (Row float)) = Done initial.
Proof. reflexivity. Qed.

(** File names hold the zone and the number, not the type: the first
    normal and the first fragile picklist of a zone are written to the same
    path, the second write replacing the file of the first. *)
Lemma same_path_for_both_types :
  let s := final (generate_picklists first_day 10 (mixed_zone (F := float))) in
  fst <$> written s =
    [ "/kaggle/working/picklists/2024-01-01_ZONE_A_PL1.csv";
      "/kaggle/working/picklists/2024-01-01_ZONE_A_PL1.csv" ] /\
  picklist_type <$> summary s = ["normal"; "fragile"].
Proof. vm_compute. split; reflexivity. Qed.

End Binary64Runs.

(** ** More on the packer, for every float arithmetic *)

Section NamingFacts.
Context {F : Type} `{FloatOps F}.
Implicit Types (s : State F) (row : Row F) (df group : list (Row F)).
Variable now : nat -> string.

Lemma named_by_app k0 (rows1 rows2 : list (SummaryRow F)) :
  named_by now k0 rows1 -> named_by now (k0 + length rows1) rows2 ->
  named_by now k0 (rows1 ++ rows2).
Proof.
  unfold named_by. intros H1 H2. rewrite fmap_app, imap_app, H1, H2.
  f_equal. apply imap_ext. intros k r _. simpl.
  replace (k0 + (length rows1 + k))%nat with (k0 + length rows1 + k)%nat by lia.
  reflexivity.
Qed.

(** A call of [process_zone] reads one date per row it appends, and names
    the file of the row by that date, the zone and the number. *)
Lemma process_zone_named zone_ fragile_ fuel group s :
  exists rows files,
    emitted_since s (final (process_zone now zone_ fragile_ fuel group s)) rows files /\
    clock (final (process_zone now zone_ fragile_ fuel group s)) = (clock s + length rows)%nat /\
    named_by now (clock s) rows.
Proof.
  destruct (process_zone_rule now zone_ fragile_ group
    (fun s' rows _ =>
       clock s' = (clock s + length rows)%nat /\ named_by now (clock s) rows))
    with (fuel := fuel) (s := s) as (rows & files & Hsince & Hclock & Hnamed).
  - intros s' rows files [Hclock Hnamed] Hne. unfold flush.
    destruct (items s') as [|p l]; [contradiction|]. simpl.
    rewrite length_app. simpl. split; [lia|].
    apply named_by_app; [exact Hnamed|].
    unfold named_by. simpl. rewrite Hclock, Nat.add_0_r. reflexivity.
  - intros s' rows files row take HI _ _. exact HI.
  - simpl. split; [lia|reflexivity].
  - exists rows, files. split; [exact Hsince|]. split; assumption.
Qed.

Lemma for_zones_named fragile_ fuel : forall (groups : list (string * list (Row F))) s,
  clock s = length (summary s) -> named_by now 0 (summary s) ->
  let s' := final (for_zones now fragile_ fuel groups s) in
  clock s' = length (summary s') /\ named_by now 0 (summary s').
Proof.
  induction groups as [|[z g] rest IH]; intros s Hc Hn; simpl; [split; assumption|].
  destruct (process_zone_named z fragile_ fuel g s)
    as (rows & files & [Hsum _] & Hclock & Hnamed).
  assert (H1 : clock (final (process_zone now z fragile_ fuel g s)) =
               length (summary (final (process_zone now z fragile_ fuel g s))) /\
               named_by now 0 (summary (final (process_zone now z fragile_ fuel g s)))).
  { rewrite Hsum, Hclock, length_app, Hc. split; [reflexivity|].
    apply named_by_app; [exact Hn|]. simpl. rewrite <- Hc. exact Hnamed. }
  destruct (process_zone now z fragile_ fuel g s); simpl in *; try exact H1.
  apply IH; apply H1.
Qed.

End NamingFacts.

Section NamingProperties.
Context {F : Type} `{FloatOps F}.

(** File naming.  In the summary of a run of [generate_picklists] the
    [picklist_file] of the [k]-th row is the [k]-th date read from the
    clock, then [_ZONE_], the zone of the row, [_PL], its number and
    [.csv]: the name holds the date, the zone and the number, and not the
    type of the picklist. *)
Theorem file_naming (now : nat -> string) fuel (df : list (Row F)) :
  let s := final (generate_picklists now fuel df) in
  picklist_file <$> summary s =
  imap (fun k r => now k +:+ "_ZONE_" +:+ zone r +:+ "_PL" +:+ pretty (picklist_no r) +:+ ".csv")
       (summary s).
Proof.
  intros s. subst s.
  assert (H0 : named_by now 0 (summary (final (generate_picklists now fuel df)))).
  { unfold generate_picklists.
    set (normal := groupby_zone (filter (fun r => _fragile r = false) (sort_values df))).
    set (fragile := groupby_zone (filter (fun r => _fragile r = true) (sort_values df))).
    destruct (for_zones_named now false fuel normal initial eq_refl eq_refl) as [Hc Hn].
    destruct (for_zones now false fuel normal initial); simpl in *; try exact Hn.
    apply for_zones_named; assumption. }
  exact H0.
Qed.

End NamingProperties.

(** ** The zones of a frame *)

Section GroupFacts.
Context {F : Type} `{FloatOps F}.
Implicit Types (s : State F) (row r : Row F) (df l group : list (Row F)).

Lemma string_lt_le (a b : string) : String.compare a b = Lt -> String.le a b.
Proof. unfold String.le, String.leb. intros ->. exact I. Qed.

Lemma string_lt_ne (a b : string) : String.compare a b = Lt -> a <> b.
Proof. intros Hlt ->. rewrite string_compare_refl in Hlt. discriminate. Qed.

Lemma string_gt_lt (a b : string) : String.compare a b = Gt -> String.compare b a = Lt.
Proof. intros Hgt. rewrite String.compare_antisym, Hgt. reflexivity. Qed.

Lemma string_le_ne_lt (a b : string) : String.le a b -> a <> b -> String.compare a b = Lt.
Proof.
  unfold String.le, String.leb. intros Hle Hne.
  destruct (String.compare a b) eqn:Hc; [|reflexivity|contradiction].
  apply String.compare_eq_iff in Hc. contradiction.
Qed.

Lemma string_lt_trans (a b c : string) :
  String.compare a b = Lt -> String.compare b c = Lt -> String.compare a c = Lt.
Proof.
  intros Hab Hbc. apply string_le_ne_lt.
  - etrans; apply string_lt_le; eassumption.
  - intros ->. apply (string_lt_ne _ _ Hab).
    apply (anti_symm String.le); apply string_lt_le; assumption.
Qed.

Lemma elem_of_insert_key (y z : string) ks : y ∈ insert_key z ks <-> y = z \/ y ∈ ks.
Proof.
  induction ks as [|x t IH]; simpl.
  - rewrite list_elem_of_singleton. rewrite elem_of_nil. tauto.
  - destruct (String.compare z x) eqn:Hc.
    + apply String.compare_eq_iff in Hc. subst x.
      rewrite elem_of_cons. tauto.
    + rewrite elem_of_cons. tauto.
    + rewrite !elem_of_cons, IH. tauto.
Qed.

Lemma insert_key_sorted (z : string) ks :
  StronglySorted (fun a b => String.compare a b = Lt) ks ->
  StronglySorted (fun a b => String.compare a b = Lt) (insert_key z ks).
Proof.
  induction 1 as [|x t Hs IH Hx]; simpl.
  - constructor; constructor.
  - destruct (String.compare z x) eqn:Hc.
    + constructor; assumption.
    + constructor; [constructor; assumption|].
      constructor; [exact Hc|].
      eapply Forall_impl; [exact Hx|]. intros y Hy. simpl in Hy.
      eapply string_lt_trans; eassumption.
    + constructor; [exact IH|].
      apply Forall_forall. intros y Hy. apply elem_of_insert_key in Hy as [->|Hy].
      * apply string_gt_lt. exact Hc.
      * rewrite Forall_forall in Hx. apply Hx. exact Hy.
Qed.

(** The keys of [groupby]: every zone of the frame, once, in strictly
    ascending order. *)
Lemma zone_keys_sorted df :
  StronglySorted (fun a b => String.compare a b = Lt) (zone_keys df).
Proof.
  unfold zone_keys. induction (_zone <$> df) as [|z zs IH]; simpl; [constructor|].
  apply insert_key_sorted. exact IH.
Qed.

Lemma elem_of_zone_keys (z : string) df : z ∈ zone_keys df <-> z ∈ _zone <$> df.
Proof.
  unfold zone_keys. induction (_zone <$> df) as [|x zs IH]; simpl; [reflexivity|].
  rewrite elem_of_insert_key, elem_of_cons, IH. reflexivity.
Qed.

Lemma strictly_sorted_NoDup (ks : list string) :
  StronglySorted (fun a b => String.compare a b = Lt) ks -> NoDup ks.
Proof.
  induction 1 as [|x t Hs IH Hx]; constructor; [|exact IH].
  intros Hin. rewrite Forall_forall in Hx.
  apply (string_lt_ne x x); [apply Hx; exact Hin|reflexivity].
Qed.

Lemma zone_keys_NoDup df : NoDup (zone_keys df).
Proof. apply strictly_sorted_NoDup, zone_keys_sorted. Qed.

Lemma units_asked_app l1 l2 : units_asked (l1 ++ l2) = units_asked l1 + units_asked l2.
Proof. induction l1 as [|r l1 IH]; simpl; [reflexivity|]. rewrite IH. lia. Qed.

Lemma units_asked_perm l1 l2 : l1 ≡ₚ l2 -> units_asked l1 = units_asked l2.
Proof. induction 1; simpl; lia. Qed.

Lemma units_asked_split l :
  units_asked (filter (fun r => _fragile r = false) l) +
  units_asked (filter (fun r => _fragile r = true) l) = units_asked l.
Proof.
  induction l as [|r l IH]; simpl; [reflexivity|].
  rewrite !filter_cons. destruct (_fragile r); simpl;
    repeat case_decide; try congruence; simpl; lia.
Qed.

Lemma one_key_counts (x : string) (q : Z) (ks : list string) :
  NoDup ks -> x ∈ ks ->
  foldr (fun z acc => (if decide (x = z) then q else 0) + acc) 0 ks = q.
Proof.
  induction 1 as [|k ks Hk Hnd IH]; intros Hin; [inversion Hin|]. simpl.
  destruct (decide (x = k)) as [->|Hne].
  - assert (Hz : foldr (fun z acc => (if decide (k = z) then q else 0) + acc) 0 ks = 0).
    { clear IH Hnd Hin. induction ks as [|y ks IH]; simpl; [reflexivity|].
      destruct (decide (k = y)) as [->|_].
      - exfalso. apply Hk. left.
      - rewrite IH; [lia|]. intros Hy. apply Hk. right. exact Hy. }
    rewrite Hz. lia.
  - apply elem_of_cons in Hin as [Heq|Hin]; [contradiction|]. rewrite IH by exact Hin. lia.
Qed.

(** The groups share out the units of the frame. *)
Lemma units_asked_groups (ks : list string) l :
  NoDup ks -> Forall (fun r => _zone r ∈ ks) l ->
  foldr (fun z acc => units_asked (filter (fun r => _zone r = z) l) + acc) 0 ks =
  units_asked l.
Proof.
  intros Hnd. induction 1 as [|r l Hr Hl IH]; simpl.
  - induction ks as [|k ks IHk]; simpl; [reflexivity|].
    rewrite IHk; [reflexivity|]. inversion Hnd; assumption.
  - rewrite <- IH, <- (one_key_counts (_zone r) (Z.max 0 (_qty r)) ks Hnd Hr).
    clear. induction ks as [|k ks IHk]; simpl; [reflexivity|].
    rewrite filter_cons. destruct (decide (_zone r = k)); simpl; lia.
Qed.

Lemma units_asked_groupby l :
  foldr (fun zg acc => units_asked zg.2 + acc) 0 (groupby_zone l) = units_asked l.
Proof.
  unfold groupby_zone.
  rewrite <- (units_asked_groups (zone_keys l) l (zone_keys_NoDup l)).
  - induction (zone_keys l) as [|k ks IH]; simpl; [reflexivity|]. f_equal. exact IH.
  - apply Forall_forall. intros r Hr. apply elem_of_zone_keys.
    apply list_elem_of_fmap. exists r. auto.
Qed.

End GroupFacts.

(** ** Units in, units out *)

Section ConservationFacts.
Context {F : Type} `{FloatOps F}.
Implicit Types (s : State F) (row r : Row F) (df l group : list (Row F)).
Variable now : nat -> string.

Lemma fill_non_positive zone_ fragile_ fuel row s :
  _qty row <= 0 -> fill now zone_ fragile_ fuel row (_qty row) s = Done s.
Proof.
  intros Hq. destruct fuel; simpl; destruct (Z.leb_spec (_qty row) 0); try reflexivity; lia.
Qed.

Lemma fill_rows_to_pack zone_ fragile_ fuel : forall group s,
  fill_rows now zone_ fragile_ fuel (to_pack group) s =
  fill_rows now zone_ fragile_ fuel group s.
Proof.
  unfold to_pack. induction group as [|row rest IH]; intros s; [reflexivity|].
  rewrite filter_cons. destruct (decide (0 < _qty row)) as [Hpos|Hneg]; simpl.
  - destruct (fill now zone_ fragile_ fuel row (_qty row) s); try reflexivity. apply IH.
  - rewrite fill_non_positive by lia. apply IH.
Qed.

Lemma sum_qty_concat (pieces : list (list (PickLine F))) :
  sum_qty (concat pieces) = foldr (fun ps acc => sum_qty ps + acc) 0 pieces.
Proof.
  induction pieces as [|ps pieces IH]; simpl; [reflexivity|].
  rewrite sum_qty_app, IH. reflexivity.
Qed.

Lemma pieces_units group (pieces : list (list (PickLine F))) :
  Forall2 pieces_of group pieces -> sum_qty (concat pieces) = units_asked group.
Proof.
  induction 1 as [|row ps group pieces [_ Hsum] _ IH]; simpl; [reflexivity|].
  rewrite sum_qty_app, IH, Hsum. reflexivity.
Qed.

Lemma emitted_units (rows : list (SummaryRow F)) files :
  Forall2 emitted_ok rows files -> units_emitted rows = sum_qty (concat (snd <$> files)).
Proof.
  induction 1 as [|r f rows files (_ & _ & (Hu & _) & _) _ IH]; simpl; [reflexivity|].
  rewrite sum_qty_app, IH, Hu. reflexivity.
Qed.

Lemma units_emitted_app (rows1 rows2 : list (SummaryRow F)) :
  units_emitted (rows1 ++ rows2) = units_emitted rows1 + units_emitted rows2.
Proof. induction rows1 as [|r rows1 IH]; simpl; [reflexivity|]. rewrite IH. lia. Qed.

(** Row by row: the lines packed while the rows of a group go through the
    loop are the lines of the first row, then those of the second, ... *)
Lemma fill_rows_conserves zone_ fragile_ fuel : forall group s s',
  fill_rows now zone_ fragile_ fuel group s = Done s' ->
  exists pieces, all_lines s' = all_lines s ++ concat pieces /\
                 Forall2 pieces_of group pieces.
Proof.
  induction group as [|row rest IH]; intros s s'; simpl.
  - intros [= <-]. exists []. simpl. rewrite app_nil_r. split; [reflexivity|constructor].
  - destruct (fill now zone_ fragile_ fuel row (_qty row) s) as [s1| |] eqn:Hfill;
      try discriminate.
    intros Hrest.
    destruct (fill_conserves now zone_ fragile_ fuel row _ _ _ Hfill) as (new & Hl & Hd & Hq).
    destruct (IH _ _ Hrest) as (pieces & Hl' & Hp).
    exists (new :: pieces). split.
    + rewrite Hl', Hl. simpl. rewrite app_assoc. reflexivity.
    + constructor; [split; assumption|exact Hp].
Qed.

Lemma process_zone_pieces zone_ fragile_ fuel group s s' :
  process_zone now zone_ fragile_ fuel group s = Done s' ->
  exists rows files pieces,
    emitted_since s s' rows files /\ Forall2 emitted_ok rows files /\
    items s' = [] /\
    concat (snd <$> files) = concat pieces /\
    Forall2 pieces_of group pieces.
Proof.
  intros Hdone.
  pose proof (process_zone_ok now zone_ fragile_ fuel group s) as Hok.
  rewrite Hdone in Hok. destruct Hok as (rows & files & [Hsum Hwr] & Hok).
  simpl in Hsum, Hwr. unfold process_zone in Hdone.
  destruct (fill_rows now zone_ fragile_ fuel group (enter s)) as [s1| |] eqn:Hrows;
    try discriminate.
  injection Hdone as <-.
  destruct (fill_rows_conserves zone_ fragile_ fuel group _ _ Hrows) as (pieces & Hl & Hp).
  exists rows, files, pieces.
  assert (Hitems : items (flush now zone_ fragile_ s1) = []) by apply items_flush.
  split; [split; assumption|]. split; [exact Hok|]. split; [exact Hitems|].
  split; [|exact Hp].
  rewrite <- (all_lines_flush now zone_ fragile_ s1) in Hl.
  unfold all_lines in Hl. rewrite Hitems, Hwr in Hl. simpl in Hl.
  rewrite !app_nil_r, fmap_app, concat_app in Hl.
  apply app_inv_head in Hl. exact Hl.
Qed.

Lemma process_zone_units zone_ fragile_ fuel group s s' :
  process_zone now zone_ fragile_ fuel group s = Done s' ->
  units_emitted (summary s') = units_emitted (summary s) + units_asked group.
Proof.
  intros Hdone.
  destruct (process_zone_pieces zone_ fragile_ fuel group s s' Hdone)
    as (rows & files & pieces & [Hsum _] & Hok & _ & Hcat & Hp).
  rewrite Hsum, units_emitted_app, (emitted_units rows files Hok), Hcat.
  rewrite (pieces_units group pieces Hp). reflexivity.
Qed.

Lemma for_zones_units fragile_ fuel : forall (groups : list (string * list (Row F))) s s',
  for_zones now fragile_ fuel groups s = Done s' ->
  units_emitted (summary s') =
  units_emitted (summary s) + foldr (fun zg acc => units_asked zg.2 + acc) 0 groups.
Proof.
  induction groups as [|[z g] rest IH]; intros s s'; simpl.
  - intros [= <-]. lia.
  - destruct (process_zone now z fragile_ fuel g s) as [s1| |] eqn:Hz; try discriminate.
    intros Hrest. rewrite (IH _ _ Hrest), (process_zone_units z fragile_ fuel g s s1 Hz). lia.
Qed.

End ConservationFacts.

Section ConservationProperties.
Context {F : Type} `{FloatOps F}.
Implicit Types (s : State F) (row r : Row F) (df l group : list (Row F)).

(** Rows of quantity [<= 0].  A row whose quantity is zero or negative is
    skipped: [process_zone] on a group ends as it does on the rows of
    positive quantity alone, with the same state. *)
Theorem non_positive_rows_skipped now zone_ fragile_ fuel group s :
  process_zone now zone_ fragile_ fuel (to_pack group) s =
  process_zone now zone_ fragile_ fuel group s.
Proof. unfold process_zone. rewrite fill_rows_to_pack. reflexivity. Qed.

(** Conservation, group by group and in order.  When [process_zone]
    returns, the open bin is empty, and the lines of the files it wrote,
    read file after file, are the lines of the first row of the group, then
    those of the second, and so on: the lines of a row carry its fields and
    their [qty] add up to its quantity (to nothing for a quantity
    [<= 0]). *)
Theorem process_zone_conserves now zone_ fragile_ fuel group s s' :
  process_zone now zone_ fragile_ fuel group s = Done s' ->
  items s' = [] /\
  exists files pieces,
    written s' = written s ++ files /\
    concat (snd <$> files) = concat pieces /\
    Forall2 pieces_of group pieces.
Proof.
  intros Hdone.
  destruct (process_zone_pieces now zone_ fragile_ fuel group s s' Hdone)
    as (rows & files & pieces & [_ Hwr] & _ & Hitems & Hcat & Hp).
  split; [exact Hitems|]. exists files, pieces. auto.
Qed.

(** Units accounted for.  When [generate_picklists] completes, the
    [total_units] of the summary add up to the quantities of the frame, a
    row of quantity [<= 0] counting for nothing. *)
Theorem units_accounted now fuel df s :
  generate_picklists now fuel df = Done s ->
  units_emitted (summary s) = units_asked df.
Proof.
  unfold generate_picklists. intros Hdone.
  destruct (for_zones now false fuel _ initial) as [s1| |] eqn:Hnormal; try discriminate.
  rewrite (for_zones_units now true fuel _ _ _ Hdone).
  rewrite (for_zones_units now false fuel _ _ _ Hnormal).
  rewrite !units_asked_groupby.
  rewrite <- (units_asked_perm _ _ (sort_values_perm df)).
  rewrite <- (units_asked_split (sort_values df)). simpl. lia.
Qed.

End ConservationProperties.

(** ** The order of the summary *)

Section OrderFacts.
Context {F : Type} `{FloatOps F}.
Implicit Types (s : State F) (row : Row F) (df l group : list (Row F)).
Variable now : nat -> string.

Lemma groupby_zone_keys l : fst <$> groupby_zone l = zone_keys l.
Proof.
  unfold groupby_zone. rewrite <- list_fmap_compose.
  induction (zone_keys l) as [|k ks IH]; simpl; [reflexivity|]. f_equal. exact IH.
Qed.

Lemma one_zone_sorted (z : string) (rows : list (SummaryRow F)) :
  Forall (fun r => zone r = z) rows -> StronglySorted String.le (zone <$> rows).
Proof.
  induction 1 as [|r rows Hr Hrows IH]; simpl; constructor; [exact IH|].
  apply Forall_fmap. eapply Forall_impl; [exact Hrows|].
  intros r' Hr'. simpl. rewrite Hr, Hr'. reflexivity.
Qed.

(** The rows of [for_zones] carry the type of the stream and come zone
    after zone, in the order of the keys. *)
Lemma for_zones_ordered fragile_ fuel : forall (groups : list (string * list (Row F))) s,
  StronglySorted (fun a b => String.compare a b = Lt) (fst <$> groups) ->
  exists rows,
    summary (final (for_zones now fragile_ fuel groups s)) = summary s ++ rows /\
    Forall (fun r => picklist_type r = type_of fragile_ /\ zone r ∈ fst <$> groups) rows /\
    StronglySorted String.le (zone <$> rows).
Proof.
  induction groups as [|[z g] rest IH]; intros s Hkeys; simpl.
  - exists []. rewrite app_nil_r. repeat split; constructor.
  - inversion Hkeys as [|? ? Hrest Hz]; subst.
    destruct (process_zone_numbered now z fragile_ fuel g s)
      as (rows1 & files1 & [Hsum1 _] & [_ Hall1] & _).
    assert (Hrows1 : Forall (fun r => picklist_type r = type_of fragile_ /\
                                      zone r ∈ z :: (fst <$> rest)) rows1).
    { eapply Forall_impl; [exact Hall1|]. intros r [Hzr Ht]. split; [exact Ht|].
      rewrite Hzr. left. }
    assert (Hsorted1 : StronglySorted String.le (zone <$> rows1)).
    { apply (one_zone_sorted z). eapply Forall_impl; [exact Hall1|]. intros r [Hzr _]. exact Hzr. }
    destruct (process_zone now z fragile_ fuel g s) as [s1|e s1|s1]; simpl in *;
      try (exists rows1; split; [exact Hsum1|split; assumption]).
    destruct (IH s1 Hrest) as (rows2 & Hsum2 & Hall2 & Hsorted2).
    exists (rows1 ++ rows2). split; [rewrite Hsum2, Hsum1, app_assoc; reflexivity|].
    split.
    + apply Forall_app. split; [exact Hrows1|].
      eapply Forall_impl; [exact Hall2|]. intros r [Ht Hin]. split; [exact Ht|].
      right. exact Hin.
    + rewrite fmap_app. apply StronglySorted_app_2; [|assumption..].
      intros z1 z2 Hz1 Hz2.
      apply list_elem_of_fmap in Hz1 as (r1 & -> & Hr1).
      apply list_elem_of_fmap in Hz2 as (r2 & -> & Hr2).
      rewrite Forall_forall in Hall1, Hall2.
      destruct (Hall1 r1 Hr1) as [-> _]. destruct (Hall2 r2 Hr2) as [_ Hin].
      apply string_lt_le. exact (proj1 (Forall_forall _ _) Hz _ Hin).
Qed.

End OrderFacts.

Section OrderProperties.
Context {F : Type} `{FloatOps F}.

(** Order of the summary.  The summary of a run of [generate_picklists]
    holds the normal picklists first and the fragile ones after them, and
    within each of the two the rows come by zone, the zones in ascending
    order of their names (as strings). *)
Theorem summary_order (now : nat -> string) fuel (df : list (Row F)) :
  by_type_then_zone (summary (final (generate_picklists now fuel df))).
Proof.
  unfold generate_picklists, by_type_then_zone.
  set (normal := groupby_zone (filter (fun r => _fragile r = false) (sort_values df))).
  set (fragile := groupby_zone (filter (fun r => _fragile r = true) (sort_values df))).
  destruct (for_zones_ordered now false fuel normal initial) as (rows1 & Hsum1 & Hall1 & Hs1).
  { subst normal. rewrite groupby_zone_keys. apply zone_keys_sorted. }
  assert (Ht1 : Forall (fun r : SummaryRow F => picklist_type r = "normal") rows1).
  { eapply Forall_impl; [exact Hall1|]. intros r [Ht _]. exact Ht. }
  destruct (for_zones now false fuel normal initial) as [s1|e s1|s1]; simpl in *;
    try (exists rows1, []; rewrite app_nil_r; repeat split;
         [exact Hsum1|exact Ht1|constructor|exact Hs1|constructor]).
  destruct (for_zones_ordered now true fuel fragile s1) as (rows2 & Hsum2 & Hall2 & Hs2).
  { subst fragile. rewrite groupby_zone_keys. apply zone_keys_sorted. }
  exists rows1, rows2. rewrite Hsum2, Hsum1. repeat split; try assumption.
  eapply Forall_impl; [exact Hall2|]. intros r [Ht _]. exact Ht.
Qed.

End OrderProperties.

(** ** The reporter on what the packer emits *)

Section OrdersFacts.
Context {F : Type} `{FloatOps F}.

Lemma distinct_positive (l : list string) : l <> [] -> (1 <= distinct l)%nat.
Proof.
  unfold distinct. destruct l as [|x l]; [contradiction|]. intros _.
  assert (Hx : x ∈ remove_dups (x :: l)) by (apply elem_of_remove_dups; left).
  destruct (remove_dups (x :: l)); [inversion Hx|simpl; lia].
Qed.

(** Every picklist emitted holds at least one order. *)
Lemma emitted_orders (rows : list (SummaryRow F)) files :
  Forall2 emitted_ok rows files -> Forall (fun r => 1 <= distinct_orders r) rows.
Proof.
  induction 1 as [|r f rows files (_ & _ & (_ & _ & Ho & _) & Hne & _) _ IH];
    constructor; [|exact IH].
  rewrite Ho.
  assert (Hd : (1 <= distinct (order_id <$> f.2))%nat).
  { apply distinct_positive. destruct (f.2); [contradiction|discriminate]. }
  lia.
Qed.

Lemma baseline_covers (rows : list (SummaryRow F)) :
  Forall (fun r => 1 <= distinct_orders r) rows ->
  Z.of_nat (length rows) <= baseline_picklists rows.
Proof. induction 1 as [|r rows Hr Hrows IH]; simpl; lia. Qed.

Lemma no_violation_count (sm : list (SummaryRow F)) :
  Forall (fun r => unit_violation r || weight_violation r = false) sm ->
  total_violations sm = 0.
Proof.
  unfold total_violations. induction 1 as [|r sm Hr Hsm IH]; simpl; [reflexivity|].
  rewrite Hr. exact IH.
Qed.

(** The violations of one cap only and of both caps make up the
    violations. *)
Lemma violations_split (df : list (SummaryRow F)) :
  total_violations df =
  unit_dominated df + weight_dominated df +
  Z.of_nat (length (List.filter (fun r => unit_violation r && weight_violation r) df)).
Proof.
  unfold total_violations, unit_dominated, weight_dominated.
  induction df as [|r df IH]; simpl; [reflexivity|].
  destruct (unit_violation r), (weight_violation r); simpl; lia.
Qed.

End OrdersFacts.



(** ** Resolving the columns *)

Section ColumnFacts.
Variable lower : string -> string.

Lemma cols_lower_snoc (columns : list string) (c : string) :
  cols_lower lower (columns ++ [c]) = <[lower c := c]> (cols_lower lower columns).
Proof. unfold cols_lower. rewrite foldl_app. reflexivity. Qed.

(** Under a lower-case name the dict holds the last column of that name. *)
Lemma lookup_cols_lower (columns : list string) (k : string) :
  cols_lower lower columns !! k = last (filter (fun c => lower c = k) columns).
Proof.
  induction columns as [|c columns IH] using rev_ind; [reflexivity|].
  rewrite cols_lower_snoc, filter_app, filter_cons, filter_nil.
  destruct (decide (lower c = k)) as [Hk|Hk].
  - rewrite Hk, lookup_insert_eq, last_snoc. reflexivity.
  - rewrite lookup_insert_ne by exact Hk. rewrite app_nil_r. exact IH.
Qed.

Lemma find_col_lookup (m : gmap string string) (candidates : list string) :
  find_col lower m candidates = head (omap (fun cand => m !! lower cand) candidates).
Proof.
  induction candidates as [|c rest IH]; simpl; [reflexivity|].
  destruct (m !! lower c); [reflexivity|exact IH].
Qed.

Lemma find_col_column (columns candidates : list string) (col : string) :
  find_col lower (cols_lower lower columns) candidates = Some col -> col ∈ columns.
Proof.
  induction candidates as [|c rest IH]; simpl; [discriminate|].
  destruct (cols_lower lower columns !! lower c) as [col'|] eqn:Hc; [|exact IH].
  intros [= <-]. rewrite lookup_cols_lower in Hc.
  apply last_Some in Hc as [l' Hc].
  assert (Hin : col' ∈ filter (fun c0 => lower c0 = lower c) columns)
    by (rewrite Hc; apply elem_of_app; right; left).
  apply list_elem_of_filter in Hin as [_ Hin]. exact Hin.
Qed.

End ColumnFacts.

Section ColumnProperties.
Variable lower : string -> string.

(** What [find_col] returns.  On the dict built from the columns of the
    frame, [find_col] goes through the candidates in order and, for the
    first one that names a column when case is ignored, returns the column
    itself as the frame spells it, the last one if several columns have
    that name up to case; it returns [None] when no candidate names a
    column. *)
Theorem find_col_first_match (columns candidates : list string) :
  find_col lower (cols_lower lower columns) candidates =
  head (omap (fun cand => last (filter (fun c => lower c = lower cand) columns)) candidates).
Proof.
  rewrite find_col_lookup. f_equal.
  induction candidates as [|c rest IH]; simpl; [reflexivity|].
  rewrite <- lookup_cols_lower.
  destruct (cols_lower lower columns !! lower c); [f_equal|]; exact IH.
Qed.

(** A missing column.  [find_col] returns [None] exactly when no column
    of the frame has, in lower case, the lower-case name of a candidate. *)
Theorem find_col_none (columns candidates : list string) :
  find_col lower (cols_lower lower columns) candidates = None <->
  Forall (fun cand => Forall (fun c => lower c <> lower cand) columns) candidates.
Proof.
  induction candidates as [|cand rest IH]; simpl.
  - split; [constructor|reflexivity].
  - rewrite Forall_cons, <- IH.
    destruct (cols_lower lower columns !! lower cand) as [col|] eqn:Hc.
    + split; [discriminate|]. intros [Hall _]. exfalso.
      rewrite lookup_cols_lower in Hc. apply last_Some in Hc as [l' Hc].
      assert (Hin : col ∈ filter (fun c => lower c = lower cand) columns)
        by (rewrite Hc; apply elem_of_app; right; left).
      apply list_elem_of_filter in Hin as [Hlow Hin].
      rewrite Forall_forall in Hall. exact (Hall col Hin Hlow).
    + split; [|intros [_ Hrest]; exact Hrest]. intros Hrest. split; [|exact Hrest].
      rewrite lookup_cols_lower in Hc. apply last_None in Hc.
      apply Forall_forall. intros c Hin Hlow.
      assert (Hc' : c ∈ filter (fun c0 => lower c0 = lower cand) columns)
        by (apply list_elem_of_filter; auto).
      rewrite Hc in Hc'. inversion Hc'.
Qed.

(** The columns [read_and_normalize] resolves are columns of the frame. *)
Theorem resolved_columns_exist (columns : list string) :
  Forall (fun col => col ∈ columns) (omap id (resolved (resolve_columns lower columns))).
Proof.
  apply Forall_forall. intros col Hcol.
  apply list_elem_of_omap in Hcol as (o & Ho & Hsome). simpl in Hsome. subst o.
  unfold resolved, resolve_columns in Ho. cbn [col_order col_store col_sku col_qty col_zone
    col_bin col_binrank col_priority col_weight col_fragile col_cutoff] in Ho.
  repeat (apply elem_of_cons in Ho as [Ho|Ho];
          [symmetry in Ho; eapply find_col_column; exact Ho|]).
  inversion Ho.
Qed.

End ColumnProperties.


(** ** No bin is sealed early *)

Section SealingFacts.
Context {F : Type} `{FloatOps F}.
Implicit Types (s : State F) (row : Row F) (rows : list (SummaryRow F)).
Variable now : nat -> string.
Variables (zone_ : string) (fragile_ : bool).

(** An iteration that retries leaves a bin that takes no unit of the row. *)
Lemma retries_sealed row remaining s :
  0 < remaining -> retries fragile_ row remaining s ->
  sealed_for (flushed_row now zone_ fragile_ s) (_weight row).
Proof.
  intros Hpos Hretry. unfold sealed_for. cbn [total_units total_weight flushed_row].
  rewrite (weight_cap_type fragile_) by reflexivity.
  destruct Hretry as [Hg|(mbw & Hmbw & Hmin)].
  - apply orb_true_iff in Hg as [Hu|Hw]; [left|right; left; exact Hw].
    apply Z.leb_le in Hu. unfold cap_units in Hu. lia.
  - destruct (Z.le_gt_cases (cap_units - cur_units s) 0) as [Hu|Hu];
      [left; unfold cap_units in Hu; lia|].
    right. right. unfold max_by_weight, cap_weight in Hmbw.
    destruct (fltb (f_of_int 0) (_weight row)) eqn:Hw; [|injection Hmbw as <-; lia].
    split; [reflexivity|]. exists mbw. split; [exact Hmbw|lia].
Qed.

Lemma greedy_snoc rows files r f s :
  chain_ok rows files s -> f.2 = items s -> greedy (rows ++ [r]) (files ++ [f]).
Proof.
  intros (Hlen & Hgreedy & Hopen) Hf i r' f' Hr' Hf'.
  destruct (decide (S i < length files)%nat) as [Hlt|Hge].
  - rewrite lookup_app_l in Hr' by lia. rewrite lookup_app_l in Hf' by lia.
    exact (Hgreedy i r' f' Hr' Hf').
  - assert (Hi : S i = length files).
    { apply lookup_lt_Some in Hf'. rewrite length_app in Hf'. simpl in Hf'. lia. }
    rewrite lookup_app_r in Hf' by lia.
    replace (S i - length files)%nat with O in Hf' by lia. injection Hf' as <-.
    rewrite lookup_app_l in Hr' by lia.
    rewrite Hf. apply Hopen. rewrite last_lookup.
    replace (Nat.pred (length rows)) with i by lia. exact Hr'.
Qed.

(** The flush of a bin that holds lines keeps the chain. *)
Lemma chain_ok_flush rows files s :
  chain_ok rows files s -> items s <> [] ->
  chain_ok (rows ++ [flushed_row now zone_ fragile_ s])
           (files ++ [flushed_file now zone_ s]) (flush now zone_ fragile_ s).
Proof.
  intros Hchain Hne. split; [|split].
  - destruct Hchain as [Hlen _]. rewrite !length_app, Hlen. reflexivity.
  - eapply greedy_snoc; [exact Hchain|reflexivity].
  - intros r _. rewrite items_flush. exact I.
Qed.

Lemma chain_ok_add rows files row take s :
  chain_ok rows files s -> pending (_weight row) rows s ->
  chain_ok rows files (add_line row take s).
Proof.
  intros (Hlen & Hgreedy & Hopen) Hpend. split; [exact Hlen|]. split; [exact Hgreedy|].
  intros r Hr. cbn [items add_line].
  destruct (items s) as [|p l] eqn:Hi; simpl.
  - apply (Hpend Hi r Hr).
  - specialize (Hopen r Hr). exact Hopen.
Qed.

(** One row through the loop.  When the loop returns it has added a line,
    or it did not run. *)
Lemma fill_greedy s0 row fuel : forall remaining s rows files,
  emitted_since s0 s rows files -> chain_ok rows files s ->
  pending (_weight row) rows s ->
  let o := fill now zone_ fragile_ fuel row remaining s in
  exists rows' files',
    emitted_since s0 (final o) rows' files' /\ chain_ok rows' files' (final o) /\
    match o with
    | Done s' => items s' <> [] \/ (remaining <= 0 /\ s' = s /\ rows' = rows)
    | _ => True
    end.
Proof.
  induction fuel as [|fuel IH]; intros remaining s rows files Hsince Hchain Hpend; cbn [fill].
  - destruct (Z.leb_spec remaining 0); exists rows, files; cbn [final]; auto 6.
  - destruct (Z.leb_spec remaining 0) as [Hle|Hpos];
      [exists rows, files; cbn [final]; auto 6|].
    assert (Hflush : retries fragile_ row remaining s ->
      let o := fill now zone_ fragile_ fuel row remaining (flush now zone_ fragile_ s) in
      exists rows' files',
        emitted_since s0 (final o) rows' files' /\ chain_ok rows' files' (final o) /\
        match o with
        | Done s' => items s' <> [] \/ (remaining <= 0 /\ s' = s /\ rows' = rows)
        | _ => True
        end).
    { intros Hretry.
      destruct (items s) as [|p l] eqn:Hi.
      - rewrite (flush_empty_bin now zone_ fragile_ s Hi).
        exact (IH remaining s rows files Hsince Hchain Hpend).
      - destruct Hsince as [Hs Hw].
        destruct (IH remaining (flush now zone_ fragile_ s)
                    (rows ++ [flushed_row now zone_ fragile_ s])
                    (files ++ [flushed_file now zone_ s]))
          as (rows' & files' & Hsince' & Hchain' & Hexit).
        + unfold flush. rewrite Hi. split; simpl.
          * rewrite Hs, <- app_assoc. reflexivity.
          * rewrite Hw, <- app_assoc, <- Hi. reflexivity.
        + apply chain_ok_flush; [exact Hchain|]. rewrite Hi. discriminate.
        + intros _ r Hr. rewrite last_snoc in Hr. injection Hr as <-.
          apply retries_sealed with (remaining := remaining); assumption.
        + exists rows', files'. split; [exact Hsince'|]. split; [exact Hchain'|].
          destruct (fill now zone_ fragile_ fuel row remaining (flush now zone_ fragile_ s));
            try exact I.
          destruct Hexit as [Hne|(Hle & _)]; [left; exact Hne|lia]. }
    destruct ((cap_units - cur_units s <=? 0)
                || fleb (fsub (cap_weight fragile_) (cur_weight s)) (f_of_int 0)) eqn:Hguard;
      [apply Hflush; left; exact Hguard|].
    destruct (max_by_weight fragile_ row remaining s) as [mbw|] eqn:Hmbw;
      [|exists rows, files; cbn [final]; auto].
    destruct (Z.leb_spec (Z.min (Z.min remaining (cap_units - cur_units s)) mbw) 0)
      as [Hle|Hlt]; [apply Hflush; right; exists mbw; split; assumption|].
    set (take := Z.min (Z.min remaining (cap_units - cur_units s)) mbw) in *.
    assert (Hadd : chain_ok rows files (add_line row take s))
      by (apply chain_ok_add; assumption).
    assert (Hne : items (add_line row take s) <> []).
    { cbn [items add_line]. intros Hnil. apply app_eq_nil in Hnil as [_ Hnil]. discriminate. }
    match goal with
    | |- context [if fleb ?a ?b then fill _ _ _ _ _ _ _ else _] => destruct (fleb a b)
    end; [|exists rows, files; cbn [final]; auto].
    destruct (IH (remaining - take) (add_line row take s) rows files)
      as (rows' & files' & Hsince' & Hchain' & Hexit);
      [exact Hsince|exact Hadd|intros Hnil; contradiction|].
    exists rows', files'. split; [exact Hsince'|]. split; [exact Hchain'|].
    destruct (fill now zone_ fragile_ fuel row (remaining - take) (add_line row take s));
      try exact I.
    destruct Hexit as [Hne'|(_ & -> & _)]; left; assumption.
Qed.

(** Between two rows an empty bin means that nothing was emitted yet. *)
Lemma fill_rows_greedy s0 fuel : forall group s rows files,
  emitted_since s0 s rows files -> chain_ok rows files s ->
  (items s = [] -> rows = []) ->
  exists rows' files',
    emitted_since s0 (final (fill_rows now zone_ fragile_ fuel group s)) rows' files' /\
    chain_ok rows' files' (final (fill_rows now zone_ fragile_ fuel group s)).
Proof.
  induction group as [|row rest IH]; intros s rows files Hsince Hchain Hfresh; cbn [fill_rows].
  - exists rows, files. auto.
  - destruct (fill_greedy s0 row fuel (_qty row) s rows files Hsince Hchain)
      as (rows1 & files1 & Hsince1 & Hchain1 & Hexit).
    { intros Hnil r Hr. rewrite (Hfresh Hnil) in Hr. discriminate. }
    destruct (fill now zone_ fragile_ fuel row (_qty row) s) as [s1|e s1|s1]; cbn [final] in *;
      try (exists rows1, files1; split; assumption).
    apply (IH s1 rows1 files1 Hsince1 Hchain1).
    destruct Hexit as [Hne|(_ & -> & ->)]; [intros Hnil; contradiction|exact Hfresh].
Qed.

End SealingFacts.

Section SealingProperties.
Context {F : Type} `{FloatOps F}.

(** No bin is sealed early.  Of two picklists that a call of
    [process_zone] writes one after the other, the first takes no unit of
    the first line of the second, by the tests of the fill loop: it has
    reached the unit cap, or [cap - total_weight <= 0], or
    [int((cap - total_weight) / unit_weight) <= 0] for the unit weight of
    that line. *)
Theorem greedy_sealing now zone_ fragile_ fuel (group : list (Row F)) (s : State F) :
  exists rows files,
    emitted_since s (final (process_zone now zone_ fragile_ fuel group s)) rows files /\
    greedy rows files.
Proof.
  unfold process_zone.
  destruct (fill_rows_greedy now zone_ fragile_ (enter s) fuel group (enter s) [] [])
    as (rows & files & Hsince & Hchain).
  - split; symmetry; apply app_nil_r.
  - split; [reflexivity|]. split; [intros i r f Hr; inversion Hr|intros r Hr; inversion Hr].
  - reflexivity.
  - destruct (fill_rows now zone_ fragile_ fuel group (enter s)) as [s1|e s1|s1];
      cbn [final] in *; try (exists rows, files; split; [exact Hsince|apply Hchain]).
    destruct (items s1) as [|p l] eqn:Hi.
    + rewrite (flush_empty_bin now zone_ fragile_ s1 Hi).
      exists rows, files. split; [exact Hsince|apply Hchain].
    + exists (rows ++ [flushed_row now zone_ fragile_ s1]),
             (files ++ [flushed_file now zone_ s1]).
      destruct Hsince as [Hs Hw]. split.
      * unfold flush. rewrite Hi. split; simpl.
        -- rewrite Hs, <- app_assoc. reflexivity.
        -- rewrite Hw, <- app_assoc, <- Hi. reflexivity.
      * eapply greedy_snoc; [exact Hchain|reflexivity].
Qed.

End SealingProperties.

(** ** Rounding to nearest, ties to even *)

Section PowerFacts.


Lemma bpow_gt_0 e : (0 < bpow e)%R.
Proof. apply powerRZ_lt. lra. Qed.

Lemma bpow_plus a b : bpow (a + b) = (bpow a * bpow b)%R.
Proof. apply powerRZ_add. lra. Qed.

Lemma bpow_0 : bpow 0 = 1%R.
Proof. reflexivity. Qed.

Lemma bpow_1 : bpow 1 = 2%R.
Proof. unfold bpow. simpl. lra. Qed.

Lemma bpow_succ a : bpow (a + 1) = (2 * bpow a)%R.
Proof. rewrite bpow_plus, bpow_1. lra. Qed.

Lemma bpow_IZR k : 0 <= k -> bpow k = IZR (2 ^ k).
Proof.
  intros Hk. pattern k. apply natlike_ind; [reflexivity| |exact Hk].
  intros x Hx IH. unfold Z.succ. rewrite bpow_succ, IH, Z.pow_add_r by lia.
  change (2 ^ 1) with 2. rewrite mult_IZR. lra.
Qed.

Lemma bpow_le a b : a <= b -> (bpow a <= bpow b)%R.
Proof.
  intros H. replace b with (a + (b - a)) by lia.
  rewrite bpow_plus, (bpow_IZR (b - a)) by lia.
  assert (0 < 2 ^ (b - a)) by (apply Z.pow_pos_nonneg; lia).
  assert (1 <= IZR (2 ^ (b - a)))%R by (apply IZR_le; lia).
  pose proof (bpow_gt_0 a). nra.
Qed.

Lemma bpow_lt_2 a b : a < b -> (2 * bpow a <= bpow b)%R.
Proof. intros H. rewrite <- bpow_succ. apply bpow_le. lia. Qed.

Lemma bpow_split a b : a <= b -> bpow b = (IZR (2 ^ (b - a)) * bpow a)%R.
Proof.
  intros H. rewrite <- bpow_IZR by lia. rewrite <- bpow_plus. f_equal. lia.
Qed.

End PowerFacts.

(** *** The number of digits of a mantissa *)

Section DigitFacts.


Lemma digits2_pos_bounds p :
  2 ^ (Z.pos (digits2_pos p) - 1) <= Z.pos p < 2 ^ Z.pos (digits2_pos p).
Proof.
  induction p as [p IH|p IH|]; simpl digits2_pos.
  - rewrite Pos2Z.inj_succ, Pos2Z.inj_xI.
    set (d := Z.pos (digits2_pos p)) in *.
    assert (Hd : 0 < d) by (unfold d; lia). clearbody d.
    replace (Z.succ d - 1) with d by lia.
    replace (2 ^ Z.succ d) with (2 * 2 ^ d) by (rewrite Z.pow_succ_r; lia).
    replace (2 ^ d) with (2 * 2 ^ (d - 1)) in *
      by (rewrite <- Z.pow_succ_r by lia; f_equal; lia).
    generalize dependent (2 ^ (d - 1)). intros; lia.
  - rewrite Pos2Z.inj_succ. change (Z.pos p~0) with (2 * Z.pos p).
    set (d := Z.pos (digits2_pos p)) in *.
    assert (Hd : 0 < d) by (unfold d; lia). clearbody d.
    replace (Z.succ d - 1) with d by lia.
    replace (2 ^ Z.succ d) with (2 * 2 ^ d) by (rewrite Z.pow_succ_r; lia).
    replace (2 ^ d) with (2 * 2 ^ (d - 1)) in *
      by (rewrite <- Z.pow_succ_r by lia; f_equal; lia).
    generalize dependent (2 ^ (d - 1)). intros; lia.
  - simpl. lia.
Qed.

Lemma Zdigits2_bounds m :
  0 < m -> 0 < Zdigits2 m /\ 2 ^ (Zdigits2 m - 1) <= m < 2 ^ Zdigits2 m.
Proof.
  destruct m as [|p|p]; try lia. intros _. simpl. split; [lia|apply digits2_pos_bounds].
Qed.

Lemma pow2_lt_inv a b : 0 <= b -> 2 ^ a < 2 ^ b -> a < b.
Proof.
  intros Hb H. destruct (Z.lt_ge_cases a b) as [|Hge]; [assumption|].
  exfalso. assert (2 ^ b <= 2 ^ a) by (apply Z.pow_le_mono_r; lia). lia.
Qed.

Lemma pow2_pos a : 0 <= a -> 0 < 2 ^ a.
Proof. intros. apply Z.pow_pos_nonneg; lia. Qed.

(** Digits from bounds. *)
Lemma Zdigits2_ge m k : 0 <= k -> 2 ^ k <= m -> k < Zdigits2 m.
Proof.
  intros Hk H. assert (0 < m) by (pose proof (pow2_pos k Hk); lia).
  destruct (Zdigits2_bounds m) as (Hd & _ & Hu); [assumption|].
  apply pow2_lt_inv; lia.
Qed.

Lemma Zdigits2_le m k : 0 <= k -> 0 <= m < 2 ^ k -> Zdigits2 m <= k.
Proof.
  intros Hk [H0 H]. destruct (Z.eq_dec m 0) as [->|Hne]; [simpl; lia|].
  destruct (Zdigits2_bounds m) as (Hd & Hl & _); [lia|].
  assert (Zdigits2 m - 1 < k) by (apply pow2_lt_inv; lia). lia.
Qed.

End DigitFacts.

(** *** Shifting a mantissa to the right *)

Section ShiftFacts.


Lemma IZR_xI p : IZR (Z.pos p~1) = (2 * IZR (Z.pos p) + 1)%R.
Proof. change (Z.pos p~1) with (2 * Z.pos p + 1). rewrite plus_IZR, mult_IZR. reflexivity. Qed.

Lemma IZR_xO p : IZR (Z.pos p~0) = (2 * IZR (Z.pos p))%R.
Proof. change (Z.pos p~0) with (2 * Z.pos p). rewrite mult_IZR. reflexivity. Qed.

Lemma shr_1_spec mrs w :
  0 <= shr_m mrs -> located (shr_m mrs) (loc_of_shr_record mrs) w ->
  0 <= shr_m (shr_1 mrs) /\ shr_m (shr_1 mrs) = shr_m mrs / 2 /\
  located (shr_m (shr_1 mrs)) (loc_of_shr_record (shr_1 mrs)) (w / 2).
Proof.
  destruct mrs as [m r s]. simpl shr_m. intros Hm Hloc.
  destruct m as [|p|p]; [| |lia].
  - destruct r, s; simpl in *; repeat split; try lia; try lra.
  - destruct p as [p|p|].
    + assert (Hdiv : Z.pos p~1 / 2 = Z.pos p).
      { change (Z.pos p~1) with (2 * Z.pos p + 1). symmetry. apply Z.div_unique with 1; lia. }
      rewrite Hdiv. pose proof (IZR_xI p) as Hx.
      destruct r, s; simpl in *; repeat split; try lia; lra.
    + assert (Hdiv : Z.pos p~0 / 2 = Z.pos p).
      { change (Z.pos p~0) with (2 * Z.pos p). symmetry. apply Z.div_unique with 0; lia. }
      rewrite Hdiv. pose proof (IZR_xO p) as Hx.
      destruct r, s; simpl in *; repeat split; try lia; lra.
    + destruct r, s; simpl in *; repeat split; try lia; lra.
Qed.

Lemma iter_shr_spec p : forall mrs w,
  0 <= shr_m mrs -> located (shr_m mrs) (loc_of_shr_record mrs) w ->
  0 <= shr_m (SpecFloat.iter_pos shr_1 p mrs) /\
  shr_m (SpecFloat.iter_pos shr_1 p mrs) = shr_m mrs / 2 ^ Z.pos p /\
  located (shr_m (SpecFloat.iter_pos shr_1 p mrs)) (loc_of_shr_record (SpecFloat.iter_pos shr_1 p mrs))
          (w / IZR (2 ^ Z.pos p)).
Proof.
  induction p as [p IH|p IH|]; intros mrs w Hm Hloc; simpl SpecFloat.iter_pos.
  - destruct (shr_1_spec mrs w Hm Hloc) as (H0 & H1 & H2).
    destruct (IH _ _ H0 H2) as (H3 & H4 & H5).
    destruct (IH _ _ H3 H5) as (H6 & H7 & H8).
    assert (Hp : 0 < 2 ^ Z.pos p) by (apply pow2_pos; lia).
    assert (Hpow : 2 ^ Z.pos p~1 = 2 * 2 ^ Z.pos p * 2 ^ Z.pos p).
    { change (Z.pos p~1) with (2 * Z.pos p + 1). replace (2 * Z.pos p + 1) with (1 + Z.pos p + Z.pos p) by lia.
      rewrite !Z.pow_add_r by lia. reflexivity. }
    split; [exact H6|]. split.
    + rewrite H7, H4, H1, Hpow, !Z.div_div by lia. f_equal. ring.
    + rewrite Hpow, !mult_IZR.
      assert (0 < IZR (2 ^ Z.pos p))%R by (apply IZR_lt; lia).
      replace (w / (2 * IZR (2 ^ Z.pos p) * IZR (2 ^ Z.pos p)))%R
        with (w / 2 / IZR (2 ^ Z.pos p) / IZR (2 ^ Z.pos p))%R by (field; lra).
      exact H8.
  - destruct (IH _ _ Hm Hloc) as (H3 & H4 & H5).
    destruct (IH _ _ H3 H5) as (H6 & H7 & H8).
    assert (Hp : 0 < 2 ^ Z.pos p) by (apply pow2_pos; lia).
    assert (Hpow : 2 ^ Z.pos p~0 = 2 ^ Z.pos p * 2 ^ Z.pos p).
    { change (Z.pos p~0) with (2 * Z.pos p). replace (2 * Z.pos p) with (Z.pos p + Z.pos p) by lia.
      rewrite !Z.pow_add_r by lia. reflexivity. }
    split; [exact H6|]. split.
    + rewrite H7, H4, Hpow, !Z.div_div by lia. f_equal.
    + rewrite Hpow, !mult_IZR.
      assert (0 < IZR (2 ^ Z.pos p))%R by (apply IZR_lt; lia).
      replace (w / (IZR (2 ^ Z.pos p) * IZR (2 ^ Z.pos p)))%R
        with (w / IZR (2 ^ Z.pos p) / IZR (2 ^ Z.pos p))%R by (field; lra).
      exact H8.
  - change (2 ^ 1) with 2. apply shr_1_spec; assumption.
Qed.

Lemma loc_of_shr_record_of_loc m l :
  loc_of_shr_record (shr_record_of_loc m l) = l /\ shr_m (shr_record_of_loc m l) = m.
Proof. destruct l as [|[ | | ]]; split; reflexivity. Qed.

(** [shr] by [n] bits: the mantissa is divided by [2 ^ n], the position of
    the value follows. *)
Lemma shr_spec m l e n w :
  0 <= m -> located m l w ->
  let '(mrs, e') := shr (shr_record_of_loc m l) e n in
  e' = e + Z.max 0 n /\ 0 <= shr_m mrs /\ shr_m mrs = m / 2 ^ Z.max 0 n /\
  located (shr_m mrs) (loc_of_shr_record mrs) (w / IZR (2 ^ Z.max 0 n)).
Proof.
  intros Hm Hloc. destruct (loc_of_shr_record_of_loc m l) as [Hl Hsm].
  assert (Hsame : forall k, k = 0 ->
    e = e + k /\ 0 <= shr_m (shr_record_of_loc m l) /\
    shr_m (shr_record_of_loc m l) = m / 2 ^ k /\
    located (shr_m (shr_record_of_loc m l))
            (loc_of_shr_record (shr_record_of_loc m l)) (w / IZR (2 ^ k))).
  { intros k ->. rewrite Hl, Hsm, Z.pow_0_r, Z.div_1_r.
    split; [lia|]. split; [exact Hm|]. split; [reflexivity|].
    replace (w / 1)%R with w by field. exact Hloc. }
  destruct n as [|p|p]; unfold shr.
  - apply Hsame. reflexivity.
  - change (Z.max 0 (Z.pos p)) with (Z.pos p).
    destruct (iter_shr_spec p (shr_record_of_loc m l) w) as (H0 & H1 & H2).
    + rewrite Hsm. exact Hm.
    + rewrite Hl, Hsm. exact Hloc.
    + rewrite Hsm in H1. split; [reflexivity|]. split; [exact H0|]. split; assumption.
  - apply Hsame. reflexivity.
Qed.

(** *** The rounding step *)


Lemma located_round m0 l w :
  located m0 l w ->
  (IZR m0 <= w < IZR m0 + 1)%R /\
  (round_nearest_even m0 l = m0 \/ round_nearest_even m0 l = m0 + 1) /\
  nearest_even w (round_nearest_even m0 l).
Proof.
  unfold nearest_even. destruct l as [|[ | | ]]; simpl; intros Hloc.
  - subst w. split; [lra|]. split; [left; reflexivity|]. split; [lra|].
    intros [H|H]; lra.
  - destruct (Z.even m0) eqn:Heven.
    + subst w. split; [lra|]. split; [left; reflexivity|]. split; [lra|].
      intros _. exact Heven.
    + subst w. rewrite plus_IZR. split; [lra|]. split; [right; reflexivity|].
      split; [lra|].
      intros _. rewrite Z.add_1_r, Z.even_succ, <- Z.negb_even, Heven. reflexivity.
  - split; [lra|]. split; [left; reflexivity|]. split; [lra|]. intros [H|H]; lra.
  - rewrite plus_IZR. split; [lra|]. split; [right; reflexivity|]. split; [lra|].
    intros [H|H]; lra.
Qed.

End ShiftFacts.

Section RoundingFacts.
Variables prec emax : Z.
Hypothesis Hprec : 1 < prec.
Hypothesis Hemax : prec < emax.

Local Abbreviation emin := (SpecFloat.emin prec emax).
Local Abbreviation fexp := (SpecFloat.fexp prec emax).

Lemma emin_lt : emin < emax - prec.
Proof. unfold SpecFloat.emin. lia. Qed.

Lemma pow_prec : 2 ^ prec = 2 * 2 ^ (prec - 1).
Proof. rewrite <- Z.pow_succ_r by lia. f_equal. lia. Qed.

Lemma Zdigits2_pow_prec : Zdigits2 (2 ^ prec) = prec + 1.
Proof.
  apply Z.le_antisymm.
  - apply Zdigits2_le; [lia|]. split; [apply Z.pow_nonneg; lia|].
    apply Z.pow_lt_mono_r; lia.
  - assert (prec < Zdigits2 (2 ^ prec)) by (apply Zdigits2_ge; lia). lia.
Qed.

(** The rounding step of every operation. *)
Lemma round_aux_rounded M E l w :
  0 <= M -> (E <= emin \/ 2 ^ (prec - 1) <= M) -> located M l w ->
  rounded prec emax (w * bpow E) (binary_round_aux prec emax false M E l).
Proof.
  intros HM Hpre Hloc.
  assert (Hhalf : 0 < 2 ^ (prec - 1)) by (apply pow2_pos; lia).
  unfold binary_round_aux, shr_fexp.
  set (t := fexp (Zdigits2 M + E)).
  assert (Ht : E <= t /\ emin <= t).
  { unfold t, SpecFloat.fexp. split; [|lia]. destruct Hpre as [Hpre|Hpre]; [lia|].
    assert (prec - 1 < Zdigits2 M) by (apply Zdigits2_ge; lia). lia. }
  pose proof (shr_spec M l E (t - E) w HM Hloc) as H1.
  destruct (shr (shr_record_of_loc M l) E (t - E)) as [mrs1 e1].
  replace (Z.max 0 (t - E)) with (t - E) in H1 by lia.
  destruct H1 as (He1 & Hm1 & Hdiv1 & Hloc1).
  assert (He1' : e1 = t) by lia. clear He1.
  set (k := t - E) in *. assert (Hk : 0 <= k) by (unfold k; lia).
  assert (H2k : 0 < 2 ^ k) by (apply pow2_pos; lia).
  set (m0 := shr_m mrs1) in *.
  assert (Hcan : canonic prec emax m0 e1).
  { unfold canonic. split; [split; [exact Hm1|]|split; [lia|]].
    - rewrite Hdiv1. apply Z.div_lt_upper_bound; [lia|].
      destruct (Z.eq_dec M 0) as [->|HM0]; [nia|].
      destruct (Zdigits2_bounds M) as (Hd & _ & Hu); [lia|].
      assert (2 ^ Zdigits2 M <= 2 ^ (k + prec)).
      { apply Z.pow_le_mono_r; [lia|]. unfold k, t, SpecFloat.fexp. lia. }
      rewrite Z.pow_add_r in * by lia. lia.
    - intros Hgt. rewrite Hdiv1.
      assert (HM0 : 0 < M).
      { destruct (Z.eq_dec M 0) as [->|]; [|lia]. exfalso.
        unfold t, SpecFloat.fexp in He1'. simpl Zdigits2 in He1'. lia. }
      destruct (Zdigits2_bounds M) as (Hd & Hl & _); [lia|].
      assert (Hkd : k = Zdigits2 M - prec) by (unfold k, t, SpecFloat.fexp in *; lia).
      apply Z.div_le_lower_bound; [lia|].
      replace (Zdigits2 M - 1) with (k + (prec - 1)) in Hl by lia.
      rewrite Z.pow_add_r in Hl by lia. lia. }
  destruct (located_round m0 _ _ Hloc1) as (Hw & Hm & Hnear).
  set (m := round_nearest_even m0 (loc_of_shr_record mrs1)) in *.
  assert (Hrounds : rounds_to prec emax (w * bpow E) m e1).
  { exists m0, (w / IZR (2 ^ k))%R. split; [|auto].
    rewrite He1'. replace t with (E + k) by (unfold k; lia).
    rewrite bpow_plus, (bpow_IZR k) by lia.
    assert (0 < IZR (2 ^ k))%R by (apply IZR_lt; lia). field. lra. }
  assert (Hm2 : 0 <= m <= 2 ^ prec) by (destruct Hcan as ((? & ?) & _); lia).
  pose proof (shr_spec m loc_Exact e1 (fexp (Zdigits2 m + e1) - e1) (IZR m)
                (proj1 Hm2) eq_refl) as H2.
  destruct (shr (shr_record_of_loc m loc_Exact) e1 (fexp (Zdigits2 m + e1) - e1))
    as [mrs2 e2].
  destruct H2 as (He2 & _ & Hdiv2 & _).
  destruct (Z.eq_dec m (2 ^ prec)) as [Htop|Htop].
  - (* the mantissa overflows into the next binade *)
    assert (Hk2 : Z.max 0 (fexp (Zdigits2 m + e1) - e1) = 1).
    { rewrite Htop, Zdigits2_pow_prec. unfold SpecFloat.fexp.
      destruct Hcan as (_ & ? & _). lia. }
    rewrite Hk2 in *. change (2 ^ 1) with 2 in Hdiv2.
    assert (Hsm : shr_m mrs2 = 2 ^ (prec - 1)).
    { rewrite Hdiv2, Htop, pow_prec. rewrite Z.mul_comm, Z.div_mul; lia. }
    exists m, e1. split; [exact Hrounds|].
    rewrite Hsm. destruct (2 ^ (prec - 1)) as [|p|p] eqn:Hp; try lia.
    destruct (Z.leb_spec e2 (emax - prec)); simpl.
    + split; [lia|]. right. rewrite <- Hp. auto with zarith.
    + split; [lia|]. destruct (Z.ltb_spec m (2 ^ prec)); lia.
  - assert (Hk2 : Z.max 0 (fexp (Zdigits2 m + e1) - e1) = 0).
    { destruct Hcan as (_ & Hge & Hnorm).
      assert (Zdigits2 m <= prec) by (apply Zdigits2_le; lia).
      unfold SpecFloat.fexp. lia. }
    rewrite Hk2 in *. rewrite Z.pow_0_r, Z.div_1_r in Hdiv2.
    exists m, e1. split; [exact Hrounds|].
    rewrite Hdiv2. destruct m as [|p|p]; try lia.
    + reflexivity.
    + destruct (Z.leb_spec e2 (emax - prec)); simpl.
      * split; [lia|]. left. repeat split; lia.
      * split; [lia|]. destruct (Z.ltb_spec (Z.pos p) (2 ^ prec)); lia.
Qed.


(** *** Order *)

Lemma half_pos : (1 <= IZR (2 ^ (prec - 1)))%R.
Proof. apply IZR_le. pose proof (pow2_pos (prec - 1)). lia. Qed.

Lemma IZR_pow_prec : IZR (2 ^ prec) = (2 * IZR (2 ^ (prec - 1)))%R.
Proof. rewrite pow_prec, mult_IZR. reflexivity. Qed.

(** Two canonical numbers are ordered as their exponents, then their
    mantissas. *)
Lemma canonic_lex_val a ea b eb :
  canonic prec emax a ea -> canonic prec emax b eb ->
  ea < eb \/ (ea = eb /\ a <= b) ->
  (IZR a * bpow ea <= IZR b * bpow eb)%R.
Proof.
  intros ((Ha0 & Ha) & Hea & _) ((Hb0 & Hb) & Heb & Hnb) [Hlt|[-> Hle]].
  - pose proof (bpow_lt_2 ea eb Hlt) as H2. pose proof (bpow_gt_0 ea) as Hp.
    pose proof half_pos as HP. pose proof IZR_pow_prec as Htop.
    assert (IZR a <= IZR (2 ^ prec))%R by (apply IZR_le; lia).
    assert (IZR (2 ^ (prec - 1)) <= IZR b)%R by (apply IZR_le; apply Hnb; lia).
    assert (0 <= IZR a)%R by (apply IZR_le; lia).
    set (P := IZR (2 ^ (prec - 1))) in *.
    apply Rle_trans with (2 * P * bpow ea)%R; [nra|].
    apply Rle_trans with (P * bpow eb)%R; nra.
  - apply Rmult_le_compat_r; [pose proof (bpow_gt_0 eb); lra|apply IZR_le; exact Hle].
Qed.

Lemma canonic_val_lex a ea b eb :
  canonic prec emax a ea -> canonic prec emax b eb -> 0 < a ->
  (IZR a * bpow ea <= IZR b * bpow eb)%R ->
  ea < eb \/ (ea = eb /\ a <= b).
Proof.
  intros Hca Hcb Ha Hle.
  destruct (Z.lt_trichotomy ea eb) as [Hlt|[Heq|Hgt]]; [left; exact Hlt| |].
  - right. split; [exact Heq|]. subst eb.
    apply le_IZR. pose proof (bpow_gt_0 ea). nra.
  - exfalso.
    destruct Hca as ((Ha0 & Hau) & Hea & Hna). destruct Hcb as ((Hb0 & Hbu) & Heb & _).
    pose proof (bpow_lt_2 eb ea Hgt) as H2. pose proof (bpow_gt_0 eb) as Hp.
    pose proof half_pos as HP. pose proof IZR_pow_prec as Htop.
    assert (IZR b + 1 <= IZR (2 ^ prec))%R by (rewrite <- plus_IZR; apply IZR_le; lia).
    assert (IZR (2 ^ (prec - 1)) <= IZR a)%R by (apply IZR_le; apply Hna; lia).
    assert (0 <= IZR b)%R by (apply IZR_le; lia).
    set (P := IZR (2 ^ (prec - 1))) in *.
    assert (2 * P * bpow eb <= IZR a * bpow ea)%R.
    { apply Rle_trans with (P * bpow ea)%R; nra. }
    nra.
Qed.

(** Rounding is monotone. *)
Lemma rounds_to_mono v1 m1 e1 v2 m2 e2 :
  rounds_to prec emax v1 m1 e1 -> rounds_to prec emax v2 m2 e2 -> (v1 <= v2)%R ->
  (IZR m1 * bpow e1 <= IZR m2 * bpow e2)%R.
Proof.
  intros (a & w1 & Hv1 & Hca & Hw1 & Hm1 & Hn1 & Ht1)
         (b & w2 & Hv2 & Hcb & Hw2 & Hm2 & Hn2 & Ht2) Hle.
  pose proof half_pos as HP. pose proof IZR_pow_prec as Htop.
  pose proof (bpow_gt_0 e1) as Hp1. pose proof (bpow_gt_0 e2) as Hp2.
  destruct Hca as ((Ha0 & Hau) & Hea & Hna). destruct Hcb as ((Hb0 & Hbu) & Heb & Hnb).
  assert (HaR : (0 <= IZR a)%R) by (apply IZR_le; lia).
  assert (HbR : (0 <= IZR b)%R) by (apply IZR_le; lia).
  assert (HauR : (IZR a + 1 <= IZR (2 ^ prec))%R) by (rewrite <- plus_IZR; apply IZR_le; lia).
  assert (HbuR : (IZR b + 1 <= IZR (2 ^ prec))%R) by (rewrite <- plus_IZR; apply IZR_le; lia).
  set (P := IZR (2 ^ (prec - 1))) in *.
  destruct (Z.lt_trichotomy e1 e2) as [Hlt|[Heq|Hgt]].
  - (* the second number is in a higher binade *)
    pose proof (bpow_lt_2 e1 e2 Hlt) as H2.
    assert (P <= IZR b)%R by (apply IZR_le; apply Hnb; lia).
    assert (IZR m1 <= IZR a + 1)%R
      by (destruct Hm1 as [->| ->]; [lra|rewrite plus_IZR; lra]).
    assert (IZR b <= IZR m2)%R
      by (destruct Hm2 as [->| ->]; [lra|rewrite plus_IZR; lra]).
    apply Rle_trans with (2 * P * bpow e1)%R; [nra|].
    apply Rle_trans with (P * bpow e2)%R; nra.
  - subst e2. apply Rmult_le_compat_r; [lra|].
    assert (Hw : (w1 <= w2)%R) by (subst v1 v2; nra).
    apply IZR_le. destruct (Z.le_gt_cases m1 m2) as [|Hgt]; [assumption|exfalso].
    assert (IZR m2 + 1 <= IZR m1)%R by (rewrite <- plus_IZR; apply IZR_le; lia).
    assert (Heven1 : Z.even m1 = true) by (apply Ht1; left; lra).
    assert (Heven2 : Z.even m2 = true) by (apply Ht2; right; lra).
    assert (Hm : m1 = m2 + 1).
    { apply eq_IZR. rewrite plus_IZR. lra. }
    rewrite Hm, Z.add_1_r, Z.even_succ, <- Z.negb_even, Heven2 in Heven1. discriminate.
  - exfalso.
    pose proof (bpow_lt_2 e2 e1 Hgt) as H2.
    assert (P <= IZR a)%R by (apply IZR_le; apply Hna; lia).
    assert (2 * P * bpow e2 <= v1)%R.
    { subst v1. apply Rle_trans with (P * bpow e1)%R; nra. }
    assert (v2 < 2 * P * bpow e2)%R by (subst v2; nra).
    lra.
Qed.

Lemma rounds_to_normal v m e :
  rounds_to prec emax v m e ->
  canonic prec emax (normal_m prec m) (normal_e prec m e) /\
  (IZR (normal_m prec m) * bpow (normal_e prec m e) = IZR m * bpow e)%R /\
  (0 < m -> 0 < normal_m prec m).
Proof.
  intros (a & w & Hv & ((Ha0 & Hau) & Hea & Hna) & Hw & Hm & _).
  pose proof (pow2_pos (prec - 1)) as Hhalf. pose proof pow_prec as Hpp.
  unfold normal_m, normal_e, canonic. destruct (Z.ltb_spec m (2 ^ prec)) as [Hlt|Hge].
  - split; [|split; [reflexivity|auto]].
    split; [lia|]. split; [lia|]. intros Hgt. specialize (Hna Hgt). lia.
  - assert (Hm' : m = 2 ^ prec) by lia.
    split; [|split; [|lia]]; [split; [lia|split; [lia|intros _; lia]]|].
    rewrite Hm', bpow_succ, IZR_pow_prec. ring.
Qed.

Lemma packs_finite m e p ef :
  packs prec emax m e (S754_finite false p ef) ->
  Z.pos p = normal_m prec m /\ ef = normal_e prec m e /\ ef <= emax - prec.
Proof.
  simpl. unfold normal_m, normal_e. intros (Hef & [(Hp & He & Hlt)|(Hm & Hp & He)]).
  - destruct (Z.ltb_spec m (2 ^ prec)); [auto|lia].
  - destruct (Z.ltb_spec m (2 ^ prec)); [lia|auto].
Qed.

Lemma packs_infinity m e :
  packs prec emax m e (S754_infinity false) -> 0 < m /\ emax - prec < normal_e prec m e.
Proof. simpl. unfold normal_e. auto. Qed.

Lemma pos_compare_cont_le a b : Z.pos a <= Z.pos b -> Pos.compare_cont Eq a b <> Gt.
Proof. intros H. change (Pos.compare_cont Eq a b) with (Pos.compare a b). apply Pos.compare_le_iff. lia. Qed.

(** Monotone rounding, as the float comparison sees it. *)
Lemma rounded_mono v1 r1 v2 r2 :
  rounded prec emax v1 r1 -> rounded prec emax v2 r2 -> (v1 <= v2)%R ->
  SFleb r1 r2 = true.
Proof.
  intros (m1 & e1 & Hr1 & Hp1) (m2 & e2 & Hr2 & Hp2) Hle.
  pose proof (rounds_to_mono _ _ _ _ _ _ Hr1 Hr2 Hle) as Hval.
  destruct (rounds_to_normal _ _ _ Hr1) as (Hc1 & Hv1 & Hpos1).
  destruct (rounds_to_normal _ _ _ Hr2) as (Hc2 & Hv2 & Hpos2).
  rewrite <- Hv1, <- Hv2 in Hval.
  pose proof half_pos as HP. pose proof IZR_pow_prec as Htop.
  assert (Hbig : forall m e, canonic prec emax (normal_m prec m) (normal_e prec m e) ->
            0 < normal_m prec m -> emax - prec < normal_e prec m e ->
            (bpow emax <= IZR (normal_m prec m) * bpow (normal_e prec m e))%R).
  { intros m e (_ & He & Hn) Hm He'.
    assert (IZR (2 ^ (prec - 1)) <= IZR (normal_m prec m))%R
      by (apply IZR_le; apply Hn; pose proof emin_lt; lia).
    assert (bpow (emax - prec + 1) <= bpow (normal_e prec m e))%R by (apply bpow_le; lia).
    assert (Hs : bpow emax = (IZR (2 ^ (prec - 1)) * bpow (emax - prec + 1))%R).
    { rewrite <- bpow_IZR, <- bpow_plus by lia. f_equal. lia. }
    rewrite Hs. pose proof (bpow_gt_0 (emax - prec + 1)). nra. }
  assert (Hsmall : forall m e, canonic prec emax (normal_m prec m) (normal_e prec m e) ->
            normal_e prec m e <= emax - prec ->
            (IZR (normal_m prec m) * bpow (normal_e prec m e) < bpow emax)%R).
  { intros m e ((Hm0 & Hmu) & _) He'.
    assert (IZR (normal_m prec m) + 1 <= IZR (2 ^ prec))%R
      by (rewrite <- plus_IZR; apply IZR_le; lia).
    assert (bpow (normal_e prec m e) <= bpow (emax - prec))%R by (apply bpow_le; lia).
    assert (Hs : bpow emax = (IZR (2 ^ prec) * bpow (emax - prec))%R).
    { rewrite <- bpow_IZR, <- bpow_plus by lia. f_equal. lia. }
    rewrite Hs. pose proof (bpow_gt_0 (normal_e prec m e)).
    assert (0 <= IZR (normal_m prec m))%R by (apply IZR_le; lia). nra. }
  destruct r1 as [s1| [|] | |[|] p1 ef1]; simpl in Hp1; try contradiction;
  destruct r2 as [s2| [|] | |[|] p2 ef2]; simpl in Hp2; try contradiction;
    try reflexivity.
  - (* infinity, zero *)
    exfalso. destruct Hp1 as [Hm1 He1]. fold (normal_e prec m1 e1) in He1. subst m2.
    pose proof (Hbig _ _ Hc1 (Hpos1 Hm1) He1). pose proof (bpow_gt_0 emax).
    rewrite Hv2 in Hval. simpl in Hval. lra.
  - (* infinity, finite *)
    exfalso. destruct Hp1 as [Hm1 He1]. fold (normal_e prec m1 e1) in He1.
    pose proof (Hbig _ _ Hc1 (Hpos1 Hm1) He1).
    destruct (packs_finite _ _ _ _ Hp2) as (_ & He2 & Hb2). rewrite He2 in Hb2.
    pose proof (Hsmall _ _ Hc2 Hb2). lra.
  - (* finite, zero *)
    exfalso. subst m2. destruct (packs_finite _ _ _ _ Hp1) as (Hq1 & _ & _).
    rewrite Hv2 in Hval. simpl in Hval.
    assert (0 < IZR (normal_m prec m1))%R by (apply IZR_lt; lia).
    pose proof (bpow_gt_0 (normal_e prec m1 e1)). nra.
  - (* finite, finite *)
    destruct (packs_finite _ _ _ _ Hp1) as (Hq1 & He1 & _).
    destruct (packs_finite _ _ _ _ Hp2) as (Hq2 & He2 & _).
    rewrite <- Hq1, <- He1 in Hc1, Hval. rewrite <- Hq2, <- He2 in Hc2, Hval.
    destruct (canonic_val_lex _ _ _ _ Hc1 Hc2 ltac:(lia) Hval) as [Hlt|[-> Hle']];
      unfold SFleb, SFcompare.
    + rewrite (proj2 (Z.compare_lt_iff _ _) Hlt). reflexivity.
    + rewrite Z.compare_refl.
      pose proof (pos_compare_cont_le _ _ Hle').
      destruct (Pos.compare_cont Eq p1 p2); [reflexivity|reflexivity|contradiction].
Qed.


(** *** Floats that are finite and not negative *)

Lemma bounded_canonic m e :
  bounded prec emax m e = true -> canonic prec emax (Z.pos m) e /\ e <= emax - prec.
Proof.
  unfold bounded, canonical_mantissa, SpecFloat.fexp. intros H.
  apply andb_true_iff in H as [Hc Hb]. apply Z.eqb_eq in Hc. apply Z.leb_le in Hb.
  pose proof (digits2_pos_bounds m) as [Hl Hu].
  set (d := Z.pos (digits2_pos m)) in *. assert (Hd : 0 < d) by (unfold d; lia).
  clearbody d. split; [|exact Hb]. unfold canonic. split; [split; [lia|]|split; [lia|]].
  - assert (2 ^ d <= 2 ^ prec) by (apply Z.pow_le_mono_r; lia). lia.
  - intros Hgt. assert (d = prec) by lia. subst d. exact Hl.
Qed.

Lemma rounded_zero s : rounded prec emax 0 (S754_zero s).
Proof.
  exists 0, emin. split; [|reflexivity].
  exists 0, 0%R. pose proof (pow2_pos prec). pose proof (pow2_pos (prec - 1)).
  split; [ring|]. split; [split; [lia|split; [lia|intros; lia]]|].
  split; [simpl; lra|]. split; [left; reflexivity|]. split; [simpl; lra|].
  intros _. reflexivity.
Qed.

Lemma rounded_canonic m e :
  canonic prec emax m e -> 0 < m -> e <= emax - prec ->
  forall p, Z.pos p = m -> rounded prec emax (IZR m * bpow e) (S754_finite false p e).
Proof.
  intros Hc Hm He p Hp. exists m, e. split.
  - exists m, (IZR m). split; [reflexivity|]. split; [exact Hc|]. split; [lra|].
    split; [left; reflexivity|]. split; [lra|]. intros [H|H]; lra.
  - simpl. split; [exact He|]. left. destruct Hc as ((_ & ?) & _). auto.
Qed.

(** A float is the rounding of its own value. *)
Lemma nnfin_rounded x : nnfin prec emax x -> rounded prec emax (SF2R x) x.
Proof.
  destruct x as [s|s| |[|] m e]; simpl; try contradiction; intros H.
  - apply rounded_zero.
  - destruct (bounded_canonic m e H) as [Hc He].
    apply rounded_canonic; [exact Hc|lia|exact He|reflexivity].
Qed.

Lemma nnfin_val x : nnfin prec emax x -> (0 <= SF2R x)%R.
Proof.
  destruct x as [s|s| |[|] m e]; simpl; try contradiction; intros _; [lra|].
  pose proof (bpow_gt_0 e). assert (0 < IZR (Z.pos m))%R by (apply IZR_lt; lia). nra.
Qed.

(** What the float comparison says of the values. *)
Lemma SFleb_val x y : nnfin prec emax x -> nnfin prec emax y -> SFleb x y = true -> (SF2R x <= SF2R y)%R.
Proof.
  intros Hx Hy Hle. pose proof (nnfin_val y Hy) as Hy0.
  destruct x as [sx|sx| |[|] mx ex]; simpl in Hx; try contradiction; [exact Hy0|].
  destruct y as [sy|sy| |[|] my ey]; simpl in Hy; try contradiction; [discriminate|].
  destruct (bounded_canonic _ _ Hx) as [Hcx _]. destruct (bounded_canonic _ _ Hy) as [Hcy _].
  simpl. apply canonic_lex_val; [exact Hcx|exact Hcy|].
  unfold SFleb, SFcompare in Hle.
  destruct (Z.compare_spec ex ey) as [Heq|Hlt|Hgt]; [|left; exact Hlt|discriminate].
  right. split; [exact Heq|].
  change (Pos.compare_cont Eq mx my) with (Pos.compare mx my) in Hle.
  destruct (Pos.compare_spec mx my); try discriminate; lia.
Qed.

Lemma SFltb_val x y : nnfin prec emax x -> nnfin prec emax y -> SFltb x y = true -> (SF2R x < SF2R y)%R.
Proof.
  intros Hx Hy Hlt.
  destruct x as [sx|sx| |[|] mx ex]; simpl in Hx; try contradiction;
  destruct y as [sy|sy| |[|] my ey]; simpl in Hy; try contradiction; try discriminate.
  - simpl. pose proof (bpow_gt_0 ey).
    assert (0 < IZR (Z.pos my))%R by (apply IZR_lt; lia). nra.
  - destruct (bounded_canonic _ _ Hx) as [Hcx _]. destruct (bounded_canonic _ _ Hy) as [Hcy _].
    simpl. apply Rnot_le_lt. intros Hge.
    destruct (canonic_val_lex _ _ _ _ Hcy Hcx ltac:(lia) Hge) as [Hl|[He Hm]];
      unfold SFltb, SFcompare in Hlt.
    + rewrite (proj2 (Z.compare_gt_iff _ _) Hl) in Hlt. discriminate.
    + subst ey. rewrite Z.compare_refl in Hlt.
      change (Pos.compare_cont Eq mx my) with (Pos.compare mx my) in Hlt.
      destruct (Pos.compare_spec mx my); try discriminate; lia.
Qed.

(** What [rounded] says of the shape of the result. *)
Lemma rounded_shape v r :
  rounded prec emax v r ->
  match r with
  | S754_zero _ | S754_finite false _ _ | S754_infinity false => True
  | _ => False
  end.
Proof.
  intros (m & e & _ & Hp). destruct r as [s|[|]| |[|] p ef]; simpl in *; auto.
Qed.

(** A rounding that is not an infinity is a float of the format. *)
Lemma rounded_finite v r :
  rounded prec emax v r -> (forall s, r <> S754_infinity s) -> nnfin prec emax r.
Proof.
  intros (m & e & Hr & Hp) Hfin.
  destruct r as [s|[|]| |[|] p ef]; simpl in Hp |- *; try contradiction; auto.
  - exfalso. apply (Hfin false). reflexivity.
  - destruct (rounds_to_normal _ _ _ Hr) as (((Hm0 & Hmu) & He & Hn) & _ & _).
    destruct (packs_finite _ _ _ _ Hp) as (Hq & Hef & Hb).
    rewrite <- Hq, <- Hef in *.
    unfold bounded, canonical_mantissa, SpecFloat.fexp.
    apply andb_true_iff. split; [|apply Z.leb_le; exact Hb]. apply Z.eqb_eq.
    pose proof (digits2_pos_bounds p) as [Hl Hu].
    assert (Hd : Z.pos (digits2_pos p) <= prec).
    { change (Z.pos (digits2_pos p)) with (Zdigits2 (Z.pos p)). apply Zdigits2_le; lia. }
    destruct (Z.eq_dec ef emin) as [->|Hne]; [lia|].
    assert (prec - 1 < Zdigits2 (Z.pos p)) by (apply Zdigits2_ge; [lia|apply Hn; lia]).
    simpl Zdigits2 in *. lia.
Qed.

(** The value of a rounding that is finite. *)
Lemma rounded_value v r m e :
  rounds_to prec emax v m e -> packs prec emax m e r -> nnfin prec emax r ->
  SF2R r = (IZR m * bpow e)%R.
Proof.
  intros Hr Hp Hfin.
  destruct r as [s|[|]| |[|] p ef]; simpl in Hp, Hfin |- *; try contradiction.
  - subst m. ring.
  - destruct (rounds_to_normal _ _ _ Hr) as (_ & Hv & _).
    destruct (packs_finite _ _ _ _ Hp) as (Hq & Hef & _).
    rewrite Hq, Hef. exact Hv.
Qed.


(** *** The operations *)

Lemma Pos_iter_xO mx d : Z.pos (Pos.iter xO mx d) = Z.pos mx * 2 ^ Z.pos d.
Proof.
  induction d as [|d IH] using Pos.peano_ind.
  - simpl. change (2 ^ 1) with 2. lia.
  - rewrite Pos.iter_succ, Pos2Z.inj_succ, Z.pow_succ_r by lia.
    change (Z.pos (Pos.iter xO mx d)~0) with (2 * Z.pos (Pos.iter xO mx d)).
    rewrite IH. ring.
Qed.

Lemma binary_round_rounded mx ex :
  rounded prec emax (IZR (Z.pos mx) * bpow ex) (binary_round prec emax false mx ex).
Proof.
  unfold binary_round, shl_align.
  pose proof (digits2_pos_bounds mx) as [Hl Hu].
  set (d := Z.pos (digits2_pos mx)) in *. assert (Hd : 0 < d) by (unfold d; lia).
  clearbody d.
  set (t := fexp (d + ex)).
  assert (Ht : t = Z.max (d + ex - prec) emin) by reflexivity. clearbody t.
  destruct (t - ex) as [|q|q] eqn:Hq.
  - replace (IZR (Z.pos mx) * bpow ex)%R with (IZR (Z.pos mx) * bpow ex)%R by reflexivity.
    apply round_aux_rounded; [lia| |reflexivity].
    destruct (Z.le_gt_cases ex emin); [left; assumption|right].
    assert (prec <= d) by lia.
    assert (2 ^ (prec - 1) <= 2 ^ (d - 1)) by (apply Z.pow_le_mono_r; lia). lia.
  - apply round_aux_rounded; [lia| |reflexivity].
    destruct (Z.le_gt_cases ex emin); [left; assumption|right].
    assert (prec <= d) by lia.
    assert (2 ^ (prec - 1) <= 2 ^ (d - 1)) by (apply Z.pow_le_mono_r; lia). lia.
  - assert (Hex : ex = t + Z.pos q) by lia.
    replace (IZR (Z.pos mx) * bpow ex)%R
      with (IZR (Z.pos (Pos.iter xO mx q)) * bpow t)%R.
    + apply round_aux_rounded; [lia| |reflexivity].
      destruct (Z.le_gt_cases t emin); [left; assumption|right].
      rewrite Pos_iter_xO.
      assert (Z.pos q = prec - d) by lia.
      replace (prec - 1) with ((d - 1) + Z.pos q) by lia.
      rewrite Z.pow_add_r by lia.
      apply Z.mul_le_mono_nonneg_r; [apply Z.pow_nonneg; lia|exact Hl].
    + rewrite Pos_iter_xO, mult_IZR, Hex, bpow_plus, (bpow_IZR (Z.pos q)) by lia. ring.
Qed.

Lemma binary_normalize_rounded m e :
  0 <= m -> rounded prec emax (IZR m * bpow e) (binary_normalize prec emax m e false).
Proof.
  intros Hm. destruct m as [|p|p]; [|apply binary_round_rounded|lia].
  simpl. replace (0 * bpow e)%R with 0%R by ring. apply rounded_zero.
Qed.

(** [shl_align] keeps the value. *)
Lemma shl_align_val mx ex ez :
  ez <= ex ->
  (IZR (Z.pos (fst (shl_align mx ex ez))) * bpow ez = IZR (Z.pos mx) * bpow ex)%R.
Proof.
  intros Hle. unfold shl_align. destruct (ez - ex) as [|q|q] eqn:Hq; simpl fst.
  - replace ez with ex by lia. reflexivity.
  - lia.
  - rewrite Pos_iter_xO, mult_IZR.
    replace ex with (ez + Z.pos q) by lia.
    rewrite bpow_plus, (bpow_IZR (Z.pos q)) by lia. ring.
Qed.

Lemma SFmul_rounded x y :
  nnfin prec emax x -> nnfin prec emax y -> rounded prec emax (SF2R x * SF2R y) (SFmul prec emax x y).
Proof.
  intros Hx Hy.
  destruct x as [sx|sx| |[|] mx ex]; simpl in Hx; try contradiction;
  destruct y as [sy|sy| |[|] my ey]; simpl in Hy; try contradiction; simpl SF2R; simpl SFmul;
    try (replace (0 * _)%R with 0%R by ring; apply rounded_zero);
    try (replace (_ * 0)%R with 0%R by ring; apply rounded_zero).
  destruct (bounded_canonic _ _ Hx) as [((_ & Hxu) & Hxe & Hxn) _].
  destruct (bounded_canonic _ _ Hy) as [((_ & Hyu) & Hye & Hyn) _].
  replace (IZR (Z.pos mx) * bpow ex * (IZR (Z.pos my) * bpow ey))%R
    with (IZR (Z.pos (mx * my)) * bpow (ex + ey))%R
    by (rewrite Pos2Z.inj_mul, mult_IZR, bpow_plus; ring).
  apply round_aux_rounded; [lia| |reflexivity].
  pose proof (pow2_pos (prec - 1)) as Hh.
  rewrite Pos2Z.inj_mul.
  destruct (Z.eq_dec ex emin) as [Hx0|Hx0]; destruct (Z.eq_dec ey emin) as [Hy0|Hy0].
  - left. unfold SpecFloat.emin in *. lia.
  - right. assert (2 ^ (prec - 1) <= Z.pos my) by (apply Hyn; lia). nia.
  - right. assert (2 ^ (prec - 1) <= Z.pos mx) by (apply Hxn; lia). nia.
  - right. assert (2 ^ (prec - 1) <= Z.pos mx) by (apply Hxn; lia). nia.
Qed.

Lemma SFadd_rounded x y :
  nnfin prec emax x -> nnfin prec emax y -> rounded prec emax (SF2R x + SF2R y) (SFadd prec emax x y).
Proof.
  intros Hx Hy.
  destruct x as [sx|sx| |[|] mx ex] eqn:Ex; simpl in Hx; try contradiction;
  destruct y as [sy|sy| |[|] my ey] eqn:Ey; simpl in Hy; try contradiction.
  - simpl SF2R. replace (0 + 0)%R with 0%R by ring.
    simpl. destruct sx, sy; apply rounded_zero.
  - simpl SFadd. replace (SF2R (S754_zero sx) + SF2R (S754_finite false my ey))%R
      with (SF2R (S754_finite false my ey)) by (simpl; ring).
    apply nnfin_rounded. exact Hy.
  - simpl SFadd. replace (SF2R (S754_finite false mx ex) + SF2R (S754_zero sy))%R
      with (SF2R (S754_finite false mx ex)) by (simpl; ring).
    apply nnfin_rounded. exact Hx.
  - unfold SFadd. cbn [cond_Zopp].
    set (ez := Z.min ex ey).
    pose proof (shl_align_val mx ex ez ltac:(unfold ez; lia)) as Hvx.
    pose proof (shl_align_val my ey ez ltac:(unfold ez; lia)) as Hvy.
    simpl SF2R. rewrite <- Hvx, <- Hvy, <- Rmult_plus_distr_r, <- plus_IZR.
    apply binary_normalize_rounded. lia.
Qed.

Lemma SFsub_rounded x y :
  nnfin prec emax x -> nnfin prec emax y -> (SF2R y <= SF2R x)%R ->
  rounded prec emax (SF2R x - SF2R y) (SFsub prec emax x y).
Proof.
  intros Hx Hy Hle.
  destruct x as [sx|sx| |[|] mx ex] eqn:Ex; simpl in Hx; try contradiction;
  destruct y as [sy|sy| |[|] my ey] eqn:Ey; simpl in Hy; try contradiction.
  - simpl SF2R. replace (0 - 0)%R with 0%R by ring.
    simpl. destruct sx, sy; apply rounded_zero.
  - exfalso. simpl in Hle. pose proof (bpow_gt_0 ey).
    assert (0 < IZR (Z.pos my))%R by (apply IZR_lt; lia). nra.
  - simpl SFsub. replace (SF2R (S754_finite false mx ex) - SF2R (S754_zero sy))%R
      with (SF2R (S754_finite false mx ex)) by (simpl; ring).
    apply nnfin_rounded. exact Hx.
  - unfold SFsub. cbn [cond_Zopp].
    set (ez := Z.min ex ey).
    pose proof (shl_align_val mx ex ez ltac:(unfold ez; lia)) as Hvx.
    pose proof (shl_align_val my ey ez ltac:(unfold ez; lia)) as Hvy.
    simpl SF2R in *. rewrite <- Hvx, <- Hvy in *.
    rewrite <- Rmult_minus_distr_r, <- minus_IZR.
    apply binary_normalize_rounded.
    apply le_IZR. pose proof (bpow_gt_0 ez). rewrite minus_IZR. nra.
Qed.


Lemma bpow_minus a b : bpow (a - b) = (bpow a / bpow b)%R.
Proof.
  pose proof (bpow_gt_0 b). replace a with ((a - b) + b) at 2 by lia.
  rewrite bpow_plus. field. lra.
Qed.

Lemma new_location_located nb k q :
  0 < nb -> 0 <= k < nb -> located q (new_location nb k) (IZR q + IZR k / IZR nb).
Proof.
  intros Hnb [Hk0 Hk].
  assert (HnbR : (0 < IZR nb)%R) by (apply IZR_lt; lia).
  destruct (Z.eq_dec k 0) as [->|Hk'].
  - unfold new_location, new_location_even, new_location_odd.
    destruct (Z.even nb); simpl; unfold Rdiv; ring.
  - assert (HkR : (0 < IZR k)%R) by (apply IZR_lt; lia).
    assert (HkR' : (IZR k < IZR nb)%R) by (apply IZR_lt; lia).
    set (t := (IZR k / IZR nb)%R).
    assert (Ht : (IZR k = t * IZR nb)%R) by (unfold t; field; lra).
    clearbody t.
    assert (Hpos : (0 < t)%R) by nra.
    assert (Hlt1 : (t < 1)%R) by nra.
    assert (Hhalf : match Z.compare (2 * k) nb with
                    | Lt => (t < / 2)%R
                    | Eq => (t = / 2)%R
                    | Gt => (/ 2 < t)%R
                    end).
    { destruct (Z.compare_spec (2 * k) nb) as [He|Hl|Hg].
      - apply (f_equal IZR) in He. rewrite mult_IZR in He. nra.
      - apply IZR_lt in Hl. rewrite mult_IZR in Hl. nra.
      - apply IZR_lt in Hg. rewrite mult_IZR in Hg. nra. }
    unfold new_location.
    destruct (Z.even nb) eqn:Heven; unfold new_location_even, new_location_odd;
      rewrite (proj2 (Z.eqb_neq k 0) Hk').
    + destruct (2 * k ?= nb); simpl; lra.
    + assert (Hodd : 2 * k <> nb).
      { intros <-. rewrite Z.even_mul in Heven. discriminate. }
      destruct (Z.compare_spec (2 * k + 1) nb) as [He|Hl|Hg]; simpl.
      * rewrite (proj2 (Z.compare_lt_iff (2 * k) nb)) in Hhalf by lia. lra.
      * rewrite (proj2 (Z.compare_lt_iff (2 * k) nb)) in Hhalf by lia. lra.
      * rewrite (proj2 (Z.compare_gt_iff (2 * k) nb)) in Hhalf by lia. lra.
Qed.

Lemma SFdiv_rounded x y :
  nnfin prec emax x -> nnfin prec emax y -> (0 < SF2R y)%R ->
  rounded prec emax (SF2R x / SF2R y) (SFdiv prec emax x y).
Proof.
  intros Hx Hy Hpos.
  destruct y as [sy|sy| |[|] my ey]; simpl in Hy; try contradiction;
    [simpl in Hpos; lra|].
  destruct x as [sx|sx| |[|] mx ex]; simpl in Hx; try contradiction.
  - simpl SFdiv. simpl SF2R at 1. unfold Rdiv. rewrite Rmult_0_l. apply rounded_zero.
  - unfold SFdiv, SFdiv_core_binary. cbn [xorb].
    pose proof (Zdigits2_bounds (Z.pos mx) ltac:(lia)) as (Hd1 & Hl1 & Hu1).
    pose proof (Zdigits2_bounds (Z.pos my) ltac:(lia)) as (Hd2 & Hl2 & Hu2).
    set (d1 := Zdigits2 (Z.pos mx)) in *. set (d2 := Zdigits2 (Z.pos my)) in *.
    clearbody d1 d2.
    set (e' := Z.min (fexp (d1 + ex - (d2 + ey))) (ex - ey)).
    assert (He' : e' <= ex - ey) by (unfold e'; lia).
    set (s := ex - ey - e'). assert (Hs : 0 <= s) by (unfold s; lia).
    set (m' := match s with Z.pos _ => Z.shiftl (Z.pos mx) s | 0 => Z.pos mx | Z.neg _ => 0 end).
    assert (Hm' : m' = Z.pos mx * 2 ^ s).
    { unfold m'. destruct s as [|p|p] eqn:Hsp; [simpl; lia| |lia].
      apply Z.shiftl_mul_pow2. lia. }
    clearbody m'.
    pose proof (Z_div_mod m' (Z.pos my) ltac:(lia)) as Hdm.
    destruct (Z.div_eucl m' (Z.pos my)) as [q r]. destruct Hdm as [Hq Hr].
    assert (H2s : 0 < 2 ^ s) by (apply pow2_pos; lia).
    assert (Hq0 : 0 <= q) by nia.
    assert (HmyR : (0 < IZR (Z.pos my))%R) by (apply IZR_lt; lia).
    replace (SF2R (S754_finite false mx ex) / SF2R (S754_finite false my ey))%R
      with ((IZR q + IZR r / IZR (Z.pos my)) * bpow e')%R.
    + apply round_aux_rounded; [exact Hq0| |apply new_location_located; lia].
      destruct (Z.le_gt_cases e' emin) as [|Hgt]; [left; assumption|right].
      assert (Hs' : prec - d1 + d2 <= s).
      { unfold s, e', SpecFloat.fexp in *. lia. }
      assert (Hlow : Z.pos my * 2 ^ (prec - 1) <= m').
      { rewrite Hm'.
        assert (2 ^ (prec - 1 + d2) <= 2 ^ (d1 - 1 + s)) by (apply Z.pow_le_mono_r; lia).
        rewrite !Z.pow_add_r in * by lia.
        assert (0 < 2 ^ (prec - 1)) by (apply pow2_pos; lia).
        assert (0 < 2 ^ (d1 - 1)) by (apply pow2_pos; lia).
        nia. }
      assert (0 < 2 ^ (prec - 1)) by (apply pow2_pos; lia).
      nia.
    + simpl SF2R.
      assert (Hb : bpow ex = (IZR (2 ^ s) * bpow e' * bpow ey)%R).
      { rewrite <- (bpow_IZR s), <- !bpow_plus by lia. f_equal. unfold s. lia. }
      pose proof (bpow_gt_0 ey). pose proof (bpow_gt_0 e').
      assert (HmR : (IZR (Z.pos mx) * IZR (2 ^ s) = IZR (Z.pos my) * IZR q + IZR r)%R).
      { rewrite <- !mult_IZR, <- plus_IZR. f_equal. lia. }
      rewrite Hb.
      replace (IZR q + IZR r / IZR (Z.pos my))%R
        with ((IZR (Z.pos my) * IZR q + IZR r) / IZR (Z.pos my))%R by (field; lra).
      rewrite <- HmR. field. split; lra.
Qed.


(** *** More on the results *)

Lemma rounded_valid v r : rounded prec emax v r -> SpecFloat.valid_binary prec emax r = true.
Proof.
  intros (m & e & Hr & Hp).
  destruct r as [s|[|]| |[|] p ef]; simpl in Hp |- *; try contradiction; auto.
  destruct (rounds_to_normal _ _ _ Hr) as (((Hm0 & Hmu) & He & Hn) & _ & _).
  destruct (packs_finite _ _ _ _ Hp) as (Hq & Hef & Hb).
  rewrite <- Hq, <- Hef in *.
  unfold bounded, canonical_mantissa, SpecFloat.fexp.
  apply andb_true_iff. split; [|apply Z.leb_le; exact Hb]. apply Z.eqb_eq.
  pose proof (digits2_pos_bounds p) as [Hl Hu].
  assert (Hd : Z.pos (digits2_pos p) <= prec).
  { change (Z.pos (digits2_pos p)) with (Zdigits2 (Z.pos p)). apply Zdigits2_le; lia. }
  destruct (Z.eq_dec ef emin) as [->|Hne]; [lia|].
  assert (prec - 1 < Zdigits2 (Z.pos p)) by (apply Zdigits2_ge; [lia|apply Hn; lia]).
  simpl Zdigits2 in *. lia.
Qed.

(** A rounding below a finite float is finite. *)
Lemma rounded_below v r K :
  rounded prec emax v r -> nnfin prec emax K -> (v <= SF2R K)%R ->
  nnfin prec emax r /\ (SF2R r <= SF2R K)%R.
Proof.
  intros Hr HK Hle.
  pose proof (rounded_mono _ _ _ _ Hr (nnfin_rounded K HK) Hle) as Hleb.
  assert (Hfin : nnfin prec emax r).
  { apply (rounded_finite _ _ Hr). intros s ->.
    pose proof (rounded_shape _ _ Hr) as Hs. destruct s; simpl in Hs; [contradiction|].
    destruct K as [sk|sk| |[|] mk ek]; simpl in HK; try contradiction; discriminate. }
  split; [exact Hfin|]. apply SFleb_val; assumption.
Qed.

(** A rounding above a float is at least that float. *)
Lemma rounded_above v r K :
  rounded prec emax v r -> nnfin prec emax K -> (SF2R K <= v)%R -> SFleb K r = true.
Proof.
  intros Hr HK Hle. exact (rounded_mono _ _ _ _ (nnfin_rounded K HK) Hr Hle).
Qed.

(** The rounding of the value of a float is that float. *)
Lemma rounded_same v r K :
  rounded prec emax v r -> nnfin prec emax K -> v = SF2R K -> nnfin prec emax r /\ SF2R r = v.
Proof.
  intros Hr HK Hv.
  destruct (rounded_below _ _ _ Hr HK) as [Hfin Hle]; [lra|].
  split; [exact Hfin|].
  pose proof (rounded_above _ _ _ Hr HK ltac:(lra)) as Hge.
  apply SFleb_val in Hge; [lra|exact HK|exact Hfin].
Qed.

(** Integers below [2 ^ prec] are floats. *)
Lemma int_float n :
  0 <= n < 2 ^ prec -> exists K, nnfin prec emax K /\ SF2R K = IZR n.
Proof.
  intros [Hn0 Hn]. destruct (Z.eq_dec n 0) as [->|Hne].
  - exists (S754_zero false). split; reflexivity.
  - destruct (Zdigits2_bounds n) as (Hd & Hl & Hu); [lia|].
    set (d := Zdigits2 n) in *.
    assert (Hdp : d <= prec) by (apply Zdigits2_le; lia). clearbody d.
    assert (H2 : 0 < 2 ^ (prec - d)) by (apply pow2_pos; lia).
    set (m := n * 2 ^ (prec - d)).
    assert (Hm : 2 ^ (prec - 1) <= m < 2 ^ prec).
    { unfold m. replace (prec - 1) with ((d - 1) + (prec - d)) by lia.
      replace prec with (d + (prec - d)) at 4 by lia.
      rewrite !Z.pow_add_r by lia. nia. }
    assert (Hmpos : 0 < m) by (pose proof (pow2_pos (prec - 1)); lia).
    destruct m as [|p|p] eqn:Hp; try lia.
    assert (Hr : rounded prec emax (IZR (Z.pos p) * bpow (d - prec))
                   (S754_finite false p (d - prec))).
    { apply rounded_canonic; [|lia|lia|reflexivity].
      unfold canonic, SpecFloat.emin. split; [lia|]. split; [lia|]. intros _. lia. }
    exists (S754_finite false p (d - prec)). split.
    + pose proof (rounded_valid _ _ Hr) as Hv. exact Hv.
    + simpl. rewrite <- Hp. unfold m. rewrite mult_IZR, <- (bpow_IZR (prec - d)) by lia.
      rewrite Rmult_assoc, <- bpow_plus. replace (prec - d + (d - prec)) with 0 by lia.
      rewrite bpow_0. ring.
Qed.

Lemma rounded_int n r :
  0 <= n < 2 ^ prec -> rounded prec emax (IZR n) r -> nnfin prec emax r /\ SF2R r = IZR n.
Proof.
  intros Hn Hr. destruct (int_float n Hn) as (K & HK & HKv).
  apply (rounded_same _ _ K); [exact Hr|exact HK|symmetry; exact HKv].
Qed.

(** What a comparison that fails says of the values. *)
Lemma SFltb_false_val x y :
  nnfin prec emax x -> nnfin prec emax y -> SFltb x y = false -> (SF2R y <= SF2R x)%R.
Proof.
  intros Hx Hy Hlt. pose proof (nnfin_val x Hx) as Hx0.
  destruct y as [sy|sy| |[|] my ey]; simpl in Hy; try contradiction; [exact Hx0|].
  destruct x as [sx|sx| |[|] mx ex]; simpl in Hx; try contradiction; [discriminate|].
  destruct (bounded_canonic _ _ Hx) as [Hcx _]. destruct (bounded_canonic _ _ Hy) as [Hcy _].
  simpl. apply canonic_lex_val; [exact Hcy|exact Hcx|].
  unfold SFltb, SFcompare in Hlt.
  destruct (Z.compare_spec ex ey) as [Heq|Hl|Hg]; [|discriminate|left; exact Hg].
  right. split; [symmetry; exact Heq|].
  change (Pos.compare_cont Eq mx my) with (Pos.compare mx my) in Hlt.
  destruct (Pos.compare_spec mx my); try discriminate; lia.
Qed.

End RoundingFacts.


(** ** The arithmetic of binary64 *)

Lemma prec_gt_1 : 1 < prec.
Proof. reflexivity. Qed.

Lemma prec_lt_emax : prec < emax.
Proof. reflexivity. Qed.

Ltac b64 := first [exact prec_gt_1 | exact prec_lt_emax | eassumption].

Section Binary64Facts.

Lemma fin64_shape x :
  match Prim2SF x with S754_zero _ | S754_finite false _ _ => True | _ => False end ->
  fin64 x.
Proof.
  unfold fin64, nnfin. pose proof (Prim2SF_valid x) as Hv.
  destruct (Prim2SF x) as [s|s| |[|] m e]; auto.
Qed.

Lemma fin64_nn64 x : fin64 x -> nn64 x.
Proof. unfold fin64, nn64, nnfin. destruct (Prim2SF x) as [s|[|]| |[|] m e]; auto. Qed.

Lemma fin64_val x : fin64 x -> (0 <= B2R x)%R.
Proof. intros H. eapply nnfin_val; b64. Qed.

Lemma rnd64_self x : fin64 x -> rnd64 (B2R x) x.
Proof. intros H. eapply nnfin_rounded; b64. Qed.

Lemma rnd64_nn64 v x : rnd64 v x -> nn64 x.
Proof. intros H. eapply rounded_shape; b64. Qed.

Lemma rnd64_add x y : fin64 x -> fin64 y -> rnd64 (B2R x + B2R y) (x + y)%float.
Proof. intros Hx Hy. unfold rnd64. rewrite add_spec. apply SFadd_rounded; b64. Qed.

Lemma rnd64_mul x y : fin64 x -> fin64 y -> rnd64 (B2R x * B2R y) (x * y)%float.
Proof. intros Hx Hy. unfold rnd64. rewrite mul_spec. apply SFmul_rounded; b64. Qed.

Lemma rnd64_sub x y :
  fin64 x -> fin64 y -> (B2R y <= B2R x)%R -> rnd64 (B2R x - B2R y) (x - y)%float.
Proof. intros Hx Hy H. unfold rnd64. rewrite sub_spec. apply SFsub_rounded; b64. Qed.

Lemma rnd64_div x y :
  fin64 x -> fin64 y -> (0 < B2R y)%R -> rnd64 (B2R x / B2R y) (x / y)%float.
Proof. intros Hx Hy H. unfold rnd64. rewrite div_spec. apply SFdiv_rounded; b64. Qed.

Lemma rnd64_of_Z n : 0 <= n -> rnd64 (IZR n) (Binary64.of_Z n).
Proof.
  intros Hn. unfold rnd64, Binary64.of_Z.
  assert (Hr : rounded prec emax (IZR n) (binary_normalize prec emax n 0 false)).
  { replace (IZR n) with (IZR n * bpow 0)%R by (rewrite bpow_0; ring).
    apply binary_normalize_rounded; b64. }
  rewrite Prim2SF_SF2Prim; [exact Hr|].
  eapply rounded_valid; b64.
Qed.

(** Rounding is monotone: the float comparison of two results follows the
    exact values. *)
Lemma rnd64_leb v1 x1 v2 x2 :
  rnd64 v1 x1 -> rnd64 v2 x2 -> (v1 <= v2)%R -> (x1 <=? x2)%float = true.
Proof.
  intros H1 H2 Hle. rewrite leb_spec. eapply rounded_mono; b64.
Qed.

Lemma fin64_leb_val x y : fin64 x -> fin64 y -> (x <=? y)%float = true -> (B2R x <= B2R y)%R.
Proof. intros Hx Hy H. rewrite leb_spec in H. eapply SFleb_val; b64. Qed.

Lemma fin64_ltb_val x y : fin64 x -> fin64 y -> (x <? y)%float = true -> (B2R x < B2R y)%R.
Proof. intros Hx Hy H. rewrite ltb_spec in H. eapply SFltb_val; b64. Qed.

Lemma fin64_ltb_false x y :
  fin64 x -> fin64 y -> (x <? y)%float = false -> (B2R y <= B2R x)%R.
Proof. intros Hx Hy H. rewrite ltb_spec in H. eapply SFltb_false_val; b64. Qed.

Lemma fin64_val_leb x y : fin64 x -> fin64 y -> (B2R x <= B2R y)%R -> (x <=? y)%float = true.
Proof. intros Hx Hy H. apply (rnd64_leb (B2R x) x (B2R y) y); auto using rnd64_self. Qed.

(** A result below the result of a larger exact value that is finite. *)
Lemma rnd64_le v x v' K :
  rnd64 v x -> rnd64 v' K -> fin64 K -> (v <= v')%R -> fin64 x /\ (B2R x <= B2R K)%R.
Proof.
  intros Hx HK Hfin Hle.
  assert (Hleb : SFleb (Prim2SF x) (Prim2SF K) = true) by (eapply rounded_mono; b64).
  assert (Hf : fin64 x).
  { eapply rounded_finite; try b64. intros s Hs.
    pose proof (rnd64_nn64 _ _ Hx) as Hsh. unfold nn64 in Hsh. rewrite Hs in Hsh, Hleb.
    destruct s; [contradiction|]. unfold fin64 in Hfin.
    destruct (Prim2SF K) as [sk|sk| |[|] mk ek]; simpl in Hfin; try contradiction; discriminate. }
  split; [exact Hf|]. eapply SFleb_val; b64.
Qed.

Lemma rnd64_below v x K :
  rnd64 v x -> fin64 K -> (v <= B2R K)%R -> fin64 x /\ (B2R x <= B2R K)%R.
Proof. intros Hx HK Hle. exact (rnd64_le v x (B2R K) K Hx (rnd64_self K HK) HK Hle). Qed.

Lemma rnd64_above v x K :
  rnd64 v x -> fin64 K -> (B2R K <= v)%R -> (K <=? x)%float = true.
Proof. intros Hx HK Hle. exact (rnd64_leb _ _ _ _ (rnd64_self K HK) Hx Hle). Qed.

Lemma rnd64_int n x : 0 <= n < 2 ^ 53 -> rnd64 (IZR n) x -> fin64 x /\ B2R x = IZR n.
Proof. intros Hn Hx. eapply rounded_int; b64. Qed.

Lemma of_Z_int n : 0 <= n < 2 ^ 53 -> fin64 (Binary64.of_Z n) /\ B2R (Binary64.of_Z n) = IZR n.
Proof. intros Hn. apply rnd64_int; [exact Hn|apply rnd64_of_Z; lia]. Qed.

End Binary64Facts.

(** ** Floats that are not negative *)

Section Binary64Values.
Implicit Types (x y c : float).

Lemma of_Z_0 : Prim2SF (Binary64.of_Z 0) = S754_zero false.
Proof. reflexivity. Qed.

(** [0 <= x] holds of the floats that are not negative and not NaN. *)
Lemma leb0_nn64 x : fleb (f_of_int 0) x = true -> nn64 x.
Proof.
  cbn [fleb f_of_int Binary64.ops]. rewrite leb_spec, of_Z_0. unfold nn64.
  destruct (Prim2SF x) as [s|[|]| |[|] m e]; simpl; auto; discriminate.
Qed.

Lemma nn64_leb0 x : nn64 x -> fleb (f_of_int 0) x = true.
Proof.
  cbn [fleb f_of_int Binary64.ops]. rewrite leb_spec, of_Z_0. unfold nn64.
  destruct (Prim2SF x) as [s|[|]| |[|] m e]; simpl; auto; contradiction.
Qed.

Lemma nn64_cases x : nn64 x -> fin64 x \/ Prim2SF x = S754_infinity false.
Proof.
  intros Hx. unfold nn64 in Hx.
  destruct (Prim2SF x) as [s|[|]| |[|] m e] eqn:E; try contradiction;
    [left|right; reflexivity|left]; apply fin64_shape; rewrite E; exact I.
Qed.

Lemma fin64_not_inf x s : fin64 x -> Prim2SF x <> S754_infinity s.
Proof. unfold fin64. intros H E. rewrite E in H. exact H. Qed.

(** Integers below [2 ^ 53] as literals. *)
Lemma const64 n : 0 <= n < 2 ^ 53 -> fin64 (f_dec n 0) /\ B2R (f_dec n 0) = IZR n.
Proof.
  intros Hn. change (f_dec n 0) with (Binary64.of_Z (n * 1)).
  rewrite Z.mul_1_r. apply of_Z_int. exact Hn.
Qed.

Lemma int64 n : 0 <= n < 2 ^ 53 -> fin64 (f_of_int n) /\ B2R (f_of_int n) = IZR n.
Proof. exact (of_Z_int n). Qed.

Lemma nn64_of_Z n : 0 <= n -> nn64 (f_of_int n).
Proof. intros Hn. exact (rnd64_nn64 _ _ (rnd64_of_Z n Hn)). Qed.

Lemma nn64_add x y : nn64 x -> nn64 y -> nn64 (fadd x y).
Proof.
  intros Hx Hy. destruct (nn64_cases x Hx) as [Hfx|Hix].
  - destruct (nn64_cases y Hy) as [Hfy|Hiy].
    + exact (rnd64_nn64 _ _ (rnd64_add x y Hfx Hfy)).
    + unfold nn64. cbn [fadd Binary64.ops]. rewrite add_spec, Hiy. unfold SF64add.
      unfold fin64 in Hfx.
      destruct (Prim2SF x) as [s|[|]| |[|] m e]; simpl in Hfx |- *; auto.
  - unfold nn64. cbn [fadd Binary64.ops]. rewrite add_spec, Hix. unfold SF64add.
    unfold nn64 in Hy.
    destruct (Prim2SF y) as [s|[|]| |[|] m e]; simpl in Hy |- *; auto.
Qed.

Lemma nn64_div x c : nn64 x -> fin64 c -> (0 < B2R c)%R -> nn64 (fdiv x c).
Proof.
  intros Hx Hc Hpos. destruct (nn64_cases x Hx) as [Hfx|Hix].
  - exact (rnd64_nn64 _ _ (rnd64_div x c Hfx Hc Hpos)).
  - unfold nn64. cbn [fdiv Binary64.ops]. rewrite div_spec, Hix. unfold SF64div.
    unfold fin64, B2R in *.
    destruct (Prim2SF c) as [s|[|]| |[|] m e]; simpl in Hc, Hpos |- *; auto; lra.
Qed.

Lemma nn64_mul x c : nn64 x -> fin64 c -> (0 < B2R c)%R -> nn64 (fmul x c).
Proof.
  intros Hx Hc Hpos. destruct (nn64_cases x Hx) as [Hfx|Hix].
  - exact (rnd64_nn64 _ _ (rnd64_mul x c Hfx Hc)).
  - unfold nn64. cbn [fmul Binary64.ops]. rewrite mul_spec, Hix. unfold SF64mul.
    unfold fin64, B2R in *.
    destruct (Prim2SF c) as [s|[|]| |[|] m e]; simpl in Hc, Hpos |- *; auto; lra.
Qed.

(** A float below a finite one, in the comparison of the program. *)
Lemma nn64_leb_fin x c : nn64 x -> fin64 c -> fleb x c = true -> fin64 x.
Proof.
  intros Hx Hc Hle. destruct (nn64_cases x Hx) as [Hfx|Hix]; [exact Hfx|exfalso].
  cbn [fleb Binary64.ops] in Hle. rewrite leb_spec, Hix in Hle. unfold fin64 in Hc.
  destruct (Prim2SF c) as [s|[|]| |[|] m e]; simpl in Hc; try contradiction; discriminate.
Qed.

(** [np.clip(x, 0.0, 1.0)] of a float that is not negative. *)
Lemma clip_in_unit x : nn64 x -> in_unit (clip x (f_dec 0 0) (f_dec 1 0)).
Proof.
  intros Hx. unfold clip.
  assert (H0 : fltb x (f_dec 0 0) = false).
  { cbn [fltb Binary64.ops]. rewrite ltb_spec.
    change (Prim2SF (f_dec 0 0)) with (S754_zero false). unfold nn64 in Hx.
    destruct (Prim2SF x) as [s|[|]| |[|] m e]; try contradiction; reflexivity. }
  rewrite H0. destruct (const64 1 ltac:(lia)) as [Hf1 Hv1].
  destruct (fltb (f_dec 1 0) x) eqn:H1.
  - split; [exact Hf1|]. rewrite Hv1. lra.
  - destruct (nn64_cases x Hx) as [Hfx|Hix].
    + split; [exact Hfx|]. rewrite <- Hv1. apply fin64_ltb_false; assumption.
    + exfalso. cbn [fltb Binary64.ops] in H1. rewrite ltb_spec, Hix in H1.
      unfold fin64 in Hf1.
      destruct (Prim2SF (f_dec 1 0)) as [s|[|]| |[|] m e]; simpl in Hf1;
        try contradiction; discriminate.
Qed.

(** A factor between 0 and 1 does not raise a float. *)
Lemma scale_in_unit c x :
  fin64 c -> in_unit x -> fin64 (fmul c x) /\ (B2R (fmul c x) <= B2R c)%R.
Proof.
  intros Hc [Hx Hx1]. apply (rnd64_below _ _ c (rnd64_mul c x Hc Hx) Hc).
  pose proof (fin64_val c Hc). pose proof (fin64_val x Hx). nra.
Qed.

(** Addition is monotone. *)
Lemma add_le64 x y X Y :
  fin64 x -> fin64 y -> fin64 X -> fin64 Y -> fin64 (fadd X Y) ->
  (B2R x <= B2R X)%R -> (B2R y <= B2R Y)%R ->
  fin64 (fadd x y) /\ (B2R (fadd x y) <= B2R (fadd X Y))%R.
Proof.
  intros Hx Hy HX HY HXY Hle1 Hle2.
  apply (rnd64_le _ _ _ _ (rnd64_add x y Hx Hy) (rnd64_add X Y HX HY) HXY). lra.
Qed.

(** A quotient of a float by a larger one is at most 1. *)
Lemma div_in_unit x c :
  fin64 x -> fin64 c -> (0 < B2R c)%R -> (B2R x <= B2R c)%R -> in_unit (fdiv x c).
Proof.
  intros Hx Hc Hpos Hle. destruct (const64 1 ltac:(lia)) as [Hf1 Hv1].
  unfold in_unit. rewrite <- Hv1. apply (rnd64_below _ _ _ (rnd64_div x c Hx Hc Hpos) Hf1).
  rewrite Hv1. set (t := (B2R x / B2R c)%R).
  assert (Ht : (B2R x = t * B2R c)%R) by (unfold t; field; lra).
  clearbody t. nra.
Qed.

(** A percentage: a float between 0 and 1, times 100. *)
Lemma percent_le x :
  in_unit x -> fin64 (fmul x (f_of_int 100)) /\ (B2R (fmul x (f_of_int 100)) <= 100)%R.
Proof.
  intros [Hx Hx1]. destruct (int64 100 ltac:(lia)) as [Hf Hv].
  rewrite <- Hv. apply (rnd64_below _ _ _ (rnd64_mul x _ Hx Hf) Hf).
  pose proof (fin64_val x Hx). rewrite Hv. nra.
Qed.

End Binary64Values.

(** ** The reporter in binary64 *)

Section ReporterFacts.
Implicit Types (df : list (SummaryRow float)) (r : SummaryRow float).
Variable fsum : list float -> float.
Hypothesis fsum_sums : forall l, sums l (fsum l).

(** A sum of floats that are not negative is not negative, in whatever
    order they are added. *)
Lemma sums_nn64 (l : list float) a : sums l a -> Forall nn64 l -> nn64 a.
Proof.
  induction 1 as [|x|l1 l2 a b _ IH1 _ IH2|l l' a Hperm _ IH]; intros Hall.
  - exact (nn64_of_Z 0 ltac:(lia)).
  - inversion Hall; assumption.
  - apply Forall_app in Hall as [H1 H2]. apply nn64_add; auto.
  - apply IH. eapply Permutation_Forall; [symmetry; exact Hperm|exact Hall].
Qed.

(** A sum of at most [2 ^ 53 / b] floats between 0 and [b] is at most [b]
    times their number. *)
Lemma sums_bounded (b : Z) (l : list float) a :
  sums l a -> 0 <= b ->
  Forall (fun x => fin64 x /\ (B2R x <= IZR b)%R) l ->
  b * Z.of_nat (length l) < 2 ^ 53 ->
  fin64 a /\ (B2R a <= IZR (b * Z.of_nat (length l)))%R.
Proof.
  intros Hs Hb. induction Hs as [|x|l1 l2 a1 a2 _ IH1 _ IH2|l l' a Hperm _ IH];
    intros Hall Hlen.
  - destruct (const64 0 ltac:(lia)) as [Hf Hv]. split; [exact Hf|].
    rewrite Hv. simpl length. rewrite Z.mul_0_r. lra.
  - inversion Hall as [|? ? [Hf Hv] _]; subst. split; [exact Hf|].
    simpl length. rewrite Z.mul_1_r. exact Hv.
  - apply Forall_app in Hall as [H1 H2]. rewrite length_app, Nat2Z.inj_add in *.
    destruct IH1 as [Hf1 Hv1]; [exact H1|nia|].
    destruct IH2 as [Hf2 Hv2]; [exact H2|nia|].
    set (N := b * (Z.of_nat (length l1) + Z.of_nat (length l2))) in *.
    assert (HN : 0 <= N < 2 ^ 53) by (unfold N; nia).
    destruct (int64 N HN) as [HfN HvN].
    rewrite <- HvN. apply (rnd64_below _ _ _ (rnd64_add a1 a2 Hf1 Hf2) HfN).
    rewrite HvN. unfold N. rewrite Z.mul_add_distr_l, plus_IZR. lra.
  - rewrite <- (Permutation_length Hperm) in *. apply IH; [|exact Hlen].
    eapply Permutation_Forall; [symmetry; exact Hperm|exact Hall].
Qed.

(** The count of a frame that is not empty. *)
Lemma count_positive {A : Type} (l : list A) :
  l <> [] -> Z.of_nat (length l) < 2 ^ 53 ->
  fin64 (f_of_int (Z.of_nat (length l))) /\
  B2R (f_of_int (Z.of_nat (length l))) = IZR (Z.of_nat (length l)) /\
  (1 <= IZR (Z.of_nat (length l)))%R.
Proof.
  intros Hne Hlen. assert (Hn : 0 <= Z.of_nat (length l) < 2 ^ 53) by lia.
  destruct (int64 (Z.of_nat (length l)) Hn) as [Hf Hv].
  split; [exact Hf|]. split; [exact Hv|].
  apply IZR_le. destruct l; [contradiction|simpl length; lia].
Qed.

(** The mean of floats that are not negative. *)
Lemma mean_nn64 (l : list float) :
  l <> [] -> Z.of_nat (length l) < 2 ^ 53 -> Forall nn64 l -> nn64 (mean fsum l).
Proof.
  intros Hne Hlen Hall. destruct (count_positive l Hne Hlen) as (Hf & Hv & Hpos).
  unfold mean. apply nn64_div; [|exact Hf|rewrite Hv; lra].
  exact (sums_nn64 l _ (fsum_sums l) Hall).
Qed.

Lemma total_violations_bounds df :
  0 <= total_violations df <= Z.of_nat (length df).
Proof.
  unfold total_violations. split; [lia|].
  apply Nat2Z.inj_le. apply List.filter_length_le.
Qed.

(** The violation rate is a percentage. *)
Lemma violation_rate_percent df :
  df <> [] -> Z.of_nat (length df) < 2 ^ 53 ->
  fin64 (violation_rate df) /\ (B2R (violation_rate df) <= 100)%R.
Proof.
  intros Hne Hlen. destruct (count_positive df Hne Hlen) as (Hfn & Hvn & Hpos).
  destruct (total_violations_bounds df) as [Hv0 Hvle].
  assert (Htv : 0 <= total_violations df < 2 ^ 53) by lia.
  destruct (int64 (total_violations df) Htv) as [Hfv Hvv].
  unfold violation_rate.
  destruct (Z.ltb_spec 0 (Z.of_nat (length df))) as [_|Hn];
    [|apply le_IZR in Hpos; lia].
  apply percent_le. apply div_in_unit; [exact Hfv|exact Hfn|rewrite Hvn; lra|].
  rewrite Hvv, Hvn. apply IZR_le. exact Hvle.
Qed.

(** [1 - rate / 100] of a percentage. *)
Lemma correctness_in_unit (rate : float) :
  fin64 rate -> (B2R rate <= 100)%R ->
  in_unit (fsub (f_dec 1 0) (fdiv rate (f_dec 100 0))).
Proof.
  intros Hf Hle. destruct (const64 1 ltac:(lia)) as [Hf1 Hv1].
  destruct (const64 100 ltac:(lia)) as [Hf100 Hv100].
  destruct (div_in_unit rate (f_dec 100 0) Hf Hf100) as [Hft Hvt];
    [rewrite Hv100; lra|rewrite Hv100; exact Hle|].
  unfold in_unit. rewrite <- Hv1.
  apply (rnd64_below _ _ _ (rnd64_sub _ _ Hf1 Hft ltac:(rewrite Hv1; exact Hvt)) Hf1).
  pose proof (fin64_val _ Hft). lra.
Qed.

(** The composite score of averages that are not negative and a rate that
    is a percentage. *)
Lemma quality_score_in_unit (uu wu ao rate : float) :
  nn64 uu -> nn64 wu -> nn64 ao -> fin64 rate -> (B2R rate <= 100)%R ->
  in_unit (quality_score uu wu ao rate).
Proof.
  intros Hu Hw Ho Hr Hr100.
  destruct (const64 1 ltac:(lia)) as [Hf1 Hv1].
  destruct (const64 100 ltac:(lia)) as [Hf100 Hv100].
  destruct (const64 20 ltac:(lia)) as [Hf20 Hv20].
  assert (Ha : in_unit (clip (fdiv uu (f_dec 100 0)) (f_dec 0 0) (f_dec 1 0))).
  { apply clip_in_unit, nn64_div; [exact Hu|exact Hf100|rewrite Hv100; lra]. }
  assert (Hb : in_unit (clip (fdiv wu (f_dec 100 0)) (f_dec 0 0) (f_dec 1 0))).
  { apply clip_in_unit, nn64_div; [exact Hw|exact Hf100|rewrite Hv100; lra]. }
  assert (Hc : in_unit (clip (fdiv ao (f_dec 20 0)) (f_dec 0 0) (f_dec 1 0))).
  { apply clip_in_unit, nn64_div; [exact Ho|exact Hf20|rewrite Hv20; lra]. }
  pose proof (correctness_in_unit rate Hr Hr100) as Hd.
  unfold quality_score. cbv zeta.
  set (a := clip (fdiv uu _) _ _) in *. set (b := clip (fdiv wu _) _ _) in *.
  set (c := clip (fdiv ao _) _ _) in *. set (d := fsub _ _) in *.
  clearbody a b c d.
  set (k4 := f_dec 4 (-1)). set (k3 := f_dec 3 (-1)).
  set (k2 := f_dec 2 (-1)). set (k1 := f_dec 1 (-1)).
  assert (Hk4 : fin64 k4) by (apply fin64_shape; vm_compute; exact I).
  assert (Hk3 : fin64 k3) by (apply fin64_shape; vm_compute; exact I).
  assert (Hk2 : fin64 k2) by (apply fin64_shape; vm_compute; exact I).
  assert (Hk1 : fin64 k1) by (apply fin64_shape; vm_compute; exact I).
  assert (HK1 : fin64 (fadd k4 k3)) by (apply fin64_shape; vm_compute; exact I).
  assert (HK2 : fin64 (fadd (fadd k4 k3) k2)) by (apply fin64_shape; vm_compute; exact I).
  assert (HK3 : fin64 (fadd (fadd (fadd k4 k3) k2) k1))
    by (apply fin64_shape; vm_compute; exact I).
  destruct (scale_in_unit k4 a Hk4 Ha) as [Hp1 Hq1].
  destruct (scale_in_unit k3 b Hk3 Hb) as [Hp2 Hq2].
  destruct (scale_in_unit k2 c Hk2 Hc) as [Hp3 Hq3].
  destruct (scale_in_unit k1 d Hk1 Hd) as [Hp4 Hq4].
  destruct (add_le64 _ _ k4 k3 Hp1 Hp2 Hk4 Hk3 HK1 Hq1 Hq2) as [Hs1 Ht1].
  destruct (add_le64 _ _ _ k2 Hs1 Hp3 HK1 Hk2 HK2 Ht1 Hq3) as [Hs2 Ht2].
  destruct (add_le64 _ _ _ k1 Hs2 Hp4 HK2 Hk1 HK3 Ht2 Hq4) as [Hs3 Ht3].
  split; [exact Hs3|].
  assert (Htop : (B2R (fadd (fadd (fadd k4 k3) k2) k1) <= B2R (f_dec 1 0))%R).
  { apply fin64_leb_val; [exact HK3|exact Hf1|]. vm_compute. reflexivity. }
  rewrite Hv1 in Htop. lra.
Qed.

End ReporterFacts.

Section ReporterRows.
Implicit Types (df : list (SummaryRow float)) (r : SummaryRow float).
Variable fsum : list float -> float.
Hypothesis fsum_sums : forall l, sums l (fsum l).

Lemma weight_cap_positive r : fin64 (weight_cap r) /\ (0 < B2R (weight_cap r))%R.
Proof.
  unfold weight_cap, FRAGILE_WEIGHT_CAP, PICKLIST_WEIGHT_CAP.
  destruct (String.eqb _ _).
  - destruct (const64 50 ltac:(lia)) as [Hf Hv]. split; [exact Hf|rewrite Hv; lra].
  - destruct (const64 200 ltac:(lia)) as [Hf Hv]. split; [exact Hf|rewrite Hv; lra].
Qed.

Lemma unit_util_nn64 r : 0 <= total_units r -> nn64 (unit_util_pct r).
Proof.
  intros Hu. unfold unit_util_pct, PICKLIST_UNIT_CAP.
  destruct (int64 2000 ltac:(lia)) as [Hf Hv]. destruct (int64 100 ltac:(lia)) as [Hf' Hv'].
  apply nn64_mul; [|exact Hf'|rewrite Hv'; lra].
  apply nn64_div; [|exact Hf|rewrite Hv; lra]. apply nn64_of_Z. exact Hu.
Qed.

(** The weight that counts is at most the cap. *)
Lemma effective_weight_le r :
  nn64 (total_weight r) ->
  fin64 (effective_weight r) /\ (B2R (effective_weight r) <= B2R (weight_cap r))%R.
Proof.
  intros Hw. destruct (weight_cap_positive r) as [Hc Hpos]. unfold effective_weight.
  destruct (fleb (total_weight r) (weight_cap r)) eqn:Hle.
  - pose proof (nn64_leb_fin _ _ Hw Hc Hle) as Hf. split; [exact Hf|].
    apply fin64_leb_val; assumption.
  - split; [exact Hc|lra].
Qed.

Lemma weight_util_le r :
  nn64 (total_weight r) ->
  fin64 (weight_util_pct r) /\ (B2R (weight_util_pct r) <= 100)%R.
Proof.
  intros Hw. destruct (weight_cap_positive r) as [Hc Hpos].
  destruct (effective_weight_le r Hw) as [He Hle].
  unfold weight_util_pct. apply percent_le. apply div_in_unit; assumption.
Qed.

Lemma sanity_check_length df : length (sanity_check fsum df) = length df.
Proof. unfold sanity_check. destruct (fltb _ _); [apply length_fmap|reflexivity]. Qed.

(** Step 0 keeps counts, and weights that are not negative. *)
Lemma sanity_check_rows df :
  Forall (fun r => 0 <= total_units r /\ 0 <= distinct_orders r /\ nn64 (total_weight r)) df ->
  Forall (fun r => 0 <= total_units r /\ 0 <= distinct_orders r /\ nn64 (total_weight r))
         (sanity_check fsum df).
Proof.
  intros Hall. unfold sanity_check. destruct (fltb _ _); [|exact Hall].
  apply Forall_fmap. eapply Forall_impl; [exact Hall|].
  intros r (Hu & Ho & Hw). cbn [total_units distinct_orders total_weight].
  split; [exact Hu|]. split; [exact Ho|].
  destruct (const64 1000 ltac:(lia)) as [Hf Hv].
  apply nn64_div; [exact Hw|exact Hf|rewrite Hv; lra].
Qed.

Lemma sanity_check_baseline df :
  baseline_picklists (sanity_check fsum df) = baseline_picklists df.
Proof.
  unfold sanity_check. destruct (fltb _ _); [|reflexivity].
  induction df as [|r df IH]; [reflexivity|].
  rewrite fmap_cons. cbn [baseline_picklists foldr distinct_orders].
  f_equal. exact IH.
Qed.

(** A float between 0 and [k], as the program compares. *)
Lemma fin64_between (x : float) k :
  0 <= k < 2 ^ 53 -> fin64 x -> (B2R x <= IZR k)%R ->
  fleb (f_of_int 0) x = true /\ fleb x (f_of_int k) = true.
Proof.
  intros Hk Hf Hle. destruct (int64 k Hk) as [Hfk Hvk].
  split; [apply nn64_leb0, fin64_nn64; exact Hf|].
  apply (fin64_val_leb x (f_of_int k)); [exact Hf|exact Hfk|rewrite Hvk; exact Hle].
Qed.

End ReporterRows.

Section ReporterProperties.

(** C8 (quality score).  In binary64, the score [evaluate_picklists]
    returns is
    [0.4 * clip(avg_unit_util / 100) + 0.3 * clip(avg_weight_util / 100) +
     0.2 * clip(avg_orders / 20) + 0.1 * (1 - violation_rate / 100)],
    each [clip] into [0, 1], over the averages and the violation rate of
    the returned metrics, and it lies between 0 and 1, whatever the order
    in which the means add their values: for a summary that is not empty,
    of fewer than [2 ^ 53] rows, whose counts and weights are not negative
    (and the weights not NaN). *)
Theorem quality_score_range (fsum : list float -> float) (df : list (SummaryRow float)) :
  (forall l, sums l (fsum l)) ->
  df <> [] -> Z.of_nat (length df) < 2 ^ 53 ->
  Forall (fun r => 0 <= total_units r /\ 0 <= distinct_orders r /\
                   fleb (f_of_int 0) (total_weight r) = true) df ->
  let m := evaluate_picklists fsum df in
  PQS m =
    fadd (fadd (fadd
      (fmul (f_dec 4 (-1)) (clip (fdiv (avg_unit_util m) (f_dec 100 0)) (f_dec 0 0) (f_dec 1 0)))
      (fmul (f_dec 3 (-1)) (clip (fdiv (avg_weight_util m) (f_dec 100 0)) (f_dec 0 0) (f_dec 1 0))))
      (fmul (f_dec 2 (-1))
         (clip (fdiv (avg_orders fsum (sanity_check fsum df)) (f_dec 20 0))
               (f_dec 0 0) (f_dec 1 0))))
      (fmul (f_dec 1 (-1)) (fsub (f_dec 1 0) (fdiv (m_violation_rate m) (f_dec 100 0)))) /\
  fleb (f_of_int 0) (PQS m) = true /\ fleb (PQS m) (f_of_int 1) = true.
Proof.
  intros Hsum Hne Hlen Hrows m. split; [reflexivity|].
  assert (Hrows' : Forall (fun r => 0 <= total_units r /\ 0 <= distinct_orders r /\
                                    nn64 (total_weight r)) (sanity_check fsum df)).
  { apply sanity_check_rows. eapply Forall_impl; [exact Hrows|].
    intros r (Hu & Ho & Hw). auto using leb0_nn64. }
  pose proof (sanity_check_length fsum df) as Hlen'.
  set (df' := sanity_check fsum df) in *.
  assert (Hne' : df' <> []) by (destruct df', df; try discriminate; congruence).
  assert (Hmean : forall f : SummaryRow float -> float,
            Forall (fun r => nn64 (f r)) df' -> nn64 (mean fsum (f <$> df'))).
  { intros f Hf. apply mean_nn64; [exact Hsum| |rewrite length_fmap; lia|].
    - destruct df'; [contradiction|discriminate].
    - apply Forall_fmap. exact Hf. }
  destruct (violation_rate_percent df' Hne' ltac:(lia)) as [Hr Hr100].
  assert (Hq : in_unit (PQS m)).
  { unfold m, evaluate_picklists. cbn [PQS]. fold df'.
    apply quality_score_in_unit; [| | |exact Hr|exact Hr100].
    - apply Hmean. eapply Forall_impl; [exact Hrows'|].
      intros r (Hu & _ & _). apply unit_util_nn64. exact Hu.
    - apply Hmean. eapply Forall_impl; [exact Hrows'|].
      intros r (_ & _ & Hw). apply fin64_nn64. apply (weight_util_le r Hw).
    - unfold avg_orders. apply Hmean. eapply Forall_impl; [exact Hrows'|].
      intros r (_ & Ho & _). apply nn64_of_Z. exact Ho. }
  destruct Hq as [Hf Hle]. apply fin64_between; [lia|exact Hf|exact Hle].
Qed.

(** Weight utilisation is capped.  In binary64, for a summary whose weights
    are not negative (and not NaN), also one with weights over the caps,
    the weight utilisation of every row is at most 100 percent; so is the
    average the reporter returns, whatever the order in which the mean adds
    the values, for a summary that is not empty and has fewer than
    [2 ^ 40] rows. *)
Theorem weight_utilisation_capped (fsum : list float -> float) (sm : list (SummaryRow float)) :
  (forall l, sums l (fsum l)) ->
  sm <> [] -> Z.of_nat (length sm) < 2 ^ 40 ->
  Forall (fun r => fleb (f_of_int 0) (total_weight r) = true) sm ->
  Forall (fun r => fleb (weight_util_pct r) (f_of_int 100) = true) (sanity_check fsum sm) /\
  fleb (avg_weight_util (evaluate_picklists fsum sm)) (f_of_int 100) = true.
Proof.
  intros Hsum Hne Hlen Hrows.
  assert (Hrows' : Forall (fun r => fin64 (weight_util_pct r) /\
                                    (B2R (weight_util_pct r) <= IZR 100)%R)
                          (sanity_check fsum sm)).
  { assert (Hw : Forall (fun r => nn64 (total_weight r)) (sanity_check fsum sm)).
    { unfold sanity_check. destruct (fltb _ _).
      - apply Forall_fmap. eapply Forall_impl; [exact Hrows|]. intros r Hr.
        cbn [total_weight].
        destruct (const64 1000 ltac:(lia)) as [Hf Hv].
        apply nn64_div; [apply leb0_nn64; exact Hr|exact Hf|rewrite Hv; lra].
      - eapply Forall_impl; [exact Hrows|]. intros r Hr. apply leb0_nn64. exact Hr. }
    eapply Forall_impl; [exact Hw|]. intros r Hr. apply weight_util_le. exact Hr. }
  pose proof (sanity_check_length fsum sm) as Hlen'.
  set (df' := sanity_check fsum sm) in *.
  split.
  - eapply Forall_impl; [exact Hrows'|]. intros r [Hf Hle].
    apply (fin64_between _ 100); [lia|exact Hf|exact Hle].
  - unfold evaluate_picklists. cbn [avg_weight_util]. fold df'. unfold mean.
    set (l := weight_util_pct <$> df').
    assert (Hl : length l = length sm) by (unfold l; rewrite length_fmap; exact Hlen').
    assert (Hne' : l <> []) by (destruct l, sm; try discriminate; congruence).
    destruct (sums_bounded 100 l (fsum l) (Hsum l) ltac:(lia)) as [Hfa Hva].
    { unfold l. apply Forall_fmap. exact Hrows'. }
    { rewrite Hl. lia. }
    destruct (count_positive l Hne' ltac:(lia)) as (Hfn & Hvn & Hpos).
    destruct (int64 100 ltac:(lia)) as [Hf100 Hv100].
    assert (Hdiv : rnd64 (B2R (fsum l) / B2R (f_of_int (Z.of_nat (length l))))
                         (fdiv (fsum l) (f_of_int (Z.of_nat (length l)))))
      by (apply rnd64_div; [exact Hfa|exact Hfn|rewrite Hvn; lra]).
    destruct (rnd64_below _ _ (f_of_int 100) Hdiv Hf100) as [Hfm Hvm].
    { rewrite Hvn, Hv100. rewrite mult_IZR in Hva.
      set (n := IZR (Z.of_nat (length l))) in *.
      set (t := (B2R (fsum l) / n)%R).
      assert (Ht : (B2R (fsum l) = t * n)%R) by (unfold t; field; lra).
      clearbody t. nra. }
    apply (fin64_between _ 100); [lia|exact Hfm|rewrite <- Hv100; exact Hvm].
Qed.

End ReporterProperties.

(** ** Termination in binary64 *)

Section Binary64Termination.

(** [int(x)] of a float that is at least 1. *)
Lemma to_Z_ge_1 m e :
  (1 <= IZR (Z.pos m) * bpow e)%R ->
  1 <= (if 0 <=? e then Z.pos m * 2 ^ e else Z.pos m / 2 ^ (- e)).
Proof.
  intros Hge. destruct (Z.leb_spec 0 e) as [He|He].
  - pose proof (pow2_pos e He). nia.
  - assert (Hp : 0 < 2 ^ (- e)) by (apply pow2_pos; lia).
    apply Z.div_le_lower_bound; [exact Hp|]. rewrite Z.mul_1_r.
    apply le_IZR.
    assert (Hb : (bpow e * IZR (2 ^ (- e)) = 1)%R).
    { rewrite <- bpow_IZR, <- bpow_plus by lia. replace (e + - e) with 0 by lia.
      apply bpow_0. }
    assert (0 < IZR (2 ^ (- e)))%R by (apply IZR_lt; exact Hp).
    pose proof (bpow_gt_0 e). nra.
Qed.

(** A fresh bin has room, and a unit that weighs no more than the cap
    fits in it at least once, unless [int()] raises. *)
Lemma binary64_fresh_bin_laws : fresh_bin_laws (F := float).
Proof.
  intros fragile_. split; [destruct fragile_; vm_compute; reflexivity|].
  intros w Hpos Hle.
  assert (Hcap : fsub (cap_weight_of fragile_) (f_dec 0 0) = cap_weight_of fragile_)
    by (destruct fragile_; vm_compute; reflexivity).
  rewrite Hcap.
  assert (Hc : fin64 (cap_weight_of fragile_))
    by (destruct fragile_; apply fin64_shape; vm_compute; exact I).
  destruct (int64 0 ltac:(lia)) as [Hf0 Hv0]. destruct (int64 1 ltac:(lia)) as [Hf1 Hv1].
  assert (Hnn : nn64 w).
  { apply leb0_nn64. cbn [fleb fltb f_of_int Binary64.ops] in *.
    rewrite ltb_spec in Hpos. rewrite leb_spec. unfold SFltb in Hpos. unfold SFleb.
    destruct (SFcompare _ _) as [[ | | ]|]; try discriminate; reflexivity. }
  pose proof (nn64_leb_fin _ _ Hnn Hc Hle) as Hfw.
  pose proof (fin64_ltb_val _ _ Hf0 Hfw Hpos) as Hw0. rewrite Hv0 in Hw0.
  pose proof (fin64_leb_val _ _ Hfw Hc Hle) as Hwc.
  set (q := fdiv (cap_weight_of fragile_) w).
  assert (Hq : rnd64 (B2R (cap_weight_of fragile_) / B2R w) q)
    by (apply rnd64_div; assumption).
  assert (Hge : fleb (f_of_int 1) q = true).
  { apply (rnd64_above _ _ _ Hq Hf1). rewrite Hv1.
    set (t := (B2R (cap_weight_of fragile_) / B2R w)%R).
    assert (Ht : (B2R (cap_weight_of fragile_) = t * B2R w)%R) by (unfold t; field; lra).
    clearbody t. nra. }
  assert (Hsh : nn64 q) by exact (rnd64_nn64 _ _ Hq).
  clearbody q.
  cbn [f_to_int Binary64.ops]. unfold Binary64.to_Z.
  unfold nn64 in Hsh.
  destruct (Prim2SF q) as [s|[|]| |[|] m e] eqn:Eq; try contradiction; try exact I.
  - exfalso. cbn [fleb Binary64.ops] in Hge. rewrite leb_spec, Eq in Hge.
    unfold fin64 in Hf1.
    destruct (Prim2SF (f_of_int 1)) as [s1|[|]| |[|] m1 e1] eqn:E1; simpl in Hf1;
      try contradiction; discriminate.
  - assert (Hfq : fin64 q) by (apply fin64_shape; rewrite Eq; exact I).
    pose proof (fin64_leb_val _ _ Hf1 Hfq Hge) as Hval. rewrite Hv1 in Hval.
    unfold B2R in Hval. rewrite Eq in Hval. simpl SF2R in Hval.
    apply to_Z_ge_1. exact Hval.
Qed.

End Binary64Termination.

Section Binary64TerminationProperties.

(** Termination (binary64).  When every row of positive quantity and
    positive unit weight weighs no more per unit than the weight cap of its
    fragility class, [generate_picklists] ends: it returns or it raises,
    within two iterations of the fill loop per unit of the largest row,
    plus one. *)
Theorem packable_frame_ends (now : nat -> string) fuel (df : list (Row float)) :
  Forall (fun r => packable (_fragile r) r) df -> (fuel_for df <= fuel)%nat ->
  finished (generate_picklists now fuel df) = true.
Proof. apply generate_picklists_finishes. exact binary64_fresh_bin_laws. Qed.

End Binary64TerminationProperties.

(** ** A row heavier than the weight cap, in binary64 *)

Section Binary64Signs.








End Binary64Signs.

Section OverweightFacts.
Implicit Types (s : State float) (row : Row float) (x y a w : float).





Variable now : nat -> string.
Variables (zone_ : string) (fragile_ : bool).






End OverweightFacts.

Section OverweightProperties.


End OverweightProperties.

(** ** The reporter on the packer's summary *)

Section SumFacts.
Context {F : Type} `{FloatOps F}.

(** The sum from left to right is one of the sums. *)
Lemma sums_sum_left (l : list F) : sums l (sum_left l).
Proof.
  unfold sum_left.
  assert (Hgen : forall l l0 acc, sums l0 acc -> sums (l0 ++ l) (foldl fadd acc l)).
  { clear l. induction l as [|x l IH]; intros l0 acc Hacc; simpl.
    - rewrite app_nil_r. exact Hacc.
    - replace (l0 ++ x :: l) with ((l0 ++ [x]) ++ l) by (rewrite <- app_assoc; reflexivity).
      apply IH. apply sums_app; [exact Hacc|apply sums_one]. }
  exact (Hgen l [] _ sums_nil).
Qed.

(** No picklist within the unit cap is a unit violation. *)
Lemma no_unit_violation (r : SummaryRow F) : within_caps r -> unit_violation r = false.
Proof.
  intros [Hu _]. unfold unit_violation. apply Z.ltb_ge. exact Hu.
Qed.

Lemma sanity_check_units (fsum : list F -> F) (P : Z -> Prop) (sm : list (SummaryRow F)) :
  Forall (fun r => P (total_units r)) sm ->
  Forall (fun r => P (total_units r)) (sanity_check fsum sm).
Proof.
  intros Hall. unfold sanity_check. destruct (fltb _ _); [|exact Hall].
  apply Forall_fmap. eapply Forall_impl; [exact Hall|]. intros r Hr. exact Hr.
Qed.

Lemma weight_only (df : list (SummaryRow F)) :
  Forall (fun r => total_units r <= PICKLIST_UNIT_CAP) df ->
  unit_dominated df = 0 /\ total_violations df = weight_dominated df.
Proof.
  unfold unit_dominated, total_violations, weight_dominated, unit_violation.
  induction 1 as [|r df Hr _ [IH1 IH2]]; [split; reflexivity|].
  cbn [List.filter]. apply Z.ltb_ge in Hr. rewrite Hr. cbn [orb andb negb].
  rewrite andb_true_r. split; [exact IH1|].
  destruct (weight_violation r); cbn [length]; lia.
Qed.

End SumFacts.

Section ReporterOnPackerProperties.
Context {F : Type} `{FloatOps F}.

(** The reporter finds no unit violation on the packer's summary.  On the
    summary [generate_picklists] builds, when it has a row (the file of a
    summary without rows cannot be read back), the reporter counts no
    picklist over the unit cap, alone or together with the weight cap: every
    violation it counts is of the weight cap only. *)
Theorem violations_are_of_weight (fsum : list F -> F) now fuel (df : list (Row F)) :
  summary (final (generate_picklists now fuel df)) <> [] ->
  let sm := sanity_check fsum (summary (final (generate_picklists now fuel df))) in
  Forall (fun r => unit_violation r = false) sm /\
  unit_dominated sm = 0 /\
  total_violations sm = weight_dominated sm.
Proof.
  intros _ sm.
  assert (Hu : Forall (fun r => total_units r <= PICKLIST_UNIT_CAP) sm).
  { subst sm. apply (sanity_check_units fsum (fun u => u <= PICKLIST_UNIT_CAP)).
    destruct (generate_picklists_ok now fuel df) as (rows & files & [Hs _] & Hok).
    rewrite Hs. simpl. eapply Forall_impl; [exact (emitted_rows_within_caps _ _ Hok)|].
    intros r [Hr _]. exact Hr. }
  split; [|apply weight_only; exact Hu].
  eapply Forall_impl; [exact Hu|]. intros r Hr. unfold unit_violation.
  apply Z.ltb_ge. exact Hr.
Qed.

End ReporterOnPackerProperties.

Section ReductionProperties.

(** The reduction against the baseline (binary64).  Every picklist the
    packer emits counts at least one order, so on its summary, when it is
    not empty, the baseline of one picklist per order is at least the number
    of picklists, and the reduction the reporter returns lies between 0 and
    100 percent (the baseline being under [2 ^ 53]). *)
Theorem reduction_on_packer_summary (fsum : list float -> float) now fuel
    (df : list (Row float)) :
  let sm := summary (final (generate_picklists now fuel df)) in
  sm <> [] -> baseline_picklists sm < 2 ^ 53 ->
  Z.of_nat (length sm) <= baseline_picklists sm /\
  fleb (f_of_int 0) (picklist_reduction_pct (evaluate_picklists fsum sm)) = true /\
  fleb (picklist_reduction_pct (evaluate_picklists fsum sm)) (f_of_int 100) = true.
Proof.
  intros sm Hne Hb.
  assert (Hn : Z.of_nat (length sm) <= baseline_picklists sm).
  { apply baseline_covers. subst sm.
    destruct (generate_picklists_ok now fuel df) as (rows & files & [Hs _] & Hok).
    rewrite Hs. simpl. eapply emitted_orders. exact Hok. }
  split; [exact Hn|].
  unfold evaluate_picklists. cbn [picklist_reduction_pct]. unfold reduction_pct.
  rewrite sanity_check_baseline, sanity_check_length.
  assert (Hlen : 1 <= Z.of_nat (length sm)) by (destruct sm; [contradiction|simpl length; lia]).
  destruct (Z.ltb_spec 0 (baseline_picklists sm)) as [_|Hle]; [|lia].
  set (b := baseline_picklists sm) in *. set (n := Z.of_nat (length sm)) in *.
  assert (Hbn : 0 <= b - n < 2 ^ 53) by lia.
  assert (Hb' : 0 <= b < 2 ^ 53) by lia.
  destruct (int64 (b - n) Hbn) as [Hf1 Hv1]. destruct (int64 b Hb') as [Hf2 Hv2].
  destruct (percent_le (fdiv (f_of_int (b - n)) (f_of_int b))) as [Hf Hv].
  { apply div_in_unit; [exact Hf1|exact Hf2| |].
    - rewrite Hv2. apply IZR_lt. lia.
    - rewrite Hv1, Hv2. apply IZR_le. lia. }
  apply (fin64_between _ 100); [lia|exact Hf|exact Hv].
Qed.

End ReductionProperties.

(** ** The properties on sample inputs *)

Section SampleRuns.

(** The bulk order through [process_zone]: two files, whose lines are those
    of the three rows in order. *)
Lemma process_zone_conserves_bulk_order :
  items (final (process_zone first_day "A" false 10 bulk_order (initial (F := float)))) = [] /\
  exists files pieces,
    written (final (process_zone first_day "A" false 10 bulk_order (initial (F := float)))) =
      written (initial (F := float)) ++ files /\
    concat (snd <$> files) = concat pieces /\
    Forall2 pieces_of bulk_order pieces.
Proof.
  apply (process_zone_conserves (F := float) first_day "A" false 10 bulk_order initial).
  vm_compute. reflexivity.
Defined.

(** The mixed frame: 3 + 2 units asked for, the lines of quantity 0 and -2
    counting for nothing, and 5 units in the summary. *)
Lemma units_accounted_mixed_frame :
  units_emitted (summary (final (generate_picklists first_day 10 (mixed_frame (F := float))))) =
  units_asked (mixed_frame (F := float)).
Proof.
  apply (units_accounted (F := float) first_day 10 mixed_frame).
  vm_compute. reflexivity.
Defined.

(** The sample summary: two rows, counts and weights not negative; the
    means add from left to right. *)
Lemma quality_score_sample :
  let m := evaluate_picklists sum_left (sample_summary (F := float)) in
  PQS m =
    fadd (fadd (fadd
      (fmul (f_dec 4 (-1)) (clip (fdiv (avg_unit_util m) (f_dec 100 0)) (f_dec 0 0) (f_dec 1 0)))
      (fmul (f_dec 3 (-1)) (clip (fdiv (avg_weight_util m) (f_dec 100 0)) (f_dec 0 0) (f_dec 1 0))))
      (fmul (f_dec 2 (-1))
         (clip (fdiv (avg_orders sum_left (sanity_check sum_left sample_summary)) (f_dec 20 0))
               (f_dec 0 0) (f_dec 1 0))))
      (fmul (f_dec 1 (-1)) (fsub (f_dec 1 0) (fdiv (m_violation_rate m) (f_dec 100 0)))) /\
  fleb (f_of_int 0) (PQS m) = true /\ fleb (PQS m) (f_of_int 1) = true.
Proof.
  apply (quality_score_range sum_left sample_summary).
  - exact sums_sum_left.
  - discriminate.
  - reflexivity.
  - unfold sample_summary.
    repeat (constructor; [split; [simpl; lia|split; [simpl; lia|vm_compute; reflexivity]]|]).
    constructor.
Defined.

(** The sample summary has a row of 200 kg and one of 12 kg. *)
Lemma weight_utilisation_capped_sample :
  Forall (fun r => fleb (weight_util_pct r) (f_of_int 100) = true)
         (sanity_check sum_left (sample_summary (F := float))) /\
  fleb (avg_weight_util (evaluate_picklists sum_left (sample_summary (F := float))))
       (f_of_int 100) = true.
Proof.
  apply (weight_utilisation_capped sum_left sample_summary).
  - exact sums_sum_left.
  - discriminate.
  - reflexivity.
  - unfold sample_summary. repeat (constructor; [vm_compute; reflexivity|]). constructor.
Defined.

(** The bulk order is packable, and its run ends. *)
Lemma packable_frame_bulk_order :
  finished (generate_picklists first_day (fuel_for (bulk_order (F := float))) bulk_order) = true.
Proof.
  apply (packable_frame_ends first_day (fuel_for bulk_order) bulk_order).
  - unfold bulk_order. repeat (constructor; [intros _ _; vm_compute; reflexivity|]).
    constructor.
  - apply Nat.le_refl.
Defined.

(** The mixed frame gives two picklists of one order each: no reduction. *)
Lemma reduction_mixed_frame :
  Z.of_nat (length (summary (final (generate_picklists first_day 10 (mixed_frame (F := float)))))) <=
    baseline_picklists (summary (final (generate_picklists first_day 10 (mixed_frame (F := float))))) /\
  fleb (f_of_int 0)
       (picklist_reduction_pct
          (evaluate_picklists sum_left
             (summary (final (generate_picklists first_day 10 (mixed_frame (F := float))))))) = true /\
  fleb (picklist_reduction_pct
          (evaluate_picklists sum_left
             (summary (final (generate_picklists first_day 10 (mixed_frame (F := float)))))))
       (f_of_int 100) = true.
Proof.
  apply (reduction_on_packer_summary sum_left first_day 10 mixed_frame).
  - vm_compute. discriminate.
  - vm_compute. reflexivity.
Defined.


(** The mixed frame: its summary has no unit violation. *)
Lemma violations_mixed_frame :
  Forall (fun r => unit_violation r = false)
    (sanity_check sum_left (summary (final (generate_picklists first_day 10 (mixed_frame (F := float)))))) /\
  unit_dominated
    (sanity_check sum_left (summary (final (generate_picklists first_day 10 (mixed_frame (F := float)))))) = 0 /\
  total_violations
    (sanity_check sum_left (summary (final (generate_picklists first_day 10 (mixed_frame (F := float)))))) =
  weight_dominated
    (sanity_check sum_left (summary (final (generate_picklists first_day 10 (mixed_frame (F := float)))))).
Proof.
  apply (violations_are_of_weight (F := float) sum_left first_day 10 mixed_frame).
  vm_compute. discriminate.
Defined.

End SampleRuns.
